(** * Circuit equivalence checker: a shallow embedding and its properties

    The development follows the two Python modules of the repository:

    - [circuit_equivalence.py]: [build_z3_expr] (inlined mode) and
      [check_circuit_equivalence];
    - [circuit-evaluator.py]: [build_z3_expr] (constrained mode) and
      [validate_circuit].

    Python dictionaries are insertion-ordered maps, Python sets are
    [ListSet] sets, Python exceptions are values of [exn] carried by the
    [result] monad, and the z3 solver is a parameter [solve] of the
    functions that query it. *)

From Stdlib Require Import String Ascii List ListSet Bool Arith ZArith Lia.
Import ListNotations.
Local Open Scope string_scope.
Local Open Scope list_scope.
Set Warnings "-register-all".

(* ================================================================== *)
(** ** Python exceptions *)

Inductive exn : Type :=
| ValueError (msg : string)
| KeyError (key : string)
| IndexError
| SystemExit (code : Z).

Inductive result (A : Type) : Type :=
| Ok (a : A)
| Raise (e : exn).

Arguments Ok {A} a.
Arguments Raise {A} e.

Definition bind {A B : Type} (r : result A) (k : A -> result B) : result B :=
  match r with
  | Ok a => k a
  | Raise e => Raise e
  end.

Notation "x <- r ;; k" := (bind r (fun x => k))
  (at level 61, r at next level, right associativity).
Notation "' p <- r ;; k" := (bind r (fun x => match x with p => k end))
  (at level 61, p pattern, r at next level, right associativity).

(** [[f(x) for x in xs]] where [f] may raise. *)
Fixpoint mapM {A B : Type} (f : A -> result B) (xs : list A) : result (list B) :=
  match xs with
  | [] => Ok []
  | x :: rest =>
      y <- f x ;;
      ys <- mapM f rest ;;
      Ok (y :: ys)
  end.

(** [xs[i]] *)
Definition index {A : Type} (xs : list A) (i : nat) : result A :=
  match nth_error xs i with
  | Some x => Ok x
  | None => Raise IndexError
  end.

(* ================================================================== *)
(** ** Python dictionaries with string keys

    A [dict] keeps its keys in insertion order; assigning to a key that is
    already present replaces the value and leaves the key where it is. *)

Module Dict.
Section WithValues.
Context {V : Type}.

Definition t : Type := list (string * V).

Definition empty : t := [].

(** [d.get(k)] *)
Fixpoint get (d : t) (k : string) : option V :=
  match d with
  | [] => None
  | (k', v) :: rest => if String.eqb k k' then Some v else get rest k
  end.

(** [k in d] *)
Definition contains (d : t) (k : string) : bool :=
  match get d k with
  | Some _ => true
  | None => false
  end.

(** [d[k]] *)
Definition getitem (d : t) (k : string) : result V :=
  match get d k with
  | Some v => Ok v
  | None => Raise (KeyError k)
  end.

(** [d[k] = v] *)
Fixpoint setitem (d : t) (k : string) (v : V) : t :=
  match d with
  | [] => [(k, v)]
  | (k', v') :: rest =>
      if String.eqb k k' then (k', v) :: rest
      else (k', v') :: setitem rest k v
  end.

(** [d.keys()], [d.items()], [len(d)] *)
Definition keys (d : t) : list string := map fst d.
Definition items (d : t) : list (string * V) := d.
Definition len (d : t) : nat := length d.

(** A list of pairs is a dictionary when no key occurs twice. *)
Definition wf (d : t) : Prop := NoDup (keys d).
End WithValues.
Arguments t V : clear implicits.
End Dict.

(* ================================================================== *)
(** ** The fragment of z3 the program uses *)

Module Z3.

(** Boolean terms: [Bool(name)], [And(list)], [Or(list)], [Not(e)],
    [a ^ b], [a == b] and [a != b] (z3 builds [Distinct] for the last).
    [And([])] is true and [Or([])] is false. *)
Inductive expr : Type :=
| Bool (name : string)
| And (args : list expr)
| Or (args : list expr)
| Not (a : expr)
| Xor (a b : expr)
| Eq (a b : expr)
| Distinct (a b : expr).

(** [Bool(name)] hands [name] to z3 as a C string, which ends at its first
    NUL character: the variable built is the one of the symbol of the
    name, and two names with the same symbol are the same variable. *)
Fixpoint symbol (name : string) : string :=
  match name with
  | EmptyString => EmptyString
  | String c rest =>
      if Ascii.eqb c Ascii.zero then EmptyString else String c (symbol rest)
  end.

(** A name without a NUL character is its own symbol. *)
Fixpoint nul_free (name : string) : bool :=
  match name with
  | EmptyString => true
  | String c rest => negb (Ascii.eqb c Ascii.zero) && nul_free rest
  end.

(** A model with completion gives the variable of every name a truth
    value: [m name] is the value of [Bool(name)]. The models z3 returns
    give two names of one variable the same value. *)
Definition model : Type := string -> bool.

(** A valuation of z3's variables: the value of a name is the value of
    its symbol. *)
Definition respects (m : model) : Prop :=
  forall x y, symbol x = symbol y -> m x = m y.

(** [is_true(model.evaluate(e, model_completion=True))] *)
Fixpoint evaluate (m : model) (e : expr) : bool :=
  match e with
  | Bool x => m x
  | And args => forallb (evaluate m) args
  | Or args => existsb (evaluate m) args
  | Not a => negb (evaluate m a)
  | Xor a b => xorb (evaluate m a) (evaluate m b)
  | Eq a b => Bool.eqb (evaluate m a) (evaluate m b)
  | Distinct a b => negb (Bool.eqb (evaluate m a) (evaluate m b))
  end.

(** The answer of [solver.check()], with [solver.model()] attached to
    [sat]. *)
Inductive check_result : Type :=
| sat (m : model)
| unsat
| unknown.

(** A solver session: the assertions added so far. *)
Record Solver : Type := { assertions : list expr }.

Definition new_solver : Solver := {| assertions := [] |}.

Definition add (s : Solver) (f : expr) : Solver :=
  {| assertions := assertions s ++ [f] |}.

(** A model satisfies a session when it makes every assertion true. *)
Definition satisfies (m : model) (fs : list expr) : bool :=
  forallb (evaluate m) fs.

(** The contract of the decision procedure: the model of a [sat] answer
    satisfies the session and is a valuation of z3's variables, and after
    an [unsat] answer no valuation of z3's variables satisfies it. *)
Record sound (solve : list expr -> check_result) : Prop := {
  sat_sound : forall fs m, solve fs = sat m -> satisfies m fs = true;
  sat_respects : forall fs m, solve fs = sat m -> respects m;
  unsat_sound : forall fs, solve fs = unsat ->
                forall m, respects m -> satisfies m fs = false
}.

(** On propositional formulas the solver always answers. *)
Definition decides (solve : list expr -> check_result) : Prop :=
  forall fs, solve fs <> unknown.

(** *** A reference solver: exhaustive search over the free variables *)

(** The names a term is built from, as written. *)
Fixpoint names (e : expr) : list string :=
  match e with
  | Bool x => [x]
  | And args => flat_map names args
  | Or args => flat_map names args
  | Not a => names a
  | Xor a b => names a ++ names b
  | Eq a b => names a ++ names b
  | Distinct a b => names a ++ names b
  end.

Fixpoint assignments (xs : list string) : list (Dict.t bool) :=
  match xs with
  | [] => [[]]
  | x :: rest =>
      map (fun a => (x, false) :: a) (assignments rest)
      ++ map (fun a => (x, true) :: a) (assignments rest)
  end.

Definition model_of (a : Dict.t bool) : model :=
  fun x => match Dict.get a x with Some b => b | None => false end.

(** The model that reads the variable of a name in an assignment to
    symbols. *)
Definition valuation (a : Dict.t bool) : model :=
  fun x => model_of a (symbol x).

Definition search (fs : list expr) : check_result :=
  match find (fun a => satisfies (valuation a) fs)
             (assignments (nodup string_dec (map symbol (flat_map names fs)))) with
  | Some a => sat (valuation a)
  | None => unsat
  end.

End Z3.

(* ================================================================== *)
(** ** Circuit descriptions *)

Module Gate.
Record t : Type := make { name : string; type : string; inputs : list string }.
End Gate.

Module Circuit.
Record t : Type := make {
    inputs : list string;
    gates : list Gate.t;
    outputs : list string
  }.
End Circuit.

(** [str.upper()] on ASCII text: the letters [a] to [z] become [A] to [Z]
    and the other characters stay. Python's method also changes letters
    outside ASCII (the upper case of [ß] is [SS]), which [upper] leaves as
    they are. The upper case of a text with such a letter is none of the
    seven gate types, so whether a text is a gate type once in upper case
    is the same for both; a property that shows the upper-cased text itself
    is stated for ASCII text. *)
Definition upper_ascii (c : ascii) : ascii :=
  let n := nat_of_ascii c in
  if ((97 <=? n) && (n <=? 122))%nat then ascii_of_nat (n - 32) else c.

Fixpoint upper (s : string) : string :=
  match s with
  | EmptyString => EmptyString
  | String c rest => String (upper_ascii c) (upper rest)
  end.

(** Text of ASCII characters only. *)
Fixpoint ascii_text (s : string) : bool :=
  match s with
  | EmptyString => true
  | String c rest => (nat_of_ascii c <? 128)%nat && ascii_text rest
  end.

(* ================================================================== *)
(** ** What the two modules have in common

    Each of the two Python files has its own [build_z3_expr]; the checks
    on the input signals, the chain on the gate type and the output loop
    are the same text in both, and are embedded once. *)

(** [x in xs] for a list of names. *)
Definition contains (xs : list string) (x : string) : bool :=
  existsb (String.eqb x) xs.

Arguments contains xs x : simpl never.

(** The [if]/[elif] chain on [gate_type]: the term computing the gate from
    the terms of its input signals, or the [ValueError] of the arity and
    type checks. *)
Definition gate_function (expr_map : Dict.t Z3.expr)
    (gate_name gate_type : string) (gate_inputs : list string) : result Z3.expr :=
  if gate_type =? "AND" then
    args <- mapM (Dict.getitem expr_map) gate_inputs ;;
    Ok (Z3.And args)
  else if gate_type =? "OR" then
    args <- mapM (Dict.getitem expr_map) gate_inputs ;;
    Ok (Z3.Or args)
  else if gate_type =? "NOT" then
    if negb (length gate_inputs =? 1)%nat then
      Raise (ValueError ("NOT gate '" ++ gate_name ++ "' must have exactly one input."))
    else
      s0 <- index gate_inputs 0 ;;
      a <- Dict.getitem expr_map s0 ;;
      Ok (Z3.Not a)
  else if gate_type =? "NAND" then
    args <- mapM (Dict.getitem expr_map) gate_inputs ;;
    Ok (Z3.Not (Z3.And args))
  else if gate_type =? "NOR" then
    args <- mapM (Dict.getitem expr_map) gate_inputs ;;
    Ok (Z3.Not (Z3.Or args))
  else if gate_type =? "XOR" then
    if negb (length gate_inputs =? 2)%nat then
      Raise (ValueError ("XOR gate '" ++ gate_name ++ "' must have exactly two inputs."))
    else
      s0 <- index gate_inputs 0 ;;
      a <- Dict.getitem expr_map s0 ;;
      s1 <- index gate_inputs 1 ;;
      b <- Dict.getitem expr_map s1 ;;
      Ok (Z3.Xor a b)
  else if gate_type =? "XNOR" then
    if negb (length gate_inputs =? 2)%nat then
      Raise (ValueError ("XNOR gate '" ++ gate_name ++ "' must have exactly two inputs."))
    else
      s0 <- index gate_inputs 0 ;;
      a <- Dict.getitem expr_map s0 ;;
      s1 <- index gate_inputs 1 ;;
      b <- Dict.getitem expr_map s1 ;;
      Ok (Z3.Not (Z3.Xor a b))
  else
    Raise (ValueError ("Unsupported gate type: " ++ gate_type)).

(** [for sig in gate_inputs: if sig not in expr_map: raise ValueError(...)] *)
Fixpoint check_defined (expr_map : Dict.t Z3.expr) (gate_name : string)
    (gate_inputs : list string) : result unit :=
  match gate_inputs with
  | [] => Ok tt
  | sig :: rest =>
      if negb (Dict.contains expr_map sig) then
        Raise (ValueError ("Signal '" ++ sig ++ "' used in gate '" ++ gate_name
                           ++ "' is not defined."))
      else check_defined expr_map gate_name rest
  end.

(** The loop [for out in circuit['outputs']] that fills [output_expr]. *)
Fixpoint map_outputs (expr_map output_expr : Dict.t Z3.expr)
    (outs : list string) : result (Dict.t Z3.expr) :=
  match outs with
  | [] => Ok output_expr
  | out :: rest =>
      if Dict.contains expr_map out then
        e <- Dict.getitem expr_map out ;;
        map_outputs expr_map (Dict.setitem output_expr out e) rest
      else
        Raise (ValueError ("Output signal '" ++ out ++ "' is not defined in the circuit."))
  end.

(* ================================================================== *)
(** ** circuit_equivalence.py *)

Module CircuitEquivalence.

(** The loop [for inp in circuit['inputs']]; [variables] and [z3_vars] are
    the caller's objects, so their new contents are returned. *)
Fixpoint bind_inputs (inps : list string) (variables : set string)
    (z3_vars expr_map : Dict.t Z3.expr)
  : result (set string * Dict.t Z3.expr * Dict.t Z3.expr) :=
  match inps with
  | [] => Ok (variables, z3_vars, expr_map)
  | inp :: rest =>
      let variables := set_add string_dec inp variables in
      let z3_vars :=
        if negb (Dict.contains z3_vars inp)
        then Dict.setitem z3_vars inp (Z3.Bool inp) else z3_vars in
      v <- Dict.getitem z3_vars inp ;;
      bind_inputs rest variables z3_vars (Dict.setitem expr_map inp v)
  end.

(** The loop [for gate in circuit['gates']]. *)
Fixpoint process_gates (gs : list Gate.t) (gate_names variables : set string)
    (expr_map : Dict.t Z3.expr) : result (set string * Dict.t Z3.expr) :=
  match gs with
  | [] => Ok (variables, expr_map)
  | gate :: rest =>
      let gate_name := Gate.name gate in
      if set_mem string_dec gate_name gate_names then
        Raise (ValueError ("Duplicate gate name '" ++ gate_name ++ "' in circuit."))
      else
        let gate_names := set_add string_dec gate_name gate_names in
        let gate_type := upper (Gate.type gate) in
        let gate_inputs := Gate.inputs gate in
        _ <- check_defined expr_map gate_name gate_inputs ;;
        expr <- gate_function expr_map gate_name gate_type gate_inputs ;;
        process_gates rest gate_names (set_add string_dec gate_name variables)
                      (Dict.setitem expr_map gate_name expr)
  end.

(** [build_z3_expr(circuit, variables, z3_vars, prefix)]: the output map,
    with the updated [variables] and [z3_vars]. *)
Definition build_z3_expr (circuit : Circuit.t) (variables : set string)
    (z3_vars : Dict.t Z3.expr) (prefix : string)
  : result (Dict.t Z3.expr * set string * Dict.t Z3.expr) :=
  let expr_map := Dict.empty in
  let gate_names := empty_set string in
  '(variables, z3_vars, expr_map) <-
     bind_inputs (Circuit.inputs circuit) variables z3_vars expr_map ;;
  '(variables, expr_map) <-
     process_gates (Circuit.gates circuit) gate_names variables expr_map ;;
  output_expr <- map_outputs expr_map Dict.empty (Circuit.outputs circuit) ;;
  Ok (output_expr, variables, z3_vars).

(** A counterexample: the input assignment and the differing outputs
    [(out1, out2, val1, val2)]. *)
Definition counterexample : Type :=
  (Dict.t bool * list (string * string * bool * bool))%type.

(** What a call does: its return value [(is_equiv, model)] or the exception
    that leaves it, and the sessions on which [solver.check()] ran. *)
Record run : Type := {
  outcome : result (bool * option counterexample);
  queries : list (list Z3.expr)
}.

(** [diff_constraints]: one [outputs1[out1] != outputs2[out2]] per pair. *)
Definition diff_constraint (outputs1 outputs2 : Dict.t Z3.expr)
    (pair : string * string) : result Z3.expr :=
  let '(out1, out2) := pair in
  e1 <- Dict.getitem outputs1 out1 ;;
  e2 <- Dict.getitem outputs2 out2 ;;
  Ok (Z3.Distinct e1 e2).

(** The loop [for var in circuit1['inputs']] of the [sat] branch. *)
Fixpoint extract_inputs (model : Z3.model) (z3_vars : Dict.t Z3.expr)
    (inps : list string) (input_assignment : Dict.t bool) : result (Dict.t bool) :=
  match inps with
  | [] => Ok input_assignment
  | var :: rest =>
      if Dict.contains z3_vars var then
        v <- Dict.getitem z3_vars var ;;
        extract_inputs model z3_vars rest
          (Dict.setitem input_assignment var (Z3.evaluate model v))
      else extract_inputs model z3_vars rest input_assignment
  end.

(** The loop that fills [differing_outputs]. *)
Fixpoint extract_differences (model : Z3.model) (outputs1 outputs2 : Dict.t Z3.expr)
    (output_pairs : list (string * string))
  : result (list (string * string * bool * bool)) :=
  match output_pairs with
  | [] => Ok []
  | (out1, out2) :: rest =>
      e1 <- Dict.getitem outputs1 out1 ;;
      e2 <- Dict.getitem outputs2 out2 ;;
      let val1 := Z3.evaluate model e1 in
      let val2 := Z3.evaluate model e2 in
      differing_outputs <- extract_differences model outputs1 outputs2 rest ;;
      if negb (Bool.eqb val1 val2)
      then Ok ((out1, out2, val1, val2) :: differing_outputs)
      else Ok differing_outputs
  end.

Section WithSolver.
Variable solve : list Z3.expr -> Z3.check_result.

(** [check_circuit_equivalence(circuit1, circuit2)] *)
Definition check_circuit_equivalence (circuit1 circuit2 : Circuit.t) : run :=
  let variables := empty_set string in
  let z3_vars := Dict.empty in
  let prefix1 := "c1_" in
  let prefix2 := "c2_" in
  match ('(outputs1, variables, z3_vars) <-
            build_z3_expr circuit1 variables z3_vars prefix1 ;;
         '(outputs2, variables, z3_vars) <-
            build_z3_expr circuit2 variables z3_vars prefix2 ;;
         Ok (outputs1, outputs2, z3_vars)) with
  | Raise (ValueError e) => {| outcome := Raise (SystemExit 1); queries := [] |}
  | Raise e => {| outcome := Raise e; queries := [] |}
  | Ok (outputs1, outputs2, z3_vars) =>
      if negb (Dict.len outputs1 =? Dict.len outputs2)%nat then
        {| outcome := Ok (false, None); queries := [] |}
      else
        let output_pairs := combine (Dict.keys outputs1) (Dict.keys outputs2) in
        let solver := Z3.new_solver in
        match mapM (diff_constraint outputs1 outputs2) output_pairs with
        | Raise e => {| outcome := Raise e; queries := [] |}
        | Ok diff_constraints =>
            let solver := Z3.add solver (Z3.Or diff_constraints) in
            {| outcome :=
                 match solve (Z3.assertions solver) with
                 | Z3.sat model =>
                     input_assignment <-
                       extract_inputs model z3_vars (Circuit.inputs circuit1)
                                      Dict.empty ;;
                     differing_outputs <-
                       extract_differences model outputs1 outputs2 output_pairs ;;
                     Ok (false, Some (input_assignment, differing_outputs))
                 | _ => Ok (true, None)
                 end;
               queries := [Z3.assertions solver] |}
        end
  end.

End WithSolver.
End CircuitEquivalence.

(* ================================================================== *)
(** ** circuit-evaluator.py *)

Module CircuitEvaluator.

(** The loop [for inp in circuit['inputs']]. *)
Fixpoint bind_inputs (inps : list string) (z3_vars expr_map : Dict.t Z3.expr)
  : result (Dict.t Z3.expr * Dict.t Z3.expr) :=
  match inps with
  | [] => Ok (z3_vars, expr_map)
  | inp :: rest =>
      let z3_vars :=
        if negb (Dict.contains z3_vars inp)
        then Dict.setitem z3_vars inp (Z3.Bool inp) else z3_vars in
      v <- Dict.getitem z3_vars inp ;;
      bind_inputs rest z3_vars (Dict.setitem expr_map inp v)
  end.

(** The loop [for gate in circuit['gates']]: every gate gets a variable of
    its own and the constraint [gate_output == f(inputs)]. *)
Fixpoint process_gates (gs : list Gate.t) (gate_names : set string)
    (z3_vars expr_map : Dict.t Z3.expr) (constraints : list Z3.expr)
  : result (Dict.t Z3.expr * Dict.t Z3.expr * list Z3.expr) :=
  match gs with
  | [] => Ok (z3_vars, expr_map, constraints)
  | gate :: rest =>
      let gate_name := Gate.name gate in
      if set_mem string_dec gate_name gate_names then
        Raise (ValueError ("Duplicate gate name '" ++ gate_name ++ "' in circuit."))
      else
        let gate_names := set_add string_dec gate_name gate_names in
        let gate_type := upper (Gate.type gate) in
        let gate_inputs := Gate.inputs gate in
        _ <- check_defined expr_map gate_name gate_inputs ;;
        let z3_vars :=
          if negb (Dict.contains z3_vars gate_name)
          then Dict.setitem z3_vars gate_name (Z3.Bool gate_name) else z3_vars in
        gate_output <- Dict.getitem z3_vars gate_name ;;
        f <- gate_function expr_map gate_name gate_type gate_inputs ;;
        let constraint := Z3.Eq gate_output f in
        process_gates rest gate_names z3_vars
                      (Dict.setitem expr_map gate_name gate_output)
                      (constraints ++ [constraint])
  end.

(** [build_z3_expr(circuit, z3_vars)]: the output map and the constraints,
    with the updated [z3_vars]. *)
Definition build_z3_expr (circuit : Circuit.t) (z3_vars : Dict.t Z3.expr)
  : result (Dict.t Z3.expr * list Z3.expr * Dict.t Z3.expr) :=
  let expr_map := Dict.empty in
  let gate_names := empty_set string in
  let constraints := [] in
  '(z3_vars, expr_map) <- bind_inputs (Circuit.inputs circuit) z3_vars expr_map ;;
  '(z3_vars, expr_map, constraints) <-
     process_gates (Circuit.gates circuit) gate_names z3_vars expr_map constraints ;;
  output_expr <- map_outputs expr_map Dict.empty (Circuit.outputs circuit) ;;
  Ok (output_expr, constraints, z3_vars).

(** The second component of the returned pair: the output values or a
    message. *)
Inductive payload : Type :=
| Outputs (output_values : Dict.t bool)
| Message (msg : string).

Definition contradiction_message : string :=
  "Contradiction detected: The input or signal assignments lead to an unsatisfiable circuit.".

(** A loop with a [return] inside either hands the solver on or leaves the
    function with a value. *)
Inductive loop (A : Type) : Type :=
| Next (solver : Z3.Solver)
| Return (value : A).

Arguments Next {A} solver.
Arguments Return {A} value.

(** [for inp, val in input_assignments.items()] *)
Fixpoint apply_input_assignments (circuit : Circuit.t) (z3_vars : Dict.t Z3.expr)
    (items : list (string * bool)) (solver : Z3.Solver)
  : result (loop (bool * payload)) :=
  match items with
  | [] => Ok (Next solver)
  | (inp, val) :: rest =>
      if negb (contains (Circuit.inputs circuit) inp) then
        Ok (Return (false, Message ("Input '" ++ inp ++ "' is not defined in the circuit.")))
      else
        v <- Dict.getitem z3_vars inp ;;
        let constraint := if val then v else Z3.Not v in
        apply_input_assignments circuit z3_vars rest (Z3.add solver constraint)
  end.

(** [for sig, val in signal_assignments.items()] *)
Fixpoint apply_signal_assignments (z3_vars : Dict.t Z3.expr)
    (items : list (string * bool)) (solver : Z3.Solver)
  : result (loop (bool * payload)) :=
  match items with
  | [] => Ok (Next solver)
  | (sig, val) :: rest =>
      if negb (Dict.contains z3_vars sig) then
        Ok (Return (false, Message ("Signal '" ++ sig ++ "' is not defined in the circuit.")))
      else
        v <- Dict.getitem z3_vars sig ;;
        let constraint := if val then v else Z3.Not v in
        apply_signal_assignments z3_vars rest (Z3.add solver constraint)
  end.

(** [for out in circuit['outputs']] of the [sat] branch. *)
Fixpoint extract_outputs (model : Z3.model) (outputs : Dict.t Z3.expr)
    (outs : list string) (output_values : Dict.t bool) : result (Dict.t bool) :=
  match outs with
  | [] => Ok output_values
  | out :: rest =>
      e <- Dict.getitem outputs out ;;
      extract_outputs model outputs rest
        (Dict.setitem output_values out (Z3.evaluate model e))
  end.

(** The truth value of [signal_assignments] in [if signal_assignments:]. *)
Definition truthy (signal_assignments : option (Dict.t bool)) : bool :=
  match signal_assignments with
  | Some (_ :: _) => true
  | _ => false
  end.

Section WithSolver.
Variable solve : list Z3.expr -> Z3.check_result.

(** [validate_circuit(circuit, input_assignments, signal_assignments=None)] *)
Definition validate_circuit (circuit : Circuit.t) (input_assignments : Dict.t bool)
    (signal_assignments : option (Dict.t bool)) : result (bool * payload) :=
  let z3_vars := Dict.empty in
  match build_z3_expr circuit z3_vars with
  | Raise (ValueError e) => Ok (false, Message e)
  | Raise e => Raise e
  | Ok (outputs, constraints, z3_vars) =>
      let solver := fold_left Z3.add constraints Z3.new_solver in
      after_inputs <-
        apply_input_assignments circuit z3_vars (Dict.items input_assignments) solver ;;
      match after_inputs with
      | Return value => Ok value
      | Next solver =>
          after_signals <-
            (if truthy signal_assignments then
               apply_signal_assignments z3_vars
                 (match signal_assignments with
                  | Some d => Dict.items d
                  | None => []
                  end) solver
             else Ok (Next solver)) ;;
          match after_signals with
          | Return value => Ok value
          | Next solver =>
              match solve (Z3.assertions solver) with
              | Z3.sat model =>
                  output_values <-
                    extract_outputs model outputs (Circuit.outputs circuit)
                                    Dict.empty ;;
                  Ok (true, Outputs output_values)
              | _ => Ok (false, Message contradiction_message)
              end
          end
      end
  end.

End WithSolver.
End CircuitEvaluator.

(* ================================================================== *)
(** ** The circuits of the test suite and a few more *)

Module Examples.

Definition g (name type : string) (inputs : list string) : Gate.t :=
  Gate.make name type inputs.

(** test_duplicate_gate_names_in_same_circuit *)
Definition dup_circuit1 : Circuit.t :=
  Circuit.make ["A"; "B"]
    [g "C" "AND" ["A"; "B"]; g "C" "OR" ["A"; "B"]] ["C"].
Definition dup_circuit2 : Circuit.t :=
  Circuit.make ["A"; "B"] [g "D" "AND" ["A"; "B"]] ["D"].

(** test_equivalent_circuits *)
Definition distr1 : Circuit.t :=
  Circuit.make ["A"; "B"; "C"]
    [g "D" "AND" ["A"; "B"]; g "E" "OR" ["D"; "C"]] ["E"].
Definition distr2 : Circuit.t :=
  Circuit.make ["A"; "B"; "C"]
    [g "F" "OR" ["A"; "C"]; g "G" "OR" ["B"; "C"]; g "E" "AND" ["F"; "G"]] ["E"].

(** test_non_equivalent_circuits *)
Definition distr2_or : Circuit.t :=
  Circuit.make ["A"; "B"; "C"]
    [g "F" "OR" ["A"; "C"]; g "G" "OR" ["B"; "C"]; g "E" "OR" ["F"; "G"]] ["E"].

(** The second example of circuit-evaluator.py. *)
Definition contradictory_circuit : Circuit.t :=
  Circuit.make ["A"; "B"]
    [g "E1" "AND" ["A"; "B"]; g "E2" "NOT" ["A"]; g "E" "AND" ["E1"; "E2"]] ["E"].

(** test_different_number_of_outputs *)
Definition one_output : Circuit.t :=
  Circuit.make ["A"; "B"] [g "C" "AND" ["A"; "B"]] ["C"].
Definition two_outputs : Circuit.t :=
  Circuit.make ["A"; "B"]
    [g "C" "AND" ["A"; "B"]; g "D" "OR" ["A"; "B"]] ["C"; "D"].

(** test_no_gates *)
Definition wires : Circuit.t := Circuit.make ["A"; "B"] [] ["A"; "B"].

(** test_multiple_outputs_equivalent, test_multiple_outputs_non_equivalent *)
Definition multi1 : Circuit.t :=
  Circuit.make ["A"; "B"; "C"]
    [g "D" "AND" ["A"; "B"]; g "E" "OR" ["D"; "C"]; g "F" "OR" ["A"; "B"]]
    ["E"; "F"].
Definition multi2 : Circuit.t :=
  Circuit.make ["A"; "B"; "C"]
    [g "F" "OR" ["A"; "B"]; g "G" "OR" ["A"; "C"]; g "H" "OR" ["B"; "C"];
     g "E" "AND" ["G"; "H"]]
    ["E"; "F"].
Definition multi2_and : Circuit.t :=
  Circuit.make ["A"; "B"; "C"]
    [g "F" "AND" ["A"; "B"]; g "G" "OR" ["A"; "C"]; g "H" "OR" ["B"; "C"];
     g "E" "AND" ["G"; "H"]]
    ["E"; "F"].

(** test_undefined_gate_input, test_unsupported_gate_type,
    test_invalid_not_gate *)
Definition plain : Circuit.t :=
  Circuit.make ["A"; "B"]
    [g "C" "AND" ["A"; "B"]; g "D" "OR" ["C"; "A"]] ["D"].
Definition undefined_input : Circuit.t :=
  Circuit.make ["A"; "B"]
    [g "C" "AND" ["A"; "B"]; g "E" "OR" ["C"; "Z"]] ["E"].
Definition unsupported_type : Circuit.t :=
  Circuit.make ["A"; "B"]
    [g "C" "AND" ["A"; "B"]; g "E" "BUFF" ["C"]] ["E"].
Definition not1 : Circuit.t :=
  Circuit.make ["A"] [g "B" "NOT" ["A"]] ["B"].
Definition not2 : Circuit.t :=
  Circuit.make ["A"] [g "C" "NOT" ["A"; "B"]] ["C"].

(** test_large_equivalent_circuits, test_large_non_equivalent_circuits *)
Definition large1 : Circuit.t :=
  Circuit.make ["A"; "B"; "C"; "D"]
    [g "E" "AND" ["A"; "B"]; g "F" "OR" ["C"; "D"]; g "G" "NOT" ["E"];
     g "H" "AND" ["G"; "F"]]
    ["H"].
Definition large2 : Circuit.t :=
  Circuit.make ["A"; "B"; "C"; "D"]
    [g "E" "OR" ["C"; "D"]; g "F" "AND" ["A"; "B"]; g "G" "NOT" ["F"];
     g "H" "AND" ["G"; "E"]]
    ["H"].
Definition large1_or : Circuit.t :=
  Circuit.make ["A"; "B"; "C"; "D"]
    [g "E" "AND" ["A"; "B"]; g "F" "OR" ["C"; "D"]; g "G" "NOT" ["E"];
     g "H" "AND" ["G"; "F"]; g "I" "OR" ["H"; "A"]]
    ["I"].
Definition large2_and : Circuit.t :=
  Circuit.make ["A"; "B"; "C"; "D"]
    [g "E" "OR" ["C"; "D"]; g "F" "AND" ["A"; "B"]; g "G" "NOT" ["F"];
     g "H" "AND" ["G"; "E"]; g "I" "AND" ["H"; "A"]]
    ["I"].

(** The third example of circuit-evaluator.py. *)
Definition xor_circuit : Circuit.t :=
  Circuit.make ["A"; "B"; "C"]
    [g "XOR1" "XOR" ["A"; "B"]; g "NOT1" "NOT" ["C"]; g "F" "AND" ["XOR1"; "NOT1"]]
    ["F"].

(** The two entry points with the reference solver. *)
Definition check (circuit1 circuit2 : Circuit.t) : CircuitEquivalence.run :=
  CircuitEquivalence.check_circuit_equivalence Z3.search circuit1 circuit2.

Definition validate (circuit : Circuit.t) (input_assignments : Dict.t bool)
    (signal_assignments : option (Dict.t bool))
  : result (bool * CircuitEvaluator.payload) :=
  CircuitEvaluator.validate_circuit Z3.search circuit input_assignments
                                    signal_assignments.

(** What the tests assert of a call: [assertTrue(is_equiv)],
    [assertFalse(is_equiv)] with a counterexample that lists a differing
    output, and [assertRaises(SystemExit)] with a status other than 0. *)
Definition is_equiv (r : CircuitEquivalence.run) : Prop :=
  exists result, CircuitEquivalence.outcome r = Ok (true, result).

Definition not_equiv_with_differences (r : CircuitEquivalence.run) : Prop :=
  exists assignment diffs,
    CircuitEquivalence.outcome r = Ok (false, Some (assignment, diffs))
    /\ 0 < length diffs.

Definition exits (r : CircuitEquivalence.run) : Prop :=
  exists code, CircuitEquivalence.outcome r = Raise (SystemExit code) /\ code <> 0%Z.

(** Circuits that list an output name more than once. *)
Definition aab : Circuit.t := Circuit.make ["a"; "b"] [] ["a"; "a"; "b"].
Definition abb : Circuit.t := Circuit.make ["a"; "b"] [] ["a"; "b"; "b"].
Definition aa : Circuit.t := Circuit.make ["a"] [] ["a"; "a"].
Definition just_a : Circuit.t := Circuit.make ["a"] [] ["a"].
Definition cdd : Circuit.t :=
  Circuit.make ["a"] [g "c" "NOT" ["a"]; g "d" "NOT" ["a"]] ["c"; "d"; "d"].

(** A gate named like the primary input it reads. *)
Definition shadow : Circuit.t := Circuit.make ["A"] [g "A" "NOT" ["A"]] ["A"].

(** A second circuit with an input the first does not declare. *)
Definition a_and_b : Circuit.t :=
  Circuit.make ["a"; "b"] [g "x" "AND" ["a"; "b"]] ["x"].

(** Two wires whose names, ['a'] and ['a\0b'], have the same symbol. *)
Definition a_nul_b : string := String "a"%char (String Ascii.zero "b").
Definition nul_wires : Circuit.t :=
  Circuit.make ["a"; a_nul_b] [] ["a"; a_nul_b].

End Examples.

(* ================================================================== *)
(** ** Reference definitions

    The meaning of a circuit, stated without z3: the signals are computed
    gate by gate from an assignment to the inputs. *)

(** The names of a list in the order of their first occurrence. *)
Fixpoint distinct (xs : list string) : list string :=
  match xs with
  | [] => []
  | x :: rest => x :: filter (fun y => negb (String.eqb y x)) (distinct rest)
  end.

(** The boolean function of a gate type; AND=conjunction, OR=disjunction,
    NOT=negation of the sole input, NAND/NOR=negated AND/OR,
    XOR=exclusive-or of the two inputs, XNOR=negated XOR. *)
Definition gate_value (gate_type : string) (vals : list bool) : option bool :=
  if gate_type =? "AND" then Some (forallb id vals)
  else if gate_type =? "OR" then Some (existsb id vals)
  else if gate_type =? "NOT" then
    match vals with [a] => Some (negb a) | _ => None end
  else if gate_type =? "NAND" then Some (negb (forallb id vals))
  else if gate_type =? "NOR" then Some (negb (existsb id vals))
  else if gate_type =? "XOR" then
    match vals with [a; b] => Some (xorb a b) | _ => None end
  else if gate_type =? "XNOR" then
    match vals with [a; b] => Some (negb (xorb a b)) | _ => None end
  else None.

(** All values of a list of signals in an environment, if all are there. *)
Fixpoint read_all (env : Dict.t bool) (sigs : list string) : option (list bool) :=
  match sigs with
  | [] => Some []
  | s :: rest =>
      match Dict.get env s, read_all env rest with
      | Some b, Some bs => Some (b :: bs)
      | _, _ => None
      end
  end.

(** The gates in sequence order, each writing its signal. *)
Fixpoint simulate (gs : list Gate.t) (env : Dict.t bool) : option (Dict.t bool) :=
  match gs with
  | [] => Some env
  | gate :: rest =>
      match read_all env (Gate.inputs gate) with
      | Some vals =>
          match gate_value (upper (Gate.type gate)) vals with
          | Some b => simulate rest (Dict.setitem env (Gate.name gate) b)
          | None => None
          end
      | None => None
      end
  end.

(** The environment that holds the value of every primary input. *)
Definition input_values (v : string -> bool) (inps : list string) : Dict.t bool :=
  fold_left (fun env inp => Dict.setitem env inp (v inp)) inps Dict.empty.

(** The value of signal [out] of [circuit] when its inputs are driven by
    [v]. *)
Definition output_value (circuit : Circuit.t) (v : string -> bool) (out : string)
  : option bool :=
  match simulate (Circuit.gates circuit) (input_values v (Circuit.inputs circuit)) with
  | Some env => Dict.get env out
  | None => None
  end.

(** The checks compilation performs, without building any term: type and
    arity of a gate, *)
Definition supported (gate_type : string) (n : nat) : bool :=
  if gate_type =? "NOT" then (n =? 1)%nat
  else if (gate_type =? "XOR") || (gate_type =? "XNOR") then (n =? 2)%nat
  else (gate_type =? "AND") || (gate_type =? "OR")
       || (gate_type =? "NAND") || (gate_type =? "NOR").

(** gate by gate: the name is new among the gate names [seen], and the
    inputs are among the signals [defined] so far, *)
Fixpoint gates_accepted (defined seen : list string) (gs : list Gate.t) : bool :=
  match gs with
  | [] => true
  | gate :: rest =>
      negb (contains seen (Gate.name gate))
      && forallb (contains defined) (Gate.inputs gate)
      && supported (upper (Gate.type gate)) (length (Gate.inputs gate))
      && gates_accepted (Gate.name gate :: defined) (Gate.name gate :: seen) rest
  end.

(** and every output is a primary input or a gate. *)
Definition structurally_valid (circuit : Circuit.t) : bool :=
  gates_accepted (Circuit.inputs circuit) [] (Circuit.gates circuit)
  && forallb (contains (Circuit.inputs circuit
                        ++ map Gate.name (Circuit.gates circuit)))
             (Circuit.outputs circuit).

(** The invariants the data model asks of a circuit before compilation:
    those compilation checks, and also that no gate is named like a primary
    input, that every gate has at least one input, and that there is an
    output. *)
Definition well_formed (circuit : Circuit.t) : bool :=
  structurally_valid circuit
  && forallb (fun gate => negb (contains (Circuit.inputs circuit) (Gate.name gate)))
             (Circuit.gates circuit)
  && forallb (fun gate => (1 <=? length (Gate.inputs gate))%nat)
             (Circuit.gates circuit)
  && negb (length (Circuit.outputs circuit) =? 0)%nat.

(** A model is consistent with a gate when the gate's signal has the value
    the gate's function gives on its input signals, and with a circuit when
    it is consistent with every gate. *)
Definition consistent_gate (m : Z3.model) (gate : Gate.t) : bool :=
  match gate_value (upper (Gate.type gate)) (map m (Gate.inputs gate)) with
  | Some b => Bool.eqb (m (Gate.name gate)) b
  | None => false
  end.

Definition consistent (circuit : Circuit.t) (m : Z3.model) : bool :=
  forallb (consistent_gate m) (Circuit.gates circuit).

(** The constraint an assignment entry adds: the variable or its negation. *)
Definition literal (entry : string * bool) : Z3.expr :=
  let '(name, val) := entry in
  if val then Z3.Bool name else Z3.Not (Z3.Bool name).

(** A model agrees with an assignment when it gives every listed name its
    listed value. *)
Definition agrees (m : Z3.model) (assignment : Dict.t bool) : Prop :=
  forall k b, In (k, b) assignment -> m k = b.

(** The entries of an optional dictionary. *)
Definition entries (d : option (Dict.t bool)) : Dict.t bool :=
  match d with
  | Some a => a
  | None => []
  end.

(** Every entry of [z3_vars] is the variable of its key: [Bool(name)] is
    determined by [name]. *)
Definition by_name (z3_vars : Dict.t Z3.expr) : Prop :=
  forall k v, Dict.get z3_vars k = Some v -> v = Z3.Bool k.

(** The map from every input to its variable. *)
Definition input_map (inps : list string) (expr_map : Dict.t Z3.expr)
  : Dict.t Z3.expr :=
  fold_left (fun em inp => Dict.setitem em inp (Z3.Bool inp)) inps expr_map.

(** The value a computation returns, transformed. *)
Definition fmap {A B : Type} (f : A -> B) (r : result A) : result B :=
  match r with
  | Ok a => Ok (f a)
  | Raise e => Raise e
  end.

(** An environment holds the values of the terms of a map. *)
Definition values_of (m : Z3.model) (expr_map : Dict.t Z3.expr) (env : Dict.t bool)
  : Prop :=
  forall k, Dict.get env k = option_map (Z3.evaluate m) (Dict.get expr_map k).

(** The restriction of a model to a list of names. *)
Definition restrict (m : Z3.model) (xs : list string) : Dict.t bool :=
  map (fun x => (x, m x)) xs.

(** Whether a computation returned. *)
Definition is_ok {A : Type} (r : result A) : bool :=
  match r with
  | Ok _ => true
  | Raise _ => false
  end.

(** A computation reports a structural error when a [ValueError] leaves
    it. *)
Definition reports_structural_error {A : Type} (r : result A) : Prop :=
  exists msg, r = Raise (ValueError msg).

(** The output map of a circuit compiled on its own. *)
Definition compile (circuit : Circuit.t) : result (Dict.t Z3.expr) :=
  '(output_expr, _, _) <-
     CircuitEquivalence.build_z3_expr circuit (empty_set string) Dict.empty "" ;;
  Ok output_expr.

(** The two verdicts of the equivalence check. *)
Definition Equivalent (r : result (bool * option CircuitEquivalence.counterexample))
  : Prop :=
  r = Ok (true, None).

Definition NotEquivalent (r : result (bool * option CircuitEquivalence.counterexample))
  : Prop :=
  exists model, r = Ok (false, model).

(** The pair [(out1, out2)] of compiled outputs has the different values
    [val1] and [val2] under the model. *)
Definition differs_under (m : Z3.model) (outputs1 outputs2 : Dict.t Z3.expr)
    (out1 out2 : string) (val1 val2 : bool) : Prop :=
  exists e1 e2,
    Dict.get outputs1 out1 = Some e1 /\ Dict.get outputs2 out2 = Some e2
    /\ val1 = Z3.evaluate m e1 /\ val2 = Z3.evaluate m e2 /\ val1 <> val2.

(** The constraint of the pair [(out1, out2)]: the two compiled outputs
    differ. *)
Definition constraint_of (outputs1 outputs2 : Dict.t Z3.expr)
    (pair : string * string) (c : Z3.expr) : Prop :=
  exists e1 e2,
    Dict.get outputs1 (fst pair) = Some e1 /\ Dict.get outputs2 (snd pair) = Some e2
    /\ c = Z3.Distinct e1 e2.

(** Every pair of a pairing has equal values under [v]. *)
Definition agree_on (A B : Circuit.t) (pairs : list (string * string))
    (v : string -> bool) : Prop :=
  forall out1 out2, In (out1, out2) pairs ->
                    output_value A v out1 = output_value B v out2.

(** Some pair of a pairing has different values under [v]. *)
Definition differ_on (A B : Circuit.t) (pairs : list (string * string))
    (v : string -> bool) : Prop :=
  exists out1 out2, In (out1, out2) pairs
                    /\ output_value A v out1 <> output_value B v out2.

(* ================================================================== *)
(** ** Definitions for the further properties *)

(** The circuit with every gate type written in upper case. *)
Definition uppercase_types (circuit : Circuit.t) : Circuit.t :=
  Circuit.make (Circuit.inputs circuit)
    (map (fun gate =>
            Gate.make (Gate.name gate) (upper (Gate.type gate)) (Gate.inputs gate))
         (Circuit.gates circuit))
    (Circuit.outputs circuit).

(** A solver that gives up on every query. *)
Definition no_answer (fs : list Z3.expr) : Z3.check_result := Z3.unknown.

(** The output map a call of [build_z3_expr] returns, without the state. *)
Definition output_map (r : result (Dict.t Z3.expr * set string * Dict.t Z3.expr))
  : result (Dict.t Z3.expr) :=
  fmap (fun x => fst (fst x)) r.

(** The signals of a circuit: its primary inputs and its gates. *)
Definition namespace (circuit : Circuit.t) : list string :=
  Circuit.inputs circuit ++ map Gate.name (Circuit.gates circuit).

(** No gate is named like a primary input. *)
Definition gates_apart_from_inputs (circuit : Circuit.t) : bool :=
  forallb (fun gate => negb (contains (Circuit.inputs circuit) (Gate.name gate)))
          (Circuit.gates circuit).

(** All signals of a circuit driven by [v], gate by gate. *)
Definition signal_values (circuit : Circuit.t) (v : string -> bool)
  : option (Dict.t bool) :=
  simulate (Circuit.gates circuit) (input_values v (Circuit.inputs circuit)).

(** The model that reads a name in an environment and, where the
    environment has no entry, in [v]. *)
Definition completion (env : Dict.t bool) (v : string -> bool) : Z3.model :=
  fun k => match Dict.get env k with Some b => b | None => v k end.

(** The messages of the two assignment checks of [validate_circuit]. *)
Definition undefined_input_message (inp : string) : string :=
  "Input '" ++ inp ++ "' is not defined in the circuit.".

Definition undefined_signal_message (sig : string) : string :=
  "Signal '" ++ sig ++ "' is not defined in the circuit.".

(** Every term of a map is built from the variables [xs] only. *)
Definition names_among (xs : list string) (expr_map : Dict.t Z3.expr) : Prop :=
  forall k e x, Dict.get expr_map k = Some e -> In x (Z3.names e) -> In x xs.

(** test_non_equivalent_circuits with the gate types spelled in other
    cases. *)
Definition distr2_or_mixed : Circuit.t :=
  Circuit.make ["A"; "B"; "C"]
    [Gate.make "F" "or" ["A"; "C"]; Gate.make "G" "Or" ["B"; "C"];
     Gate.make "E" "oR" ["F"; "G"]] ["E"].

(** The vocabulary of gate types. *)
Definition gate_types : list string :=
  ["AND"; "OR"; "NOT"; "NAND"; "NOR"; "XOR"; "XNOR"].

(** The messages of the structural errors. *)
Definition duplicate_gate_message (gate_name : string) : string :=
  "Duplicate gate name '" ++ gate_name ++ "' in circuit.".

Definition undefined_gate_input_message (sig gate_name : string) : string :=
  "Signal '" ++ sig ++ "' used in gate '" ++ gate_name ++ "' is not defined.".

Definition unsupported_gate_type_message (gate_type : string) : string :=
  "Unsupported gate type: " ++ gate_type.

Definition undefined_output_message (out : string) : string :=
  "Output signal '" ++ out ++ "' is not defined in the circuit.".

(** Circuits with one defect each, and one with two. *)
Definition late_duplicate : Circuit.t :=
  Circuit.make ["A"; "B"]
    [Gate.make "C" "AND" ["A"; "B"]; Gate.make "D" "OR" ["C"; "A"];
     Gate.make "C" "BUFF" ["Z"]] ["D"].

Definition buff_of_undefined : Circuit.t :=
  Circuit.make ["A"; "B"]
    [Gate.make "C" "AND" ["A"; "B"]; Gate.make "E" "BUFF" ["C"; "Z"; "Y"]] ["Q"].

Definition undefined_output : Circuit.t :=
  Circuit.make ["A"; "B"] [Gate.make "C" "AND" ["A"; "B"]] ["C"; "Q"; "R"].

(** Circuits without outputs. *)
Definition silent1 : Circuit.t :=
  Circuit.make ["A"] [Gate.make "B" "NOT" ["A"]] [].
Definition silent2 : Circuit.t :=
  Circuit.make ["A"; "C"] [Gate.make "B" "AND" ["A"; "C"]] [].

(** The message of the arity check of the gate types that have one. *)
Definition arity_message (gate_type gate_name : string) : string :=
  gate_type ++ " gate '" ++ gate_name ++ "' must have exactly "
  ++ (if gate_type =? "NOT" then "one input." else "two inputs.").

(** A third circuit computing [(A AND B) OR C], from NAND and NOT. *)
Definition distr3 : Circuit.t :=
  Circuit.make ["A"; "B"; "C"]
    [Gate.make "N" "NAND" ["A"; "B"]; Gate.make "M" "NOT" ["C"];
     Gate.make "E" "NAND" ["N"; "M"]] ["E"].

(* ================================================================== *)
(** * Properties *)

(** ** Lists of names, sets and dictionaries *)

Lemma contains_In (xs : list string) (x : string) :
  contains xs x = true <-> In x xs.
Proof.
  unfold contains. rewrite existsb_exists. split.
  - intros (y & Hy & E). apply String.eqb_eq in E. now subst.
  - intros H. exists x. split; [assumption | apply String.eqb_refl].
Qed.

Lemma contains_false (xs : list string) (x : string) :
  contains xs x = false <-> ~ In x xs.
Proof.
  rewrite <- contains_In. destruct (contains xs x); split; congruence.
Qed.

Lemma contains_cons (xs : list string) (a x : string) :
  contains (a :: xs) x = (x =? a) || contains xs x.
Proof. reflexivity. Qed.

Lemma contains_app (xs ys : list string) (x : string) :
  contains (xs ++ ys) x = contains xs x || contains ys x.
Proof. unfold contains. apply existsb_app. Qed.

Lemma set_mem_contains (s : set string) (x : string) :
  set_mem string_dec x s = contains s x.
Proof.
  induction s as [|a s IH]; [reflexivity|].
  rewrite contains_cons. simpl. destruct (string_dec x a) as [->|N].
  - now rewrite String.eqb_refl.
  - apply String.eqb_neq in N. now rewrite N.
Qed.

Lemma contains_set_add (s : set string) (a x : string) :
  contains (set_add string_dec a s) x = (x =? a) || contains s x.
Proof.
  apply Bool.eq_true_iff_eq.
  rewrite Bool.orb_true_iff, !contains_In, String.eqb_eq.
  split.
  - intros H. apply set_add_elim in H. tauto.
  - intros [->|H]; [now apply set_add_intro2 | now apply set_add_intro1].
Qed.

Section DictFacts.
Context {V : Type}.
Implicit Types (d : Dict.t V) (k : string) (v : V).

Lemma get_setitem d k v k' :
  Dict.get (Dict.setitem d k v) k' = if k' =? k then Some v else Dict.get d k'.
Proof.
  induction d as [|[k0 v0] d IH]; simpl.
  - reflexivity.
  - destruct (k =? k0) eqn:E; simpl.
    + apply String.eqb_eq in E. subst k0. now destruct (k' =? k).
    + destruct (k' =? k0) eqn:E2.
      * apply String.eqb_eq in E2. subst k0.
        rewrite String.eqb_sym in E. now rewrite E.
      * exact IH.
Qed.

Lemma contains_setitem d k v k' :
  Dict.contains (Dict.setitem d k v) k' = (k' =? k) || Dict.contains d k'.
Proof.
  unfold Dict.contains. rewrite get_setitem. now destruct (k' =? k).
Qed.

Lemma contains_keys d k : Dict.contains d k = contains (Dict.keys d) k.
Proof.
  unfold Dict.contains, contains, Dict.keys.
  induction d as [|[k0 v0] d IH]; simpl; [reflexivity|].
  destruct (k =? k0); simpl; [reflexivity | exact IH].
Qed.

Lemma keys_setitem d k v :
  Dict.keys (Dict.setitem d k v)
  = if Dict.contains d k then Dict.keys d else Dict.keys d ++ [k].
Proof.
  unfold Dict.contains.
  induction d as [|[k0 v0] d IH]; simpl; [reflexivity|].
  destruct (k =? k0) eqn:E; simpl; [reflexivity|].
  fold (Dict.keys (Dict.setitem d k v)). rewrite IH.
  now destruct (Dict.get d k).
Qed.

Lemma getitem_contains d k :
  Dict.contains d k = true -> exists v, Dict.get d k = Some v /\ Dict.getitem d k = Ok v.
Proof.
  unfold Dict.contains, Dict.getitem.
  destruct (Dict.get d k) as [v|]; [|discriminate].
  intros _. now exists v.
Qed.

Lemma get_In d k v : Dict.get d k = Some v -> In (k, v) d.
Proof.
  induction d as [|[k0 v0] d IH]; simpl; [discriminate|].
  destruct (k =? k0) eqn:E.
  - apply String.eqb_eq in E. intros [= ->]. left. now subst.
  - intros H. right. now apply IH.
Qed.

Lemma In_get d k v : Dict.wf d -> In (k, v) d -> Dict.get d k = Some v.
Proof.
  unfold Dict.wf, Dict.keys.
  induction d as [|[k0 v0] d IH]; simpl; [contradiction|].
  intros Hnd [E|H].
  - injection E as -> ->. now rewrite String.eqb_refl.
  - inversion Hnd as [|? ? Hnot Hnd']; subst.
    destruct (k =? k0) eqn:E.
    + apply String.eqb_eq in E. subst k0. exfalso. apply Hnot.
      change k with (fst (k, v)). now apply in_map.
    + now apply IH.
Qed.

End DictFacts.

(** ** Terms, models and the reference solver *)

Lemma expr_induction (P : Z3.expr -> Prop) :
  (forall x, P (Z3.Bool x)) ->
  (forall args, Forall P args -> P (Z3.And args)) ->
  (forall args, Forall P args -> P (Z3.Or args)) ->
  (forall a, P a -> P (Z3.Not a)) ->
  (forall a b, P a -> P b -> P (Z3.Xor a b)) ->
  (forall a b, P a -> P b -> P (Z3.Eq a b)) ->
  (forall a b, P a -> P b -> P (Z3.Distinct a b)) ->
  forall e, P e.
Proof.
  intros HB HA HO HN HX HE HD.
  fix IH 1. intros [x|args|args|a|a b|a b|a b].
  - apply HB.
  - apply HA. induction args as [|e args IHargs]; constructor; [apply IH | exact IHargs].
  - apply HO. induction args as [|e args IHargs]; constructor; [apply IH | exact IHargs].
  - apply HN, IH.
  - apply HX; apply IH.
  - apply HE; apply IH.
  - apply HD; apply IH.
Qed.

(** The value of a term depends on the model only through the names that
    occur in the term. *)
Lemma evaluate_ext (m1 m2 : Z3.model) (e : Z3.expr) :
  (forall x, In x (Z3.names e) -> m1 x = m2 x) ->
  Z3.evaluate m1 e = Z3.evaluate m2 e.
Proof.
  induction e as [x|args IH|args IH|a IH|a b IHa IHb|a b IHa IHb|a b IHa IHb]
    using expr_induction; simpl; intros H.
  - apply H. now left.
  - induction IH as [|e args He _ IHargs]; simpl; [reflexivity|].
    simpl in H. rewrite He, IHargs; [reflexivity | |];
      intros x Hx; apply H, in_or_app; tauto.
  - induction IH as [|e args He _ IHargs]; simpl; [reflexivity|].
    simpl in H. rewrite He, IHargs; [reflexivity | |];
      intros x Hx; apply H, in_or_app; tauto.
  - now rewrite IH.
  - rewrite IHa, IHb; [reflexivity | |]; intros x Hx; apply H, in_or_app; tauto.
  - rewrite IHa, IHb; [reflexivity | |]; intros x Hx; apply H, in_or_app; tauto.
  - rewrite IHa, IHb; [reflexivity | |]; intros x Hx; apply H, in_or_app; tauto.
Qed.

Lemma satisfies_ext (m1 m2 : Z3.model) (fs : list Z3.expr) :
  (forall x, In x (flat_map Z3.names fs) -> m1 x = m2 x) ->
  Z3.satisfies m1 fs = Z3.satisfies m2 fs.
Proof.
  unfold Z3.satisfies. induction fs as [|f fs IH]; simpl; intros H; [reflexivity|].
  rewrite (evaluate_ext m1 m2 f), IH; [reflexivity | |];
    intros x Hx; apply H, in_or_app; tauto.
Qed.

(** The restriction of a model to a list of names is one of the
    assignments the search enumerates. *)
Lemma restrict_enumerated (m : Z3.model) (xs : list string) :
  In (restrict m xs) (Z3.assignments xs).
Proof.
  induction xs as [|x xs IH]; simpl; [now left|].
  apply in_or_app. destruct (m x) eqn:E; [right | left];
    apply in_map_iff; exists (restrict m xs); now split.
Qed.

Lemma model_of_restrict (m : Z3.model) (xs : list string) (x : string) :
  In x xs -> Z3.model_of (restrict m xs) x = m x.
Proof.
  unfold Z3.model_of. induction xs as [|y xs IH]; simpl; [contradiction|].
  intros H. destruct (x =? y) eqn:E.
  - apply String.eqb_eq in E. now subst.
  - apply String.eqb_neq in E. destruct H as [->|H]; [congruence | now apply IH].
Qed.

(** The symbol of a name is its own symbol, and a name without a NUL
    character is its own symbol. *)
Lemma symbol_idempotent (x : string) : Z3.symbol (Z3.symbol x) = Z3.symbol x.
Proof.
  induction x as [|c x IH]; [reflexivity|].
  simpl. destruct (Ascii.eqb c Ascii.zero) eqn:E; [reflexivity|].
  simpl. now rewrite E, IH.
Qed.

Lemma symbol_nul_free (x : string) : Z3.nul_free x = true -> Z3.symbol x = x.
Proof.
  induction x as [|c x IH]; [reflexivity|].
  simpl. destruct (Ascii.eqb c Ascii.zero); [discriminate|].
  simpl. intros H. now rewrite IH.
Qed.

(** Reading every name through its symbol gives a valuation of z3's
    variables, which is the model itself on the names without a NUL
    character. *)
Lemma respects_through_symbol (m : Z3.model) :
  Z3.respects (fun x => m (Z3.symbol x)).
Proof. intros x y E. now rewrite E. Qed.

Lemma search_sound : Z3.sound Z3.search.
Proof.
  split.
  - intros fs m. unfold Z3.search.
    destruct (find _ _) as [a|] eqn:F; [|discriminate].
    intros [= <-]. now apply find_some in F.
  - intros fs m. unfold Z3.search.
    destruct (find _ _) as [a|]; [|discriminate].
    intros [= <-]. apply respects_through_symbol.
  - intros fs. unfold Z3.search.
    destruct (find _ _) as [a|] eqn:F; [discriminate|].
    intros _ m Hm.
    set (xs := nodup string_dec (map Z3.symbol (flat_map Z3.names fs))) in *.
    rewrite <- (find_none _ _ F (restrict m xs) (restrict_enumerated m xs)).
    apply satisfies_ext. intros x Hx. unfold Z3.valuation.
    rewrite model_of_restrict by (apply nodup_In, in_map, Hx).
    apply Hm. symmetry. apply symbol_idempotent.
Qed.

Lemma search_decides : Z3.decides Z3.search.
Proof.
  intros fs. unfold Z3.search. now destruct (find _ _).
Qed.

(** ** One gate *)

Lemma forallb_id_map {A : Type} (f : A -> bool) (xs : list A) :
  forallb id (map f xs) = forallb f xs.
Proof. induction xs as [|x xs IH]; simpl; [reflexivity | now rewrite IH]. Qed.

Lemma existsb_id_map {A : Type} (f : A -> bool) (xs : list A) :
  existsb id (map f xs) = existsb f xs.
Proof. induction xs as [|x xs IH]; simpl; [reflexivity | now rewrite IH]. Qed.

(** The terms of a list of signals that are all in the map. *)
Lemma mapM_getitem (expr_map : Dict.t Z3.expr) (sigs : list string) :
  forallb (Dict.contains expr_map) sigs = true ->
  exists es, mapM (Dict.getitem expr_map) sigs = Ok es
             /\ Forall2 (fun s e => Dict.get expr_map s = Some e) sigs es.
Proof.
  induction sigs as [|s sigs IH]; simpl.
  - intros _. exists []. split; [reflexivity | constructor].
  - intros H. apply andb_prop in H as [Hs Hrest].
    destruct (getitem_contains _ _ Hs) as (e & Hg & ->).
    destruct (IH Hrest) as (es & -> & F). simpl.
    exists (e :: es). split; [reflexivity | now constructor].
Qed.

Lemma check_defined_spec (expr_map : Dict.t Z3.expr) (gate_name : string)
    (gate_inputs : list string) :
  match check_defined expr_map gate_name gate_inputs with
  | Ok _ => forallb (Dict.contains expr_map) gate_inputs = true
  | Raise (ValueError _) => forallb (Dict.contains expr_map) gate_inputs = false
  | Raise _ => False
  end.
Proof.
  induction gate_inputs as [|s rest IH]; simpl; [reflexivity|].
  destruct (Dict.contains expr_map s); simpl; [exact IH | reflexivity].
Qed.

Lemma gate_function_spec (expr_map : Dict.t Z3.expr) (gate_name gate_type : string)
    (gate_inputs : list string) :
  forallb (Dict.contains expr_map) gate_inputs = true ->
  match gate_function expr_map gate_name gate_type gate_inputs with
  | Ok e =>
      supported gate_type (length gate_inputs) = true
      /\ exists es,
           Forall2 (fun s a => Dict.get expr_map s = Some a) gate_inputs es
           /\ forall m, gate_value gate_type (map (Z3.evaluate m) es)
                        = Some (Z3.evaluate m e)
  | Raise (ValueError _) => supported gate_type (length gate_inputs) = false
  | Raise _ => False
  end.
Proof.
  intros H. destruct (mapM_getitem _ _ H) as (es & HM & F).
  unfold gate_function, supported, gate_value.
  destruct (gate_type =? "AND") eqn:E1.
  { apply String.eqb_eq in E1. subst. rewrite HM. simpl.
    split; [reflexivity|]. exists es. split; [exact F|].
    intros m. now rewrite forallb_id_map. }
  destruct (gate_type =? "OR") eqn:E2.
  { apply String.eqb_eq in E2. subst. rewrite HM. simpl.
    split; [reflexivity|]. exists es. split; [exact F|].
    intros m. now rewrite existsb_id_map. }
  destruct (gate_type =? "NOT") eqn:E3.
  { apply String.eqb_eq in E3. subst.
    destruct gate_inputs as [|s [|s' rest]]; simpl; try reflexivity.
    inversion F as [|? a ? es' Hs F']; subst. inversion F'; subst.
    unfold Dict.getitem. rewrite Hs. simpl.
    split; [reflexivity|]. exists [a]. split; [exact F|]. reflexivity. }
  destruct (gate_type =? "NAND") eqn:E4.
  { apply String.eqb_eq in E4. subst. rewrite HM. simpl.
    split; [reflexivity|]. exists es. split; [exact F|].
    intros m. now rewrite forallb_id_map. }
  destruct (gate_type =? "NOR") eqn:E5.
  { apply String.eqb_eq in E5. subst. rewrite HM. simpl.
    split; [reflexivity|]. exists es. split; [exact F|].
    intros m. now rewrite existsb_id_map. }
  destruct (gate_type =? "XOR") eqn:E6.
  { apply String.eqb_eq in E6. subst.
    destruct gate_inputs as [|s [|s' [|s'' rest]]]; simpl; try reflexivity.
    inversion F as [|? a ? es' Hs F']; subst.
    inversion F' as [|? b ? es'' Hs' F'']; subst. inversion F''; subst.
    unfold Dict.getitem. rewrite Hs, Hs'. simpl.
    split; [reflexivity|]. exists [a; b]. split; [exact F|]. reflexivity. }
  destruct (gate_type =? "XNOR") eqn:E7.
  { apply String.eqb_eq in E7. subst.
    destruct gate_inputs as [|s [|s' [|s'' rest]]]; simpl; try reflexivity.
    inversion F as [|? a ? es' Hs F']; subst.
    inversion F' as [|? b ? es'' Hs' F'']; subst. inversion F''; subst.
    unfold Dict.getitem. rewrite Hs, Hs'. simpl.
    split; [reflexivity|]. exists [a; b]. split; [exact F|]. reflexivity. }
  reflexivity.
Qed.

(** ** Inlined compilation *)

Lemma by_name_empty : by_name Dict.empty.
Proof. intros k v. discriminate. Qed.

Lemma by_name_declare (z3_vars : Dict.t Z3.expr) (x : string) :
  by_name z3_vars ->
  let z3_vars' :=
    if negb (Dict.contains z3_vars x)
    then Dict.setitem z3_vars x (Z3.Bool x) else z3_vars in
  by_name z3_vars'
  /\ Dict.getitem z3_vars' x = Ok (Z3.Bool x)
  /\ forall k, Dict.contains z3_vars' k = (k =? x) || Dict.contains z3_vars k.
Proof.
  intros Hz. simpl. destruct (Dict.contains z3_vars x) eqn:C; simpl.
  - split; [exact Hz|]. split.
    + destruct (getitem_contains _ _ C) as (v & Hg & ->).
      now rewrite (Hz _ _ Hg).
    + intros k. destruct (k =? x) eqn:E; [|reflexivity].
      apply String.eqb_eq in E. now subst.
  - split; [|split].
    + intros k v. rewrite get_setitem. destruct (k =? x) eqn:E.
      * apply String.eqb_eq in E. subst. now intros [= <-].
      * apply Hz.
    + unfold Dict.getitem. now rewrite get_setitem, String.eqb_refl.
    + intros k. apply contains_setitem.
Qed.

Lemma bind_inputs_spec (inps : list string) (variables : set string)
    (z3_vars expr_map : Dict.t Z3.expr) :
  by_name z3_vars ->
  exists variables' z3_vars',
    CircuitEquivalence.bind_inputs inps variables z3_vars expr_map
    = Ok (variables', z3_vars', input_map inps expr_map)
    /\ by_name z3_vars'
    /\ forall k, Dict.contains z3_vars' k = contains inps k || Dict.contains z3_vars k.
Proof.
  revert variables z3_vars expr_map.
  induction inps as [|inp rest IH]; intros variables z3_vars expr_map Hz.
  - exists variables, z3_vars. now repeat split.
  - destruct (by_name_declare z3_vars inp Hz) as (Hz' & Hg & Hc).
    cbn [CircuitEquivalence.bind_inputs]. cbv zeta. rewrite Hg. cbn [bind].
    destruct (IH (set_add string_dec inp variables) _
                 (Dict.setitem expr_map inp (Z3.Bool inp)) Hz')
      as (variables' & z3_vars' & -> & Hz'' & Hc').
    exists variables', z3_vars'. split; [reflexivity|]. split; [exact Hz''|].
    intros k. rewrite Hc', Hc, contains_cons.
    now destruct (k =? inp), (contains rest k).
Qed.

Lemma contains_input_map (inps : list string) (expr_map : Dict.t Z3.expr) (k : string) :
  Dict.contains (input_map inps expr_map) k
  = contains inps k || Dict.contains expr_map k.
Proof.
  unfold input_map. revert expr_map.
  induction inps as [|inp rest IH]; intros expr_map; [reflexivity|].
  simpl. rewrite IH, contains_setitem, contains_cons.
  now destruct (k =? inp), (contains rest k).
Qed.

Lemma values_of_setitem (m : Z3.model) (expr_map : Dict.t Z3.expr)
    (env : Dict.t bool) (k : string) (e : Z3.expr) :
  values_of m expr_map env ->
  values_of m (Dict.setitem expr_map k e) (Dict.setitem env k (Z3.evaluate m e)).
Proof.
  intros H k'. rewrite !get_setitem. destruct (k' =? k); [reflexivity | apply H].
Qed.

Lemma values_of_inputs (m : Z3.model) (inps : list string) :
  values_of m (input_map inps Dict.empty) (input_values m inps).
Proof.
  unfold input_map, input_values.
  assert (G : forall (expr_map : Dict.t Z3.expr) (env : Dict.t bool),
             values_of m expr_map env ->
             values_of m
               (fold_left (fun em inp => Dict.setitem em inp (Z3.Bool inp)) inps expr_map)
               (fold_left (fun env inp => Dict.setitem env inp (m inp)) inps env)).
  { induction inps as [|inp rest IH]; intros expr_map env H; [exact H|].
    simpl. apply IH. now apply (values_of_setitem m expr_map env inp (Z3.Bool inp)). }
  apply G. intros k. reflexivity.
Qed.

Lemma forallb_eq {A : Type} (f g : A -> bool) (xs : list A) :
  (forall x, f x = g x) -> forallb f xs = forallb g xs.
Proof.
  intros H. induction xs as [|x xs IH]; simpl; [reflexivity | now rewrite H, IH].
Qed.

Lemma process_gates_spec (gs : list Gate.t) :
  forall (gate_names variables : set string) (expr_map : Dict.t Z3.expr)
         (defined seen : list string),
    (forall k, Dict.contains expr_map k = contains defined k) ->
    (forall k, contains gate_names k = contains seen k) ->
    match CircuitEquivalence.process_gates gs gate_names variables expr_map with
    | Ok (_, expr_map') =>
        gates_accepted defined seen gs = true
        /\ forall k, Dict.contains expr_map' k
                     = contains (map Gate.name gs) k || contains defined k
    | Raise (ValueError _) => gates_accepted defined seen gs = false
    | Raise _ => False
    end.
Proof.
  induction gs as [|gate rest IH];
    intros gate_names variables expr_map defined seen Hd Hs.
  - simpl. split; [reflexivity | exact Hd].
  - cbn [CircuitEquivalence.process_gates gates_accepted]. cbv zeta.
    rewrite set_mem_contains, Hs.
    destruct (contains seen (Gate.name gate)); [reflexivity|].
    rewrite <- (forallb_eq _ _ (Gate.inputs gate) Hd).
    pose proof (check_defined_spec expr_map (Gate.name gate) (Gate.inputs gate)) as HC.
    destruct (check_defined _ _ _) as [[]|[]]; try contradiction;
      [|now rewrite HC]. rewrite HC. cbn [bind].
    pose proof (gate_function_spec expr_map (Gate.name gate)
                  (upper (Gate.type gate)) (Gate.inputs gate) HC) as HF.
    destruct (gate_function _ _ _ _) as [e|[]]; try contradiction;
      [|now rewrite HF]. destruct HF as (-> & _). cbn [bind negb andb].
    assert (Hd' : forall k,
               Dict.contains (Dict.setitem expr_map (Gate.name gate) e) k
               = contains (Gate.name gate :: defined) k).
    { intros k. now rewrite contains_setitem, contains_cons, Hd. }
    assert (Hs' : forall k,
               contains (set_add string_dec (Gate.name gate) gate_names) k
               = contains (Gate.name gate :: seen) k).
    { intros k. now rewrite contains_set_add, contains_cons, Hs. }
    specialize (IH _ (set_add string_dec (Gate.name gate) variables) _ _ _ Hd' Hs').
    destruct (CircuitEquivalence.process_gates rest _ _ _) as [[v em]|[]];
      try exact IH.
    destruct IH as (-> & Hk). split; [reflexivity|].
    intros k. cbn [map]. rewrite Hk, !contains_cons.
    now destruct (k =? Gate.name gate), (contains (map Gate.name rest) k).
Qed.

(** The set [variables] is only collected: the compiled map does not
    depend on it. *)
Lemma process_gates_variables (gs : list Gate.t) :
  forall (gate_names v1 v2 : set string) (expr_map : Dict.t Z3.expr),
    fmap snd (CircuitEquivalence.process_gates gs gate_names v1 expr_map)
    = fmap snd (CircuitEquivalence.process_gates gs gate_names v2 expr_map).
Proof.
  induction gs as [|gate rest IH]; intros gate_names v1 v2 expr_map;
    [reflexivity|].
  cbn [CircuitEquivalence.process_gates]. cbv zeta.
  destruct (set_mem _ _ _); [reflexivity|].
  destruct (check_defined _ _ _); [|reflexivity]. cbn [bind].
  destruct (gate_function _ _ _ _); [|reflexivity]. cbn [bind].
  apply IH.
Qed.

Lemma read_all_values (m : Z3.model) (expr_map : Dict.t Z3.expr) (env : Dict.t bool)
    (sigs : list string) (es : list Z3.expr) :
  values_of m expr_map env ->
  Forall2 (fun s a => Dict.get expr_map s = Some a) sigs es ->
  read_all env sigs = Some (map (Z3.evaluate m) es).
Proof.
  intros Hv F. induction F as [|s a sigs es Hs _ IH]; simpl; [reflexivity|].
  now rewrite (Hv s), Hs, IH.
Qed.

(** The terms of the compiled map evaluate to the simulated signals. *)
Lemma process_gates_values (m : Z3.model) (gs : list Gate.t) :
  forall (gate_names variables variables' : set string)
         (expr_map expr_map' : Dict.t Z3.expr) (env : Dict.t bool),
    CircuitEquivalence.process_gates gs gate_names variables expr_map
    = Ok (variables', expr_map') ->
    values_of m expr_map env ->
    exists env', simulate gs env = Some env' /\ values_of m expr_map' env'.
Proof.
  induction gs as [|gate rest IH];
    intros gate_names variables variables' expr_map expr_map' env.
  - simpl. intros [= _ <-] Hv. now exists env.
  - cbn [CircuitEquivalence.process_gates simulate]. cbv zeta.
    destruct (set_mem _ _ _); [discriminate|].
    pose proof (check_defined_spec expr_map (Gate.name gate) (Gate.inputs gate)) as HC.
    destruct (check_defined _ _ _) as [[]|]; [|discriminate]. cbn [bind].
    pose proof (gate_function_spec expr_map (Gate.name gate)
                  (upper (Gate.type gate)) (Gate.inputs gate) HC) as HF.
    destruct (gate_function _ _ _ _) as [e|]; [|discriminate]. cbn [bind].
    destruct HF as (_ & es & F & Hval). intros HP Hv.
    rewrite (read_all_values m expr_map env _ es Hv F), Hval.
    apply (IH _ _ _ _ _ _ HP). now apply values_of_setitem.
Qed.

(** ** The output map *)

Lemma filter_filter_and {A : Type} (f g h : A -> bool) (xs : list A) :
  (forall x, h x = f x && g x) -> filter h xs = filter f (filter g xs).
Proof.
  intros H. induction xs as [|x xs IH]; simpl; [reflexivity|].
  rewrite H. destruct (g x); simpl.
  - destruct (f x); now rewrite IH.
  - now rewrite Bool.andb_false_r.
Qed.

Lemma filter_all {A : Type} (f : A -> bool) (xs : list A) :
  (forall x, In x xs -> f x = true) -> filter f xs = xs.
Proof.
  induction xs as [|x xs IH]; simpl; intros H; [reflexivity|].
  rewrite H, IH; auto.
Qed.

Lemma In_distinct (xs : list string) (x : string) : In x (distinct xs) <-> In x xs.
Proof.
  induction xs as [|a xs IH]; simpl; [tauto|].
  rewrite filter_In, IH, Bool.negb_true_iff, String.eqb_neq.
  destruct (string_dec a x) as [->|N]; [tauto|].
  split; [tauto|]. intros [E|H]; [contradiction|]. right. split; congruence.
Qed.

Lemma NoDup_distinct (xs : list string) : NoDup (distinct xs).
Proof.
  induction xs as [|a xs IH]; simpl; constructor.
  - rewrite filter_In, String.eqb_refl. intros [_ H]. discriminate.
  - now apply NoDup_filter.
Qed.

Lemma distinct_NoDup (xs : list string) : NoDup xs -> distinct xs = xs.
Proof.
  induction 1 as [|a xs Hnot _ IH]; simpl; [reflexivity|].
  rewrite IH. f_equal. apply filter_all. intros x Hx.
  apply Bool.negb_true_iff, String.eqb_neq. intros ->. contradiction.
Qed.

(** Writing key [k] and then the keys [l], seen from the dictionary before
    the write. *)
Lemma keys_setitem_then {V : Type} (d : Dict.t V) (k : string) (v : V)
    (l : list string) :
  Dict.keys (Dict.setitem d k v)
  ++ filter (fun x => negb (Dict.contains (Dict.setitem d k v) x)) l
  = Dict.keys d
    ++ filter (fun x => negb (Dict.contains d x))
              (k :: filter (fun y => negb (y =? k)) l).
Proof.
  rewrite keys_setitem. cbn [filter].
  rewrite <- filter_filter_and
    with (h := fun x => negb (Dict.contains (Dict.setitem d k v) x)).
  - destruct (Dict.contains d k); cbn [negb]; [reflexivity|].
    now rewrite <- app_assoc.
  - intros x. rewrite contains_setitem.
    now destruct (x =? k), (Dict.contains d x).
Qed.

Lemma map_outputs_spec (expr_map : Dict.t Z3.expr) (outs : list string) :
  forall output_expr : Dict.t Z3.expr,
    match map_outputs expr_map output_expr outs with
    | Ok output_expr' =>
        forallb (Dict.contains expr_map) outs = true
        /\ Dict.keys output_expr'
           = Dict.keys output_expr
             ++ filter (fun x => negb (Dict.contains output_expr x)) (distinct outs)
        /\ forall k, Dict.get output_expr' k
                     = if contains outs k then Dict.get expr_map k
                       else Dict.get output_expr k
    | Raise (ValueError _) => forallb (Dict.contains expr_map) outs = false
    | Raise _ => False
    end.
Proof.
  induction outs as [|out rest IH]; intros output_expr.
  - simpl. split; [reflexivity|]. split; [now rewrite app_nil_r | reflexivity].
  - cbn [map_outputs forallb distinct].
    destruct (Dict.contains expr_map out) eqn:C; [|reflexivity].
    destruct (getitem_contains _ _ C) as (e & Hg & ->). cbn [bind].
    specialize (IH (Dict.setitem output_expr out e)).
    destruct (map_outputs _ _ rest) as [output_expr'|[]]; try exact IH.
    destruct IH as (-> & Hk & Hv). split; [reflexivity|]. split.
    + rewrite Hk. apply keys_setitem_then.
    + intros k. rewrite Hv, get_setitem, contains_cons.
      destruct (k =? out) eqn:E; cbn [orb]; [|reflexivity].
      apply String.eqb_eq in E. subst.
      now destruct (contains rest out).
Qed.

(** ** [build_z3_expr] of circuit_equivalence.py *)

(** The output map does not depend on the state the caller passes in. *)
Lemma build_z3_expr_compile (circuit : Circuit.t) (variables : set string)
    (z3_vars : Dict.t Z3.expr) (prefix : string) :
  by_name z3_vars ->
  match CircuitEquivalence.build_z3_expr circuit variables z3_vars prefix with
  | Ok (output_expr, _, z3_vars') =>
      compile circuit = Ok output_expr
      /\ by_name z3_vars'
      /\ forall k, Dict.contains z3_vars' k
                   = contains (Circuit.inputs circuit) k || Dict.contains z3_vars k
  | Raise e => compile circuit = Raise e
  end.
Proof.
  intros Hz. unfold compile, CircuitEquivalence.build_z3_expr.
  destruct (bind_inputs_spec (Circuit.inputs circuit) variables z3_vars Dict.empty Hz)
    as (v1 & z1 & -> & Hz1 & Hc1).
  destruct (bind_inputs_spec (Circuit.inputs circuit) (empty_set string)
              Dict.empty Dict.empty by_name_empty)
    as (v2 & z2 & -> & _ & _).
  cbn [bind].
  pose proof (process_gates_variables (Circuit.gates circuit) (empty_set string)
                v1 v2 (input_map (Circuit.inputs circuit) Dict.empty)) as HV.
  destruct (CircuitEquivalence.process_gates _ _ v1 _) as [[v1' em1]|e1];
    destruct (CircuitEquivalence.process_gates _ _ v2 _) as [[v2' em2]|e2];
    cbn [fmap snd] in HV; try discriminate; cbn [bind].
  - injection HV as <-.
    destruct (map_outputs em1 Dict.empty (Circuit.outputs circuit)); cbn [bind];
      [now repeat split | reflexivity].
  - now injection HV as <-.
Qed.

Lemma compile_spec (circuit : Circuit.t) :
  match compile circuit with
  | Ok output_expr =>
      structurally_valid circuit = true
      /\ Dict.keys output_expr = distinct (Circuit.outputs circuit)
      /\ forall out, In out (Circuit.outputs circuit) ->
           exists e, Dict.get output_expr out = Some e
                     /\ forall m, output_value circuit m out = Some (Z3.evaluate m e)
  | Raise (ValueError _) => structurally_valid circuit = false
  | Raise _ => False
  end.
Proof.
  unfold compile, CircuitEquivalence.build_z3_expr, structurally_valid.
  destruct (bind_inputs_spec (Circuit.inputs circuit) (empty_set string)
              Dict.empty Dict.empty by_name_empty)
    as (v & z & -> & _ & _).
  cbn [bind].
  set (em0 := input_map (Circuit.inputs circuit) Dict.empty).
  pose proof (process_gates_spec (Circuit.gates circuit) (empty_set string) v em0
                (Circuit.inputs circuit) []) as HP.
  destruct (CircuitEquivalence.process_gates _ _ _ _) as [[v' em]|[]] eqn:EP;
    cbn [bind].
  - destruct HP as (-> & Hk).
    { intros k. unfold em0. rewrite contains_input_map. apply Bool.orb_false_r. }
    { reflexivity. }
    cbn [andb].
    assert (HE : forallb (Dict.contains em) (Circuit.outputs circuit)
                 = forallb (contains (Circuit.inputs circuit
                                      ++ map Gate.name (Circuit.gates circuit)))
                           (Circuit.outputs circuit)).
    { apply forallb_eq. intros k. rewrite Hk, contains_app. apply Bool.orb_comm. }
    rewrite <- HE.
    pose proof (map_outputs_spec em (Circuit.outputs circuit) Dict.empty) as HM.
    destruct (map_outputs _ _ _) as [o|[]]; cbn [bind]; try exact HM.
    destruct HM as (Hall & Hkeys & Hget). split; [exact Hall|]. split.
    + rewrite Hkeys. cbn [Dict.keys map app]. apply filter_all. reflexivity.
    + intros out Hout.
      rewrite forallb_forall in Hall. specialize (Hall out Hout).
      destruct (getitem_contains _ _ Hall) as (e & Hg & _).
      exists e. split.
      * rewrite Hget. apply contains_In in Hout. now rewrite Hout.
      * intros m. unfold output_value.
        destruct (process_gates_values m _ _ _ _ _ _ _ EP
                    (values_of_inputs m (Circuit.inputs circuit)))
          as (env & -> & Hv).
        now rewrite (Hv out), Hg.
  - rewrite HP; [reflexivity | | reflexivity].
    intros k. unfold em0. rewrite contains_input_map. apply Bool.orb_false_r.
  - apply HP; [|reflexivity].
    intros k. unfold em0. rewrite contains_input_map. apply Bool.orb_false_r.
  - apply HP; [|reflexivity].
    intros k. unfold em0. rewrite contains_input_map. apply Bool.orb_false_r.
  - apply HP; [|reflexivity].
    intros k. unfold em0. rewrite contains_input_map. apply Bool.orb_false_r.
Qed.

(** ** The miter and the counterexample *)

Lemma diff_constraints_spec (outputs1 outputs2 : Dict.t Z3.expr)
    (pairs : list (string * string)) :
  (forall x y, In (x, y) pairs ->
     Dict.contains outputs1 x = true /\ Dict.contains outputs2 y = true) ->
  exists diff_constraints,
    mapM (CircuitEquivalence.diff_constraint outputs1 outputs2) pairs
    = Ok diff_constraints
    /\ Forall2 (constraint_of outputs1 outputs2) pairs diff_constraints
    /\ forall m,
         existsb (Z3.evaluate m) diff_constraints = true
         <-> exists x y e1 e2,
               In (x, y) pairs
               /\ Dict.get outputs1 x = Some e1 /\ Dict.get outputs2 y = Some e2
               /\ Z3.evaluate m e1 <> Z3.evaluate m e2.
Proof.
  induction pairs as [|[x y] rest IH]; intros H.
  - exists []. split; [reflexivity|]. split; [constructor|].
    intros m. simpl. split; [discriminate|].
    intros (? & ? & ? & ? & [] & _).
  - destruct (H x y (or_introl eq_refl)) as (C1 & C2).
    destruct (getitem_contains _ _ C1) as (e1 & G1 & Hg1).
    destruct (getitem_contains _ _ C2) as (e2 & G2 & Hg2).
    destruct IH as (dcs & HM & HF & Hdcs).
    { intros x' y' Hin. apply H. now right. }
    exists (Z3.Distinct e1 e2 :: dcs). split; [|split].
    + cbn [mapM CircuitEquivalence.diff_constraint]. rewrite Hg1, Hg2. cbn [bind].
      now rewrite HM.
    + constructor; [now exists e1, e2 | exact HF].
    + intros m. cbn [existsb Z3.evaluate].
      rewrite Bool.orb_true_iff, Hdcs, Bool.negb_true_iff, Bool.eqb_false_iff.
      split.
      * intros [Hne|(x' & y' & a & b & Hin & Ha & Hb & Hne)].
        -- exists x, y, e1, e2. repeat split; auto. now left.
        -- exists x', y', a, b. repeat split; auto. now right.
      * intros (x' & y' & a & b & [E|Hin] & Ha & Hb & Hne).
        -- injection E as <- <-. left. congruence.
        -- right. now exists x', y', a, b.
Qed.

Lemma extract_differences_spec (m : Z3.model) (outputs1 outputs2 : Dict.t Z3.expr)
    (pairs : list (string * string)) :
  (forall x y, In (x, y) pairs ->
     Dict.contains outputs1 x = true /\ Dict.contains outputs2 y = true) ->
  exists differing_outputs,
    CircuitEquivalence.extract_differences m outputs1 outputs2 pairs
    = Ok differing_outputs
    /\ forall x y b1 b2,
         In (x, y, b1, b2) differing_outputs
         <-> In (x, y) pairs
             /\ exists e1 e2,
                  Dict.get outputs1 x = Some e1 /\ Dict.get outputs2 y = Some e2
                  /\ b1 = Z3.evaluate m e1 /\ b2 = Z3.evaluate m e2 /\ b1 <> b2.
Proof.
  induction pairs as [|[x y] rest IH]; intros H.
  - exists []. split; [reflexivity|]. intros. simpl. tauto.
  - destruct (H x y (or_introl eq_refl)) as (C1 & C2).
    destruct (getitem_contains _ _ C1) as (e1 & G1 & Hg1).
    destruct (getitem_contains _ _ C2) as (e2 & G2 & Hg2).
    destruct IH as (ds & HM & Hds).
    { intros x' y' Hin. apply H. now right. }
    cbn [CircuitEquivalence.extract_differences]. rewrite Hg1, Hg2. cbn [bind].
    rewrite HM. cbn [bind]. cbv zeta.
    destruct (Bool.eqb (Z3.evaluate m e1) (Z3.evaluate m e2)) eqn:E; cbn [negb].
    + exists ds. split; [reflexivity|]. intros x' y' b1 b2. rewrite Hds.
      split.
      * intros (Hin & Hrest). split; [now right | exact Hrest].
      * intros ([E'|Hin] & a & b & Ha & Hb & -> & -> & Hne); [|split; eauto 10].
        injection E' as <- <-. exfalso. apply Hne.
        apply Bool.eqb_prop. congruence.
    + exists ((x, y, Z3.evaluate m e1, Z3.evaluate m e2) :: ds).
      split; [reflexivity|]. intros x' y' b1 b2. cbn [In]. rewrite Hds.
      apply Bool.eqb_false_iff in E. split.
      * intros [E'|(Hin & Hrest)].
        -- injection E' as <- <- <- <-. split; [now left|].
           exists e1, e2. repeat split; auto.
        -- split; [now right | exact Hrest].
      * intros ([E'|Hin] & a & b & Ha & Hb & -> & -> & Hne).
        -- injection E' as <- <-. left. congruence.
        -- right. split; eauto 10.
Qed.

Lemma extract_inputs_spec (m : Z3.model) (z3_vars : Dict.t Z3.expr)
    (inps : list string) :
  by_name z3_vars ->
  (forall k, In k inps -> Dict.contains z3_vars k = true) ->
  forall input_assignment : Dict.t bool,
  exists input_assignment',
    CircuitEquivalence.extract_inputs m z3_vars inps input_assignment
    = Ok input_assignment'
    /\ Dict.keys input_assignment'
       = Dict.keys input_assignment
         ++ filter (fun x => negb (Dict.contains input_assignment x)) (distinct inps)
    /\ forall k, Dict.get input_assignment' k
                 = if contains inps k then Some (m k)
                   else Dict.get input_assignment k.
Proof.
  intros Hz. induction inps as [|inp rest IH]; intros Hin input_assignment.
  - exists input_assignment. split; [reflexivity|].
    split; [now rewrite app_nil_r | reflexivity].
  - cbn [CircuitEquivalence.extract_inputs distinct].
    assert (C : Dict.contains z3_vars inp = true) by (apply Hin; now left).
    rewrite C. destruct (getitem_contains _ _ C) as (v & Hg & ->). cbn [bind].
    rewrite (Hz _ _ Hg). cbn [Z3.evaluate].
    destruct (IH (fun k H => Hin k (or_intror H))
                 (Dict.setitem input_assignment inp (m inp)))
      as (ia & -> & Hk & Hv).
    exists ia. split; [reflexivity|]. split.
    + rewrite Hk. apply keys_setitem_then.
    + intros k. rewrite Hv, get_setitem, contains_cons.
      destruct (k =? inp) eqn:E; cbn [orb]; [|reflexivity].
      apply String.eqb_eq in E. subst. now destruct (contains rest inp).
Qed.

(** ** [check_circuit_equivalence] *)

Lemma pairs_in_maps {V : Type} (d1 d2 : Dict.t V) (x y : string) :
  In (x, y) (combine (Dict.keys d1) (Dict.keys d2)) ->
  Dict.contains d1 x = true /\ Dict.contains d2 y = true.
Proof.
  intros H. rewrite !contains_keys, !contains_In.
  split; [eapply in_combine_l | eapply in_combine_r]; exact H.
Qed.

(** What a call on two circuits that compile does. *)
Lemma check_run (solve : list Z3.expr -> Z3.check_result) (A B : Circuit.t)
    (outputs1 outputs2 : Dict.t Z3.expr) :
  compile A = Ok outputs1 ->
  compile B = Ok outputs2 ->
  let pairs := combine (Dict.keys outputs1) (Dict.keys outputs2) in
  let r := CircuitEquivalence.check_circuit_equivalence solve A B in
  if (Dict.len outputs1 =? Dict.len outputs2)%nat then
    exists diff_constraints miter,
      Forall2 (constraint_of outputs1 outputs2) pairs diff_constraints
      /\ miter = Z3.Or diff_constraints
      /\ CircuitEquivalence.queries r = [[miter]]
      /\ (forall m, Z3.satisfies m [miter] = true
                    <-> exists x y b1 b2,
                          In (x, y) pairs
                          /\ differs_under m outputs1 outputs2 x y b1 b2)
      /\ match solve [miter] with
         | Z3.sat m =>
             exists input_assignment differing_outputs,
               CircuitEquivalence.outcome r
               = Ok (false, Some (input_assignment, differing_outputs))
               /\ Dict.keys input_assignment = distinct (Circuit.inputs A)
               /\ (forall k, Dict.get input_assignment k
                             = if contains (Circuit.inputs A) k then Some (m k)
                               else None)
               /\ (forall x y b1 b2,
                      In (x, y, b1, b2) differing_outputs
                      <-> In (x, y) pairs
                          /\ differs_under m outputs1 outputs2 x y b1 b2)
         | _ => CircuitEquivalence.outcome r = Ok (true, None)
         end
  else r = {| CircuitEquivalence.outcome := Ok (false, None);
              CircuitEquivalence.queries := [] |}.
Proof.
  intros HA HB pairs r. subst r pairs.
  unfold CircuitEquivalence.check_circuit_equivalence.
  pose proof (build_z3_expr_compile A (empty_set string) Dict.empty "c1_"
                by_name_empty) as H1.
  destruct (CircuitEquivalence.build_z3_expr A _ _ _) as [[[o1 v1] z1]|e1];
    [|congruence].
  destruct H1 as (H1 & Hz1 & Hc1). rewrite HA in H1. injection H1 as <-.
  cbn [bind].
  pose proof (build_z3_expr_compile B v1 z1 "c2_" Hz1) as H2.
  destruct (CircuitEquivalence.build_z3_expr B _ _ _) as [[[o2 v2] z2]|e2];
    [|congruence].
  destruct H2 as (H2 & Hz2 & Hc2). rewrite HB in H2. injection H2 as <-.
  cbn [bind].
  destruct (Dict.len outputs1 =? Dict.len outputs2)%nat; cbn [negb];
    [|reflexivity].
  destruct (diff_constraints_spec outputs1 outputs2 _
              (pairs_in_maps outputs1 outputs2)) as (dcs & HM & HF & Hsem).
  exists dcs, (Z3.Or dcs). rewrite HM.
  cbn [CircuitEquivalence.queries CircuitEquivalence.outcome Z3.add
       Z3.assertions Z3.new_solver app].
  split; [exact HF|]. split; [reflexivity|]. split; [reflexivity|]. split.
  { intros m. unfold Z3.satisfies. cbn [forallb Z3.evaluate].
    rewrite Bool.andb_true_r, Hsem. unfold differs_under. split.
    - intros (x & y & e1 & e2 & Hin & G1 & G2 & Hne).
      exists x, y, (Z3.evaluate m e1), (Z3.evaluate m e2).
      split; [exact Hin|]. now exists e1, e2.
    - intros (x & y & b1 & b2 & Hin & e1 & e2 & G1 & G2 & -> & -> & Hne).
      now exists x, y, e1, e2. }
  destruct (solve [Z3.Or dcs]) as [m| |]; try reflexivity.
  destruct (extract_inputs_spec m z2 (Circuit.inputs A) Hz2) with
    (input_assignment := @Dict.empty bool) as (ia & -> & Hk & Hv).
  { intros k Hk. rewrite Hc2, Hc1. apply contains_In in Hk. rewrite Hk.
    apply Bool.orb_true_r. }
  destruct (extract_differences_spec m outputs1 outputs2 _
              (pairs_in_maps outputs1 outputs2)) as (ds & -> & HD).
  cbn [bind]. exists ia, ds.
  split; [reflexivity|]. split; [|split; [exact Hv | exact HD]].
  rewrite Hk. cbn [Dict.keys map app]. apply filter_all. reflexivity.
Qed.

(** A circuit that does not compile makes the call exit with status 1. *)
Lemma check_exit (solve : list Z3.expr -> Z3.check_result) (A B : Circuit.t) :
  structurally_valid A = false \/ structurally_valid B = false ->
  CircuitEquivalence.check_circuit_equivalence solve A B
  = {| CircuitEquivalence.outcome := Raise (SystemExit 1);
       CircuitEquivalence.queries := [] |}.
Proof.
  intros H. unfold CircuitEquivalence.check_circuit_equivalence.
  pose proof (build_z3_expr_compile A (empty_set string) Dict.empty "c1_"
                by_name_empty) as H1.
  pose proof (compile_spec A) as SA.
  destruct (CircuitEquivalence.build_z3_expr A _ _ _) as [[[o1 v1] z1]|e1].
  - destruct H1 as (H1 & Hz1 & _). rewrite H1 in SA. destruct SA as (SA & _).
    cbn [bind].
    pose proof (build_z3_expr_compile B v1 z1 "c2_" Hz1) as H2.
    pose proof (compile_spec B) as SB.
    destruct (CircuitEquivalence.build_z3_expr B _ _ _) as [[[o2 v2] z2]|e2].
    + destruct H2 as (H2 & _). rewrite H2 in SB. destruct SB as (SB & _).
      destruct H; congruence.
    + rewrite H2 in SB. cbn [bind]. now destruct e2.
  - rewrite H1 in SA. cbn [bind]. now destruct e1.
Qed.

(** ** [build_z3_expr] of circuit-evaluator.py *)

Lemma evaluator_bind_inputs_spec (inps : list string)
    (z3_vars expr_map : Dict.t Z3.expr) :
  by_name z3_vars ->
  exists z3_vars',
    CircuitEvaluator.bind_inputs inps z3_vars expr_map
    = Ok (z3_vars', input_map inps expr_map)
    /\ by_name z3_vars'
    /\ forall k, Dict.contains z3_vars' k = contains inps k || Dict.contains z3_vars k.
Proof.
  revert z3_vars expr_map.
  induction inps as [|inp rest IH]; intros z3_vars expr_map Hz.
  - exists z3_vars. now repeat split.
  - destruct (by_name_declare z3_vars inp Hz) as (Hz' & Hg & Hc).
    cbn [CircuitEvaluator.bind_inputs]. cbv zeta. rewrite Hg. cbn [bind].
    destruct (IH _ (Dict.setitem expr_map inp (Z3.Bool inp)) Hz')
      as (z3_vars' & -> & Hz'' & Hc').
    exists z3_vars'. split; [reflexivity|]. split; [exact Hz''|].
    intros k. rewrite Hc', Hc, contains_cons.
    now destruct (k =? inp), (contains rest k).
Qed.

Lemma by_name_setitem (d : Dict.t Z3.expr) (x : string) :
  by_name d -> by_name (Dict.setitem d x (Z3.Bool x)).
Proof.
  intros H k v. rewrite get_setitem. destruct (k =? x) eqn:E.
  - apply String.eqb_eq in E. subst. now intros [= <-].
  - apply H.
Qed.

Lemma by_name_input_map (inps : list string) (expr_map : Dict.t Z3.expr) :
  by_name expr_map -> by_name (input_map inps expr_map).
Proof.
  unfold input_map. revert expr_map.
  induction inps as [|inp rest IH]; intros expr_map H; [exact H|].
  simpl. apply IH. now apply by_name_setitem.
Qed.

(** In a map of variables the terms of a list of signals are their
    variables. *)
Lemma by_name_values (m : Z3.model) (expr_map : Dict.t Z3.expr)
    (sigs : list string) (es : list Z3.expr) :
  by_name expr_map ->
  Forall2 (fun s a => Dict.get expr_map s = Some a) sigs es ->
  map (Z3.evaluate m) es = map m sigs.
Proof.
  intros Hb F. induction F as [|s a sigs es Hs _ IH]; simpl; [reflexivity|].
  now rewrite (Hb _ _ Hs), IH.
Qed.

Lemma satisfies_app (m : Z3.model) (fs gs : list Z3.expr) :
  Z3.satisfies m (fs ++ gs) = Z3.satisfies m fs && Z3.satisfies m gs.
Proof. unfold Z3.satisfies. apply forallb_app. Qed.

Lemma evaluator_process_gates_spec (gs : list Gate.t) :
  forall (gate_names : set string) (z3_vars expr_map : Dict.t Z3.expr)
         (constraints : list Z3.expr) (defined seen : list string),
    by_name z3_vars -> by_name expr_map ->
    (forall k, Dict.contains expr_map k = contains defined k) ->
    (forall k, contains gate_names k = contains seen k) ->
    match CircuitEvaluator.process_gates gs gate_names z3_vars expr_map constraints with
    | Ok (z3_vars', expr_map', constraints') =>
        gates_accepted defined seen gs = true
        /\ by_name z3_vars' /\ by_name expr_map'
        /\ (forall k, Dict.contains expr_map' k
                      = contains (map Gate.name gs) k || contains defined k)
        /\ (forall k, Dict.contains z3_vars' k
                      = contains (map Gate.name gs) k || Dict.contains z3_vars k)
        /\ (forall m, Z3.satisfies m constraints'
                      = Z3.satisfies m constraints && forallb (consistent_gate m) gs)
    | Raise (ValueError _) => gates_accepted defined seen gs = false
    | Raise _ => False
    end.
Proof.
  induction gs as [|gate rest IH];
    intros gate_names z3_vars expr_map constraints defined seen Hz Hb Hd Hs.
  - simpl. repeat split; auto. intros m. now rewrite Bool.andb_true_r.
  - cbn [CircuitEvaluator.process_gates gates_accepted]. cbv zeta.
    rewrite set_mem_contains, Hs.
    destruct (contains seen (Gate.name gate)); [reflexivity|].
    rewrite <- (forallb_eq _ _ (Gate.inputs gate) Hd).
    pose proof (check_defined_spec expr_map (Gate.name gate) (Gate.inputs gate)) as HC.
    destruct (check_defined _ _ _) as [[]|[]]; try contradiction;
      [|now rewrite HC]. rewrite HC. cbn [bind].
    destruct (by_name_declare z3_vars (Gate.name gate) Hz) as (Hz' & Hg & Hc).
    rewrite Hg. cbn [bind].
    pose proof (gate_function_spec expr_map (Gate.name gate)
                  (upper (Gate.type gate)) (Gate.inputs gate) HC) as HF.
    destruct (gate_function _ _ _ _) as [e|[]]; try contradiction;
      [|now rewrite HF]. destruct HF as (-> & es & F & Hval). cbn [bind negb andb].
    specialize (IH (set_add string_dec (Gate.name gate) gate_names) _
                   (Dict.setitem expr_map (Gate.name gate) (Z3.Bool (Gate.name gate)))
                   (constraints ++ [Z3.Eq (Z3.Bool (Gate.name gate)) e])
                   (Gate.name gate :: defined) (Gate.name gate :: seen)
                   Hz' (by_name_setitem _ _ Hb)).
    assert (Hd' : forall k,
               Dict.contains (Dict.setitem expr_map (Gate.name gate)
                                           (Z3.Bool (Gate.name gate))) k
               = contains (Gate.name gate :: defined) k).
    { intros k. now rewrite contains_setitem, contains_cons, Hd. }
    assert (Hs' : forall k,
               contains (set_add string_dec (Gate.name gate) gate_names) k
               = contains (Gate.name gate :: seen) k).
    { intros k. now rewrite contains_set_add, contains_cons, Hs. }
    specialize (IH Hd' Hs').
    destruct (CircuitEvaluator.process_gates rest _ _ _ _) as [[[z' em'] cs']|[]];
      try exact IH.
    destruct IH as (-> & Hz'' & Hb'' & Hk & Hkz & Hsat).
    split; [reflexivity|]. split; [exact Hz''|]. split; [exact Hb''|].
    split; [|split].
    + intros k. cbn [map]. rewrite Hk, !contains_cons.
      now destruct (k =? Gate.name gate), (contains (map Gate.name rest) k).
    + intros k. cbn [map]. rewrite Hkz, Hc, !contains_cons.
      now destruct (k =? Gate.name gate), (contains (map Gate.name rest) k).
    + intros m. rewrite Hsat, satisfies_app. cbn [forallb].
      rewrite <- Bool.andb_assoc. do 2 f_equal.
      unfold Z3.satisfies, consistent_gate. cbn [forallb Z3.evaluate].
      rewrite <- (by_name_values m expr_map _ es Hb F), Hval.
      apply Bool.andb_true_r.
Qed.

Lemma evaluator_build_spec (circuit : Circuit.t) (z3_vars : Dict.t Z3.expr) :
  by_name z3_vars ->
  match CircuitEvaluator.build_z3_expr circuit z3_vars with
  | Ok (outputs, constraints, z3_vars') =>
      structurally_valid circuit = true
      /\ by_name z3_vars'
      /\ (forall k, Dict.contains z3_vars' k
                    = contains (Circuit.inputs circuit
                                ++ map Gate.name (Circuit.gates circuit)) k
                      || Dict.contains z3_vars k)
      /\ (forall m, Z3.satisfies m constraints = consistent circuit m)
      /\ (forall out, In out (Circuit.outputs circuit) ->
                      Dict.get outputs out = Some (Z3.Bool out))
  | Raise (ValueError _) => structurally_valid circuit = false
  | Raise _ => False
  end.
Proof.
  intros Hz. unfold CircuitEvaluator.build_z3_expr, structurally_valid.
  destruct (evaluator_bind_inputs_spec (Circuit.inputs circuit) z3_vars
              Dict.empty Hz) as (z1 & -> & Hz1 & Hc1).
  cbn [bind].
  set (em0 := input_map (Circuit.inputs circuit) Dict.empty).
  assert (Hd : forall k, Dict.contains em0 k = contains (Circuit.inputs circuit) k).
  { intros k. unfold em0. rewrite contains_input_map. apply Bool.orb_false_r. }
  pose proof (evaluator_process_gates_spec (Circuit.gates circuit)
                (empty_set string) z1 em0 [] (Circuit.inputs circuit) []
                Hz1 (by_name_input_map _ _ by_name_empty) Hd (fun k => eq_refl))
    as HP.
  destruct (CircuitEvaluator.process_gates _ _ _ _ _) as [[[z' em] cs]|[]];
    cbn [bind]; try exact HP; [|now rewrite HP].
  destruct HP as (-> & Hz' & Hb & Hk & Hkz & Hsat). cbn [andb].
  assert (HE : forallb (Dict.contains em) (Circuit.outputs circuit)
               = forallb (contains (Circuit.inputs circuit
                                    ++ map Gate.name (Circuit.gates circuit)))
                         (Circuit.outputs circuit)).
  { apply forallb_eq. intros k. rewrite Hk, contains_app. apply Bool.orb_comm. }
  rewrite <- HE.
  pose proof (map_outputs_spec em (Circuit.outputs circuit) Dict.empty) as HM.
  destruct (map_outputs _ _ _) as [o|[]]; cbn [bind]; try exact HM.
  destruct HM as (Hall & _ & Hget). split; [exact Hall|]. split; [exact Hz'|].
  split; [|split].
  - intros k. rewrite Hkz, Hc1, contains_app.
    now destruct (contains (map Gate.name (Circuit.gates circuit)) k),
                 (contains (Circuit.inputs circuit) k).
  - intros m. now rewrite Hsat.
  - intros out Hout. rewrite Hget.
    rewrite forallb_forall in Hall. specialize (Hall out Hout).
    destruct (getitem_contains _ _ Hall) as (e & Hg & _).
    apply contains_In in Hout. rewrite Hout, Hg. now rewrite (Hb _ _ Hg).
Qed.

(** ** [validate_circuit] *)

Lemma assertions_fold_add (fs : list Z3.expr) (solver : Z3.Solver) :
  Z3.assertions (fold_left Z3.add fs solver) = Z3.assertions solver ++ fs.
Proof.
  revert solver. induction fs as [|f fs IH]; intros solver; simpl.
  - now rewrite app_nil_r.
  - rewrite IH. simpl. now rewrite <- app_assoc.
Qed.

Lemma satisfies_literals (m : Z3.model) (items : Dict.t bool) :
  Z3.satisfies m (map literal items) = true <-> agrees m items.
Proof.
  unfold Z3.satisfies, agrees. rewrite forallb_forall. split.
  - intros H k b Hin. specialize (H _ (in_map literal _ _ Hin)).
    destruct b; simpl in H; [exact H | now apply Bool.negb_true_iff].
  - intros H e He. apply in_map_iff in He as ([k b] & <- & Hin).
    specialize (H k b Hin). destruct b; simpl; [exact H | now rewrite H].
Qed.

Lemma apply_input_assignments_spec (circuit : Circuit.t) (z3_vars : Dict.t Z3.expr)
    (items : list (string * bool)) :
  by_name z3_vars ->
  (forall k, In k (Circuit.inputs circuit) -> Dict.contains z3_vars k = true) ->
  (forall k, In k (Dict.keys items) -> In k (Circuit.inputs circuit)) ->
  forall solver,
    CircuitEvaluator.apply_input_assignments circuit z3_vars items solver
    = Ok (CircuitEvaluator.Next
            {| Z3.assertions := Z3.assertions solver ++ map literal items |}).
Proof.
  intros Hz Hin. induction items as [|[inp val] rest IH]; intros Hk solver.
  - simpl. rewrite app_nil_r. now destruct solver.
  - cbn [CircuitEvaluator.apply_input_assignments].
    assert (Hi : In inp (Circuit.inputs circuit)) by (apply Hk; now left).
    rewrite (proj2 (contains_In _ _) Hi). cbn [negb].
    destruct (getitem_contains _ _ (Hin _ Hi)) as (v & Hg & ->). cbn [bind].
    rewrite (Hz _ _ Hg), IH.
    + cbn [Z3.add Z3.assertions map literal]. now rewrite <- app_assoc.
    + intros k H. apply Hk. now right.
Qed.

Lemma apply_signal_assignments_spec (z3_vars : Dict.t Z3.expr)
    (items : list (string * bool)) :
  by_name z3_vars ->
  (forall k, In k (Dict.keys items) -> Dict.contains z3_vars k = true) ->
  forall solver,
    CircuitEvaluator.apply_signal_assignments z3_vars items solver
    = Ok (CircuitEvaluator.Next
            {| Z3.assertions := Z3.assertions solver ++ map literal items |}).
Proof.
  intros Hz. induction items as [|[sig val] rest IH]; intros Hk solver.
  - simpl. rewrite app_nil_r. now destruct solver.
  - cbn [CircuitEvaluator.apply_signal_assignments].
    assert (C : Dict.contains z3_vars sig = true) by (apply Hk; now left).
    rewrite C. cbn [negb].
    destruct (getitem_contains _ _ C) as (v & Hg & ->). cbn [bind].
    rewrite (Hz _ _ Hg), IH.
    + cbn [Z3.add Z3.assertions map literal]. now rewrite <- app_assoc.
    + intros k H. apply Hk. now right.
Qed.

Lemma extract_outputs_spec (m : Z3.model) (outputs : Dict.t Z3.expr)
    (outs : list string) :
  (forall out, In out outs -> Dict.get outputs out = Some (Z3.Bool out)) ->
  forall output_values : Dict.t bool,
  exists output_values',
    CircuitEvaluator.extract_outputs m outputs outs output_values
    = Ok output_values'
    /\ forall k, Dict.get output_values' k
                 = if contains outs k then Some (m k) else Dict.get output_values k.
Proof.
  induction outs as [|out rest IH]; intros Ho output_values.
  - exists output_values. now split.
  - cbn [CircuitEvaluator.extract_outputs]. unfold Dict.getitem.
    rewrite (Ho out (or_introl eq_refl)). cbn [bind Z3.evaluate].
    destruct (IH (fun k H => Ho k (or_intror H))
                 (Dict.setitem output_values out (m out))) as (ov & -> & Hv).
    exists ov. split; [reflexivity|].
    intros k. rewrite Hv, get_setitem, contains_cons.
    destruct (k =? out) eqn:E; cbn [orb]; [|reflexivity].
    apply String.eqb_eq in E. subst. now destruct (contains rest out).
Qed.

(** What a call does on a circuit that compiles, when every assigned name
    exists: one query, whose models are the models consistent with the gates
    that agree with both assignments. *)
Lemma validate_run (solve : list Z3.expr -> Z3.check_result) (circuit : Circuit.t)
    (input_assignments : Dict.t bool) (signal_assignments : option (Dict.t bool)) :
  structurally_valid circuit = true ->
  (forall k, In k (Dict.keys input_assignments) -> In k (Circuit.inputs circuit)) ->
  (forall k, In k (Dict.keys (entries signal_assignments)) ->
             In k (Circuit.inputs circuit ++ map Gate.name (Circuit.gates circuit))) ->
  exists fs,
    (forall m, Z3.satisfies m fs = true
               <-> consistent circuit m = true
                   /\ agrees m input_assignments
                   /\ agrees m (entries signal_assignments))
    /\ match solve fs with
       | Z3.sat m =>
           exists output_values,
             CircuitEvaluator.validate_circuit solve circuit input_assignments
                                               signal_assignments
             = Ok (true, CircuitEvaluator.Outputs output_values)
             /\ forall k, Dict.get output_values k
                          = if contains (Circuit.outputs circuit) k
                            then Some (m k) else None
       | _ =>
           CircuitEvaluator.validate_circuit solve circuit input_assignments
                                             signal_assignments
           = Ok (false, CircuitEvaluator.Message CircuitEvaluator.contradiction_message)
       end.
Proof.
  intros Hsv Hia Hsa. unfold CircuitEvaluator.validate_circuit.
  pose proof (evaluator_build_spec circuit Dict.empty by_name_empty) as HB.
  destruct (CircuitEvaluator.build_z3_expr circuit Dict.empty)
    as [[[outputs constraints] z3_vars]|[]]; try contradiction; [|congruence].
  destruct HB as (_ & Hz & Hc & Hsat & Hout).
  assert (Hc' : forall k,
             In k (Circuit.inputs circuit ++ map Gate.name (Circuit.gates circuit)) ->
             Dict.contains z3_vars k = true).
  { intros k Hk. rewrite Hc. apply contains_In in Hk. now rewrite Hk. }
  rewrite (apply_input_assignments_spec circuit z3_vars input_assignments Hz); auto.
  2:{ intros k Hk. apply Hc', in_or_app. now left. }
  cbn [bind]. rewrite assertions_fold_add. cbn [Z3.new_solver Z3.assertions app].
  set (s1 := {| Z3.assertions := constraints ++ map literal input_assignments |}).
  assert (HS : (if CircuitEvaluator.truthy signal_assignments
                then CircuitEvaluator.apply_signal_assignments z3_vars
                       match signal_assignments with
                       | Some d => Dict.items d
                       | None => []
                       end s1
                else Ok (CircuitEvaluator.Next s1))
               = Ok (CircuitEvaluator.Next
                       {| Z3.assertions :=
                            Z3.assertions s1
                            ++ map literal (entries signal_assignments) |})).
  { destruct signal_assignments as [[|entry rest]|];
      cbn [CircuitEvaluator.truthy entries map]; try (now rewrite app_nil_r).
    apply apply_signal_assignments_spec; [exact Hz|].
    intros k Hk. apply Hc', Hsa. exact Hk. }
  rewrite HS. cbn [bind Z3.assertions s1]. clear HS.
  set (fs := (constraints ++ map literal input_assignments)
             ++ map literal (entries signal_assignments)).
  exists fs. split.
  - intros m. unfold fs. rewrite !satisfies_app, !Bool.andb_true_iff, Hsat,
      !satisfies_literals. tauto.
  - destruct (solve fs) as [m| |]; try reflexivity.
    destruct (extract_outputs_spec m outputs (Circuit.outputs circuit) Hout
                (@Dict.empty bool)) as (ov & -> & Hv).
    cbn [bind]. exists ov. split; [reflexivity | exact Hv].
Qed.

(** A circuit that does not compile is reported with the message of the
    error. *)
Lemma validate_invalid (solve : list Z3.expr -> Z3.check_result) (circuit : Circuit.t)
    (input_assignments : Dict.t bool) (signal_assignments : option (Dict.t bool)) :
  structurally_valid circuit = false ->
  exists msg,
    CircuitEvaluator.build_z3_expr circuit Dict.empty = Raise (ValueError msg)
    /\ CircuitEvaluator.validate_circuit solve circuit input_assignments
                                         signal_assignments
       = Ok (false, CircuitEvaluator.Message msg).
Proof.
  intros Hsv. unfold CircuitEvaluator.validate_circuit.
  pose proof (evaluator_build_spec circuit Dict.empty by_name_empty) as HB.
  destruct (CircuitEvaluator.build_z3_expr circuit Dict.empty)
    as [[[outputs constraints] z3_vars]|[msg| | |]]; try contradiction.
  - destruct HB as (HB & _). congruence.
  - now exists msg.
Qed.

(** Accepted gate lists have pairwise distinct names. *)
Lemma gates_accepted_NoDup (gs : list Gate.t) :
  forall defined seen,
    gates_accepted defined seen gs = true ->
    NoDup (map Gate.name gs)
    /\ forall x, In x (map Gate.name gs) -> ~ In x seen.
Proof.
  induction gs as [|gate rest IH]; intros defined seen H.
  - split; [constructor | intros x []].
  - cbn [gates_accepted] in H.
    apply andb_prop in H as (H & Hrest). apply andb_prop in H as (H & _).
    apply andb_prop in H as (Hnew & _).
    apply Bool.negb_true_iff, contains_false in Hnew.
    destruct (IH _ _ Hrest) as (Hnd & Hseen). cbn [map]. split.
    + constructor; [|exact Hnd]. intros Hin. apply (Hseen _ Hin). now left.
    + intros x [<-|Hin]; [exact Hnew|].
      intros Hx. apply (Hseen _ Hin). now right.
Qed.

Lemma duplicate_gate_invalid (circuit : Circuit.t) :
  ~ NoDup (map Gate.name (Circuit.gates circuit)) ->
  structurally_valid circuit = false.
Proof.
  intros H. unfold structurally_valid.
  destruct (gates_accepted _ _ _) eqn:E; [|reflexivity].
  exfalso. apply H. now apply gates_accepted_NoDup in E.
Qed.

(** ** Circuits that compile *)

(** Circuits that meet the invariants of the data model pass the checks of
    compilation. *)
Lemma well_formed_valid (circuit : Circuit.t) :
  well_formed circuit = true -> structurally_valid circuit = true.
Proof.
  unfold well_formed. intros H.
  apply andb_prop in H as (H & _). apply andb_prop in H as (H & _).
  now apply andb_prop in H as (H & _).
Qed.

Lemma compile_valid (circuit : Circuit.t) :
  structurally_valid circuit = true ->
  exists output_expr,
    compile circuit = Ok output_expr
    /\ Dict.keys output_expr = distinct (Circuit.outputs circuit)
    /\ forall out, In out (Circuit.outputs circuit) ->
         exists e, Dict.get output_expr out = Some e
                   /\ forall m, output_value circuit m out = Some (Z3.evaluate m e).
Proof.
  intros H. pose proof (compile_spec circuit) as S.
  destruct (compile circuit) as [o|[]]; try contradiction; [|congruence].
  exists o. split; [reflexivity|]. apply S.
Qed.

Lemma compiled_is_valid (circuit : Circuit.t) (output_expr : Dict.t Z3.expr) :
  compile circuit = Ok output_expr -> structurally_valid circuit = true.
Proof.
  intros H. pose proof (compile_spec circuit) as S. rewrite H in S. apply S.
Qed.

(** The values of a compiled pair are the simulated values of the two
    signals. *)
Lemma differs_under_values (A B : Circuit.t) (outputs1 outputs2 : Dict.t Z3.expr)
    (m : Z3.model) (x y : string) (b1 b2 : bool) :
  compile A = Ok outputs1 ->
  compile B = Ok outputs2 ->
  In (x, y) (combine (distinct (Circuit.outputs A)) (distinct (Circuit.outputs B))) ->
  differs_under m outputs1 outputs2 x y b1 b2
  <-> output_value A m x = Some b1 /\ output_value B m y = Some b2 /\ b1 <> b2.
Proof.
  intros HA HB Hin.
  destruct (compile_valid A (compiled_is_valid _ _ HA)) as (o1 & HA' & _ & VA).
  destruct (compile_valid B (compiled_is_valid _ _ HB)) as (o2 & HB' & _ & VB).
  rewrite HA in HA'. injection HA' as <-. rewrite HB in HB'. injection HB' as <-.
  destruct (VA x) as (e1 & G1 & V1).
  { eapply In_distinct, in_combine_l, Hin. }
  destruct (VB y) as (e2 & G2 & V2).
  { eapply In_distinct, in_combine_r, Hin. }
  unfold differs_under. rewrite V1, V2. split.
  - intros (a & b & Ga & Gb & -> & -> & Hne).
    rewrite G1 in Ga. rewrite G2 in Gb. injection Ga as <-. injection Gb as <-.
    now repeat split.
  - intros ([= <-] & [= <-] & Hne). now exists e1, e2.
Qed.

Lemma len_keys {V : Type} (d : Dict.t V) : Dict.len d = length (Dict.keys d).
Proof. unfold Dict.len, Dict.keys. now rewrite length_map. Qed.

(** What a call on two structurally valid circuits does, in terms of the
    circuits alone. *)
Lemma check_valid (solve : list Z3.expr -> Z3.check_result) (A B : Circuit.t) :
  structurally_valid A = true ->
  structurally_valid B = true ->
  let pairs :=
    combine (distinct (Circuit.outputs A)) (distinct (Circuit.outputs B)) in
  let r := CircuitEquivalence.check_circuit_equivalence solve A B in
  if (length (distinct (Circuit.outputs A))
      =? length (distinct (Circuit.outputs B)))%nat then
    exists miter,
      CircuitEquivalence.queries r = [[miter]]
      /\ (forall m, Z3.satisfies m [miter] = true <-> differ_on A B pairs m)
      /\ match solve [miter] with
         | Z3.sat m =>
             exists input_assignment differing_outputs,
               CircuitEquivalence.outcome r
               = Ok (false, Some (input_assignment, differing_outputs))
         | _ => CircuitEquivalence.outcome r = Ok (true, None)
         end
  else r = {| CircuitEquivalence.outcome := Ok (false, None);
              CircuitEquivalence.queries := [] |}.
Proof.
  intros HA HB pairs r.
  destruct (compile_valid A HA) as (o1 & CA & KA & _).
  destruct (compile_valid B HB) as (o2 & CB & KB & _).
  pose proof (check_run solve A B o1 o2 CA CB) as R. cbv zeta in R.
  rewrite !len_keys, KA, KB in R. fold pairs r in R.
  destruct (_ =? _)%nat; [|exact R].
  destruct R as (dcs & miter & _ & _ & Q & Hsem & Hm). exists miter.
  split; [exact Q|]. split.
  - intros m. rewrite Hsem. unfold differ_on. split.
    + intros (x & y & b1 & b2 & Hin & D). exists x, y. split; [exact Hin|].
      apply (differs_under_values A B o1 o2 m x y b1 b2 CA CB Hin) in D.
      destruct D as (-> & -> & Hne). congruence.
    + intros (x & y & Hin & Hne).
      destruct (compile_valid A HA) as (o1' & CA' & _ & VA).
      destruct (compile_valid B HB) as (o2' & CB' & _ & VB).
      destruct (VA x) as (e1 & G1 & V1).
      { eapply In_distinct, in_combine_l, Hin. }
      destruct (VB y) as (e2 & G2 & V2).
      { eapply In_distinct, in_combine_r, Hin. }
      exists x, y, (Z3.evaluate m e1), (Z3.evaluate m e2). split; [exact Hin|].
      apply (differs_under_values A B o1 o2 m x y _ _ CA CB Hin).
      rewrite V1, V2 in *. repeat split. congruence.
  - destruct (solve [miter]) as [m| |]; try exact Hm.
    destruct Hm as (ia & ds & -> & _). now exists ia, ds.
Qed.

Lemma agree_or_differ (A B : Circuit.t) (pairs : list (string * string))
    (v : string -> bool) :
  agree_on A B pairs v <-> ~ differ_on A B pairs v.
Proof.
  unfold agree_on, differ_on. split.
  - intros H (x & y & Hin & Hne). apply Hne, H, Hin.
  - intros H x y Hin.
    destruct (output_value A v x) as [[]|] eqn:EA,
             (output_value B v y) as [[]|] eqn:EB;
      try reflexivity; exfalso; apply H; exists x, y; (split; [exact Hin|]);
      rewrite EA, EB; discriminate.
Qed.

(** ** Models and the variables of z3 *)

(** The gates of a circuit that compiles read signals of the circuit. *)
Lemma gates_accepted_inputs (gs : list Gate.t) :
  forall defined seen,
    gates_accepted defined seen gs = true ->
    forall gate x, In gate gs -> In x (Gate.inputs gate) ->
                   In x (defined ++ map Gate.name gs).
Proof.
  induction gs as [|g rest IH]; intros defined seen H gate x Hg Hx;
    [contradiction|].
  cbn [gates_accepted] in H.
  apply andb_prop in H as (H & Hrest). apply andb_prop in H as (H & _).
  apply andb_prop in H as (_ & Hins).
  destruct Hg as [->|Hg].
  - rewrite forallb_forall in Hins. apply in_or_app. left.
    now apply contains_In, Hins.
  - specialize (IH _ _ Hrest gate x Hg Hx). simpl in IH.
    apply in_or_app. simpl.
    destruct IH as [<-|IH]; [tauto|].
    apply in_app_or in IH. tauto.
Qed.

(** Whether a model is consistent with the gates depends on the values of
    the signals of the circuit only. *)
Lemma consistent_ext (circuit : Circuit.t) (m1 m2 : Z3.model) :
  structurally_valid circuit = true ->
  (forall x, In x (namespace circuit) -> m1 x = m2 x) ->
  consistent circuit m1 = consistent circuit m2.
Proof.
  intros Hsv H. unfold structurally_valid in Hsv.
  apply andb_prop in Hsv as (Hg & _).
  pose proof (gates_accepted_inputs _ _ _ Hg) as Hins.
  unfold consistent.
  assert (E : forall gate, In gate (Circuit.gates circuit) ->
                           consistent_gate m1 gate = consistent_gate m2 gate).
  { intros gate Hin. unfold consistent_gate.
    rewrite (map_ext_in m1 m2 (Gate.inputs gate)).
    - rewrite (H (Gate.name gate)); [reflexivity|].
      unfold namespace. apply in_or_app. right. now apply in_map.
    - intros x Hx. apply H. exact (Hins gate x Hin Hx). }
  clear Hg Hins. induction (Circuit.gates circuit) as [|gate rest IH];
    [reflexivity|].
  simpl. rewrite (E gate (or_introl eq_refl)), IH; [reflexivity|].
  intros g Hg'. apply E. now right.
Qed.

(** On a circuit whose signals have no NUL character in their names, a
    model of the gates and of assignments to signals can be taken among the
    valuations of z3's variables. *)
Lemma valuation_of_model (circuit : Circuit.t) (m : Z3.model)
    (input_assignments signal_assignments : Dict.t bool) :
  structurally_valid circuit = true ->
  forallb Z3.nul_free (namespace circuit) = true ->
  (forall k, In k (Dict.keys input_assignments) -> In k (namespace circuit)) ->
  (forall k, In k (Dict.keys signal_assignments) -> In k (namespace circuit)) ->
  consistent circuit m = true ->
  agrees m input_assignments ->
  agrees m signal_assignments ->
  exists m',
    Z3.respects m'
    /\ consistent circuit m' = true
    /\ agrees m' input_assignments
    /\ agrees m' signal_assignments.
Proof.
  intros Hsv Hnul Hia Hsa HC Ha Hs.
  exists (fun x => m (Z3.symbol x)).
  assert (E : forall x, In x (namespace circuit) -> m (Z3.symbol x) = m x).
  { intros x Hx. rewrite forallb_forall in Hnul.
    now rewrite (symbol_nul_free x (Hnul x Hx)). }
  split; [apply respects_through_symbol|]. split; [|split].
  - now rewrite (consistent_ext circuit _ m Hsv E).
  - intros k b Hin. rewrite E; [now apply Ha|].
    apply Hia. unfold Dict.keys. change k with (fst (k, b)). now apply in_map.
  - intros k b Hin. rewrite E; [now apply Hs|].
    apply Hsa. unfold Dict.keys. change k with (fst (k, b)). now apply in_map.
Qed.

(* ================================================================== *)
(** * The test suite and the examples of the repository

    The embedding, run with the reference solver, passes the tests of
    test.py and gives the results of the examples of
    circuit-evaluator.py. *)

Import Examples.

Example test_equivalent_circuits :
  is_equiv (check distr1 distr2).
Proof. now eexists. Qed.

Example test_non_equivalent_circuits :
  not_equiv_with_differences (check distr1 distr2_or).
Proof. do 2 eexists. split; [reflexivity | simpl; lia]. Qed.

Example test_multiple_outputs_equivalent :
  is_equiv (check multi1 multi2).
Proof. now eexists. Qed.

Example test_multiple_outputs_non_equivalent :
  not_equiv_with_differences (check multi1 multi2_and).
Proof. do 2 eexists. split; [reflexivity | simpl; lia]. Qed.

Example test_undefined_gate_input :
  exits (check plain undefined_input).
Proof. eexists. split; [reflexivity | discriminate]. Qed.

Example test_unsupported_gate_type :
  exits (check plain unsupported_type).
Proof. eexists. split; [reflexivity | discriminate]. Qed.

Example test_invalid_not_gate :
  exits (check not1 not2).
Proof. eexists. split; [reflexivity | discriminate]. Qed.

Example test_no_gates :
  is_equiv (check wires wires).
Proof. now eexists. Qed.

Example test_different_number_of_outputs :
  CircuitEquivalence.outcome (check one_output two_outputs)
  = Ok (false, None).
Proof. reflexivity. Qed.

Example test_duplicate_gate_names_in_same_circuit :
  exits (check dup_circuit1 dup_circuit2).
Proof. eexists. split; [reflexivity | discriminate]. Qed.

Example test_large_equivalent_circuits :
  is_equiv (check large1 large2).
Proof. now eexists. Qed.

Example test_large_non_equivalent_circuits :
  not_equiv_with_differences (check large1_or large2_and).
Proof. do 2 eexists. split; [reflexivity | simpl; lia]. Qed.

Example evaluator_case_1 :
  validate distr1 [("A", true); ("B", true); ("C", false)] None
  = Ok (true, CircuitEvaluator.Outputs [("E", true)]).
Proof. reflexivity. Qed.

Example evaluator_case_2 :
  validate contradictory_circuit [("A", true); ("B", true)]
           (Some [("E2", true)])
  = Ok (false, CircuitEvaluator.Message CircuitEvaluator.contradiction_message).
Proof. reflexivity. Qed.

Example evaluator_case_3 :
  validate xor_circuit [("A", true); ("B", false); ("C", false)] None
  = Ok (true, CircuitEvaluator.Outputs [("F", true)]).
Proof. reflexivity. Qed.

Example unsupported_type_message :
  validate unsupported_type [] None
  = Ok (false, CircuitEvaluator.Message "Unsupported gate type: BUFF").
Proof. reflexivity. Qed.

(* ================================================================== *)
(** * The claims *)

(** ** Equivalence verdict (C1) *)

(** C1: on the circuits [aab] and [abb] the call gives the wrong verdict.
    The function is to tell whether two circuits are equivalent and pairs
    their outputs by position ("Ensure outputs correspond by order"). Both
    circuits are structurally valid (they are [well_formed]) and list three
    outputs; the second positional pair [("a", "b")] of their output lists
    has different values under some input assignment; and the call reports
    them equivalent. The outputs of a circuit were collected in a
    dictionary keyed by name, which keeps a repeated name once, so the only
    pairs that reach the solver are [("a", "a")] and [("b", "b")]. *)
Lemma C1_repeated_outputs_reported_equivalent :
  well_formed aab = true
  /\ well_formed abb = true
  /\ length (Circuit.outputs aab) = length (Circuit.outputs abb)
  /\ CircuitEquivalence.check_circuit_equivalence Z3.search aab abb
     = {| CircuitEquivalence.outcome := Ok (true, None);
          CircuitEquivalence.queries :=
            [[Z3.Or [Z3.Distinct (Z3.Bool "a") (Z3.Bool "a");
                     Z3.Distinct (Z3.Bool "b") (Z3.Bool "b")]]] |}
  /\ exists v,
       differ_on aab abb (combine (Circuit.outputs aab) (Circuit.outputs abb)) v.
Proof.
  repeat split.
  exists (fun x => x =? "a"), "a", "b". split.
  - simpl. tauto.
  - vm_compute. discriminate.
Qed.

(** ** Output count mismatch (C2) *)

(** C2, as stated, fails: [dup_circuit1] lists one output and
    [two_outputs] two, and the call does not return NotEquivalent: the
    first circuit has two gates of one name, and the call leaves through
    [sys.exit(1)] before the outputs are counted, which is what the test
    suite expects of a circuit that does not compile. *)
Lemma C2_invalid_circuit_exits :
  length (Circuit.outputs dup_circuit1) <> length (Circuit.outputs two_outputs)
  /\ CircuitEquivalence.check_circuit_equivalence Z3.search dup_circuit1 two_outputs
     = {| CircuitEquivalence.outcome := Raise (SystemExit 1);
          CircuitEquivalence.queries := [] |}.
Proof.
  split; [simpl; discriminate | reflexivity].
Qed.

(** C2, amended: for every pair of structurally valid circuits A and B,
    neither of which lists an output name twice, whose output counts
    differ, [check_circuit_equivalence A B] returns NotEquivalent with no
    counterexample and performs no solver query. *)
Theorem C2_mismatch_without_query
    (solve : list Z3.expr -> Z3.check_result) (A B : Circuit.t) :
  structurally_valid A = true ->
  structurally_valid B = true ->
  NoDup (Circuit.outputs A) ->
  NoDup (Circuit.outputs B) ->
  length (Circuit.outputs A) <> length (Circuit.outputs B) ->
  CircuitEquivalence.check_circuit_equivalence solve A B
  = {| CircuitEquivalence.outcome := Ok (false, None);
       CircuitEquivalence.queries := [] |}.
Proof.
  intros HA HB NA NB Hlen.
  pose proof (check_valid solve A B HA HB) as R. cbv zeta in R.
  rewrite (distinct_NoDup _ NA), (distinct_NoDup _ NB) in R.
  apply Nat.eqb_neq in Hlen. now rewrite Hlen in R.
Qed.

(** The witness is the pair of test_different_number_of_outputs. *)
Lemma C2_mismatch_witness :
  CircuitEquivalence.check_circuit_equivalence Z3.search one_output two_outputs
  = {| CircuitEquivalence.outcome := Ok (false, None);
       CircuitEquivalence.queries := [] |}.
Proof.
  apply (C2_mismatch_without_query Z3.search one_output two_outputs);
    [reflexivity | reflexivity
     | repeat constructor; simpl; intuition discriminate
     | repeat constructor; simpl; intuition discriminate
     | simpl; discriminate].
Defined.

(** What the amended claim leaves out: a repeated output name is counted
    once, the defect of C1. The circuit [aa] lists two outputs and
    [just_a] one, and the solver is asked. *)
Example repeated_output_counted_once :
  length (Circuit.outputs aa) <> length (Circuit.outputs just_a)
  /\ CircuitEquivalence.check_circuit_equivalence Z3.search aa just_a
     = {| CircuitEquivalence.outcome := Ok (true, None);
          CircuitEquivalence.queries :=
            [[Z3.Or [Z3.Distinct (Z3.Bool "a") (Z3.Bool "a")]]] |}.
Proof.
  split; [simpl; discriminate | reflexivity].
Qed.

(** ** Differing outputs (C3) *)

(** C3: on the circuits [aab] and [cdd] the reported list misses a
    differing pair. The call returns a counterexample; the second
    positional pair of the output lists is [("a", "d")], its compiled terms
    have different values under the witnessing model, and the reported
    list has no entry for it: the pairs examined are those of the
    dictionaries keyed by name, [("a", "c")] and [("b", "d")], as in C1. *)
Lemma C3_positional_pair_missing :
  exists fs m input_assignment differing_outputs outputs1 outputs2 e1 e2,
    well_formed aab = true /\ well_formed cdd = true
    /\ CircuitEquivalence.check_circuit_equivalence Z3.search aab cdd
       = {| CircuitEquivalence.outcome :=
              Ok (false, Some (input_assignment, differing_outputs));
            CircuitEquivalence.queries := [fs] |}
    /\ Z3.search fs = Z3.sat m
    /\ nth_error (Circuit.outputs aab) 1 = Some "a"
    /\ nth_error (Circuit.outputs cdd) 1 = Some "d"
    /\ compile aab = Ok outputs1 /\ compile cdd = Ok outputs2
    /\ Dict.get outputs1 "a" = Some e1 /\ Dict.get outputs2 "d" = Some e2
    /\ Z3.evaluate m e1 <> Z3.evaluate m e2
    /\ forall val1 val2, ~ In ("a", "d", val1, val2) differing_outputs.
Proof.
  eexists _, (Z3.valuation [("b", false); ("a", false)]), _, _, _, _, _, _.
  repeat (split; [reflexivity|]). split.
  - simpl. discriminate.
  - intros val1 val2 [H|[H|[]]]; discriminate.
Qed.

(** ** Reflexivity (C6) *)

Lemma in_combine_same {A : Type} (l : list A) (x y : A) :
  In (x, y) (combine l l) -> x = y.
Proof.
  induction l as [|a l IH]; simpl; [contradiction|].
  intros [[= <- <-]|H]; [reflexivity | now apply IH].
Qed.

(** C6: for every structurally valid circuit C and every sound solver,
    [check_circuit_equivalence C C] returns Equivalent. *)
Theorem C6_reflexivity (solve : list Z3.expr -> Z3.check_result) (C : Circuit.t) :
  Z3.sound solve ->
  structurally_valid C = true ->
  Equivalent (CircuitEquivalence.outcome
                (CircuitEquivalence.check_circuit_equivalence solve C C)).
Proof.
  intros Hsound HC.
  pose proof (check_valid solve C C HC HC) as R. cbv zeta in R.
  rewrite Nat.eqb_refl in R. destruct R as (miter & _ & Hsem & Hm).
  destruct (solve [miter]) as [m| |] eqn:S; try exact Hm.
  exfalso. apply (Z3.sat_sound solve Hsound), Hsem in S.
  destruct S as (x & y & Hin & Hne).
  apply in_combine_same in Hin. subst y. now apply Hne.
Qed.

Lemma C6_reflexivity_witness :
  Equivalent (CircuitEquivalence.outcome
                (CircuitEquivalence.check_circuit_equivalence Z3.search distr1 distr1)).
Proof.
  apply (C6_reflexivity Z3.search distr1); [exact search_sound | reflexivity].
Defined.

(** ** Outputs keyed by name (C9) *)

Lemma build_valid (circuit : Circuit.t) (variables : set string)
    (z3_vars : Dict.t Z3.expr) (prefix : string) :
  by_name z3_vars ->
  structurally_valid circuit = true ->
  exists output_expr variables' z3_vars',
    CircuitEquivalence.build_z3_expr circuit variables z3_vars prefix
    = Ok (output_expr, variables', z3_vars')
    /\ compile circuit = Ok output_expr
    /\ by_name z3_vars'.
Proof.
  intros Hz Hsv. destruct (compile_valid circuit Hsv) as (o & C & _).
  pose proof (build_z3_expr_compile circuit variables z3_vars prefix Hz) as HB.
  destruct (CircuitEquivalence.build_z3_expr _ _ _ _) as [[[o' v'] z']|e];
    [|congruence].
  destruct HB as (HB & Hz' & _). now exists o', v', z'.
Qed.

(** C9: in [check_circuit_equivalence] the outputs of each circuit are
    collected by [build_z3_expr] into a map keyed by name, whose keys are
    the distinct output names in order of first occurrence; the count
    compared is the number of these keys, and the single query, made when
    the counts agree, is the disjunction of one constraint per positional
    pair of the distinct output names: it holds exactly when one of these
    pairs has different values. *)
Theorem C9_outputs_collapsed_by_name
    (solve : list Z3.expr -> Z3.check_result) (A B : Circuit.t) :
  structurally_valid A = true ->
  structurally_valid B = true ->
  exists outputs1 variables1 z3_vars1 outputs2 variables2 z3_vars2,
    CircuitEquivalence.build_z3_expr A (empty_set string) Dict.empty "c1_"
    = Ok (outputs1, variables1, z3_vars1)
    /\ CircuitEquivalence.build_z3_expr B variables1 z3_vars1 "c2_"
       = Ok (outputs2, variables2, z3_vars2)
    /\ Dict.keys outputs1 = distinct (Circuit.outputs A)
    /\ Dict.keys outputs2 = distinct (Circuit.outputs B)
    /\ let pairs :=
         combine (distinct (Circuit.outputs A)) (distinct (Circuit.outputs B)) in
       let r := CircuitEquivalence.check_circuit_equivalence solve A B in
       if (length (distinct (Circuit.outputs A))
           =? length (distinct (Circuit.outputs B)))%nat then
         exists diff_constraints,
           Forall2 (constraint_of outputs1 outputs2) pairs diff_constraints
           /\ CircuitEquivalence.queries r = [[Z3.Or diff_constraints]]
           /\ forall m,
                Z3.evaluate m (Z3.Or diff_constraints) = true
                <-> differ_on A B pairs m
       else
         r = {| CircuitEquivalence.outcome := Ok (false, None);
                CircuitEquivalence.queries := [] |}.
Proof.
  intros HA HB.
  destruct (build_valid A (empty_set string) Dict.empty "c1_" by_name_empty HA)
    as (o1 & v1 & z1 & B1 & CA & Hz1).
  destruct (build_valid B v1 z1 "c2_" Hz1 HB) as (o2 & v2 & z2 & B2 & CB & _).
  exists o1, v1, z1, o2, v2, z2.
  destruct (compile_valid A HA) as (o1' & CA' & K1 & _).
  destruct (compile_valid B HB) as (o2' & CB' & K2 & _).
  rewrite CA in CA'. injection CA' as <-. rewrite CB in CB'. injection CB' as <-.
  repeat (split; [assumption|]).
  pose proof (check_valid solve A B HA HB) as R.
  pose proof (check_run solve A B o1 o2 CA CB) as R'.
  cbv zeta in R, R' |- *. rewrite !len_keys, K1, K2 in R'.
  destruct (_ =? _)%nat; [|exact R].
  destruct R as (miter & Q & Hsem & _).
  destruct R' as (dcs & miter' & HF & -> & Q' & _).
  rewrite Q in Q'. injection Q' as ->.
  exists dcs. split; [exact HF|]. split; [exact Q|].
  intros m. rewrite <- Hsem. unfold Z3.satisfies. cbn [forallb].
  now rewrite Bool.andb_true_r.
Qed.

Lemma C9_outputs_collapsed_witness :
  exists outputs1 variables1 z3_vars1 outputs2 variables2 z3_vars2,
    CircuitEquivalence.build_z3_expr aab (empty_set string) Dict.empty "c1_"
    = Ok (outputs1, variables1, z3_vars1)
    /\ CircuitEquivalence.build_z3_expr cdd variables1 z3_vars1 "c2_"
       = Ok (outputs2, variables2, z3_vars2)
    /\ Dict.keys outputs1 = distinct (Circuit.outputs aab)
    /\ Dict.keys outputs2 = distinct (Circuit.outputs cdd)
    /\ let pairs := [("a", "c"); ("b", "d")] in
       let r := CircuitEquivalence.check_circuit_equivalence Z3.search aab cdd in
       exists diff_constraints,
         Forall2 (constraint_of outputs1 outputs2) pairs diff_constraints
         /\ CircuitEquivalence.queries r = [[Z3.Or diff_constraints]]
         /\ forall m,
              Z3.evaluate m (Z3.Or diff_constraints) = true
              <-> differ_on aab cdd pairs m.
Proof.
  apply (C9_outputs_collapsed_by_name Z3.search aab cdd); reflexivity.
Defined.

(** ** Inputs of the counterexample (C10) *)

(** C10: whenever [check_circuit_equivalence] returns a counterexample, the
    keys of its input assignment are the first circuit's declared inputs
    (each once, in order of declaration); a name that is not an input of
    the first circuit, such as an input declared only by the second one,
    has no entry. *)
Theorem C10_counterexample_inputs
    (solve : list Z3.expr -> Z3.check_result) (circuit1 circuit2 : Circuit.t)
    (input_assignment : Dict.t bool)
    (differing_outputs : list (string * string * bool * bool)) :
  CircuitEquivalence.outcome
    (CircuitEquivalence.check_circuit_equivalence solve circuit1 circuit2)
  = Ok (false, Some (input_assignment, differing_outputs)) ->
  Dict.keys input_assignment = distinct (Circuit.inputs circuit1)
  /\ (forall x, In x (Dict.keys input_assignment) <-> In x (Circuit.inputs circuit1))
  /\ (forall x, In x (Circuit.inputs circuit2) ->
                ~ In x (Circuit.inputs circuit1) ->
                Dict.get input_assignment x = None).
Proof.
  intros H.
  destruct (structurally_valid circuit1) eqn:HA;
    [|rewrite check_exit in H by (now left); discriminate].
  destruct (structurally_valid circuit2) eqn:HB;
    [|rewrite check_exit in H by (now right); discriminate].
  destruct (compile_valid circuit1 HA) as (o1 & CA & _).
  destruct (compile_valid circuit2 HB) as (o2 & CB & _).
  pose proof (check_run solve circuit1 circuit2 o1 o2 CA CB) as R. cbv zeta in R.
  destruct (_ =? _)%nat; [|rewrite R in H; discriminate].
  destruct R as (dcs & miter & _ & _ & _ & _ & Hm).
  destruct (solve [miter]) as [m| |];
    [|rewrite Hm in H; discriminate|rewrite Hm in H; discriminate].
  destruct Hm as (ia & ds & Ho & Hk & Hv & _).
  rewrite Ho in H. injection H as <- <-.
  split; [exact Hk|]. split.
  - intros x. rewrite Hk. apply In_distinct.
  - intros x _ Hx. rewrite Hv. apply contains_false in Hx. now rewrite Hx.
Qed.

(** The witness: the miter of [just_a] and [a_and_b] is satisfied only with
    [b] false, and [b], an input of the second circuit alone, is not
    reported. *)
Lemma C10_counterexample_inputs_witness :
  Dict.keys [("a", true)] = distinct (Circuit.inputs just_a)
  /\ (forall x, In x (Dict.keys [("a", true)]) <-> In x (Circuit.inputs just_a))
  /\ (forall x, In x (Circuit.inputs a_and_b) ->
                ~ In x (Circuit.inputs just_a) ->
                Dict.get [("a", true)] x = None).
Proof.
  apply (C10_counterexample_inputs Z3.search just_a a_and_b [("a", true)]
           [("a", "x", true, false)]).
  vm_compute. reflexivity.
Defined.

(** ** Duplicate gate names (C4) *)

(** C4, as stated, fails for the equivalence flow: on the circuit of
    test_duplicate_gate_names_in_same_circuit the call does not return a
    result, it leaves through [sys.exit(1)]. *)
Lemma C4_equivalence_flow_exits :
  ~ NoDup (map Gate.name (Circuit.gates dup_circuit1))
  /\ CircuitEquivalence.outcome
       (CircuitEquivalence.check_circuit_equivalence Z3.search dup_circuit1 dup_circuit2)
     = Raise (SystemExit 1).
Proof.
  split; [|reflexivity].
  intros H. inversion H as [|? ? Hnot _]. apply Hnot. now left.
Qed.

(** C4, amended: for every circuit containing two gates with the same name,
    the validation flow returns the structural error of compilation to the
    caller as the failure result [(False, message)], and the
    equivalence-checking flow, with that circuit on either side, raises
    [SystemExit] with status 1 instead of returning. *)
Theorem C4_duplicate_gate_name
    (solve : list Z3.expr -> Z3.check_result) (circuit other : Circuit.t)
    (input_assignments : Dict.t bool) (signal_assignments : option (Dict.t bool)) :
  ~ NoDup (map Gate.name (Circuit.gates circuit)) ->
  (exists msg,
      CircuitEvaluator.build_z3_expr circuit Dict.empty = Raise (ValueError msg)
      /\ CircuitEvaluator.validate_circuit solve circuit input_assignments
                                           signal_assignments
         = Ok (false, CircuitEvaluator.Message msg))
  /\ CircuitEquivalence.outcome
       (CircuitEquivalence.check_circuit_equivalence solve circuit other)
     = Raise (SystemExit 1)
  /\ CircuitEquivalence.outcome
       (CircuitEquivalence.check_circuit_equivalence solve other circuit)
     = Raise (SystemExit 1).
Proof.
  intros H. apply duplicate_gate_invalid in H. split; [|split].
  - now apply validate_invalid.
  - rewrite check_exit; [reflexivity | now left].
  - rewrite check_exit; [reflexivity | now right].
Qed.

Lemma C4_duplicate_gate_name_witness :
  (exists msg,
      CircuitEvaluator.build_z3_expr dup_circuit1 Dict.empty = Raise (ValueError msg)
      /\ CircuitEvaluator.validate_circuit Z3.search dup_circuit1
           [("A", true); ("B", true)] None
         = Ok (false, CircuitEvaluator.Message msg))
  /\ CircuitEquivalence.outcome
       (CircuitEquivalence.check_circuit_equivalence Z3.search dup_circuit1 dup_circuit2)
     = Raise (SystemExit 1)
  /\ CircuitEquivalence.outcome
       (CircuitEquivalence.check_circuit_equivalence Z3.search dup_circuit2 dup_circuit1)
     = Raise (SystemExit 1).
Proof.
  apply (C4_duplicate_gate_name Z3.search dup_circuit1 dup_circuit2).
  simpl. intros H. inversion H as [|? ? Hnot _]. apply Hnot. now left.
Defined.

(** ** Uniqueness of signal names (C5) *)

(** C5, as stated, fails: the gate of [shadow] is named like the primary
    input it reads, and both compilers accept the circuit. *)
Lemma C5_gate_named_like_input_accepted :
  In "A" (Circuit.inputs shadow)
  /\ In "A" (map Gate.name (Circuit.gates shadow))
  /\ CircuitEquivalence.build_z3_expr shadow (empty_set string) Dict.empty "c1_"
     = Ok ([("A", Z3.Not (Z3.Bool "A"))], ["A"], [("A", Z3.Bool "A")])
  /\ CircuitEvaluator.build_z3_expr shadow Dict.empty
     = Ok ([("A", Z3.Bool "A")],
           [Z3.Eq (Z3.Bool "A") (Z3.Not (Z3.Bool "A"))],
           [("A", Z3.Bool "A")]).
Proof.
  repeat split; simpl; auto.
Qed.

Lemma equivalence_build_cases (circuit : Circuit.t) (variables : set string)
    (z3_vars : Dict.t Z3.expr) (prefix : string) :
  by_name z3_vars ->
  match CircuitEquivalence.build_z3_expr circuit variables z3_vars prefix with
  | Ok _ => structurally_valid circuit = true
  | Raise (ValueError _) => structurally_valid circuit = false
  | Raise _ => False
  end.
Proof.
  intros Hz.
  pose proof (build_z3_expr_compile circuit variables z3_vars prefix Hz) as HB.
  pose proof (compile_spec circuit) as S.
  destruct (CircuitEquivalence.build_z3_expr _ _ _ _) as [[[o v] z]|e].
  - destruct HB as (HB & _). rewrite HB in S. apply S.
  - now rewrite HB in S.
Qed.

(** C5, amended: compilation, in either mode, accepts a circuit exactly
    when the checks of [structurally_valid] pass and reports a structural
    error otherwise; these checks compare a gate's name with the names of
    the earlier gates only, so every circuit with two gates of the same
    name is rejected, and a gate named like a primary input is not rejected
    on that account. *)
Theorem C5_unique_among_gate_names
    (circuit : Circuit.t) (variables : set string) (z3_vars : Dict.t Z3.expr)
    (prefix : string) :
  by_name z3_vars ->
  (structurally_valid circuit = true ->
     is_ok (CircuitEquivalence.build_z3_expr circuit variables z3_vars prefix) = true
     /\ is_ok (CircuitEvaluator.build_z3_expr circuit z3_vars) = true)
  /\ (structurally_valid circuit = false ->
        reports_structural_error
          (CircuitEquivalence.build_z3_expr circuit variables z3_vars prefix)
        /\ reports_structural_error (CircuitEvaluator.build_z3_expr circuit z3_vars))
  /\ (~ NoDup (map Gate.name (Circuit.gates circuit)) ->
        structurally_valid circuit = false).
Proof.
  intros Hz.
  pose proof (equivalence_build_cases circuit variables z3_vars prefix Hz) as H1.
  pose proof (evaluator_build_spec circuit z3_vars Hz) as H2.
  unfold reports_structural_error.
  split; [|split]; [| |apply duplicate_gate_invalid]; intros Hsv.
  - destruct (CircuitEquivalence.build_z3_expr _ _ _ _) as [?|[]];
      try contradiction; [|congruence].
    destruct (CircuitEvaluator.build_z3_expr _ _) as [[[? ?] ?]|[]];
      try contradiction; [|congruence].
    now split.
  - destruct (CircuitEquivalence.build_z3_expr _ _ _ _) as [?|[]];
      try contradiction; [congruence|].
    destruct (CircuitEvaluator.build_z3_expr _ _) as [[[? ?] ?]|[]];
      try contradiction; [destruct H2; congruence|].
    split; eauto.
Qed.

Lemma C5_unique_among_gate_names_witness :
  (is_ok (CircuitEquivalence.build_z3_expr shadow (empty_set string) Dict.empty "c1_")
   = true
   /\ is_ok (CircuitEvaluator.build_z3_expr shadow Dict.empty) = true)
  /\ (reports_structural_error
        (CircuitEquivalence.build_z3_expr dup_circuit1 (empty_set string)
                                          Dict.empty "c1_")
      /\ reports_structural_error
           (CircuitEvaluator.build_z3_expr dup_circuit1 Dict.empty)).
Proof.
  split.
  - apply (C5_unique_among_gate_names shadow (empty_set string) Dict.empty "c1_"
             by_name_empty).
    reflexivity.
  - apply (C5_unique_among_gate_names dup_circuit1 (empty_set string) Dict.empty
             "c1_" by_name_empty).
    reflexivity.
Defined.

(** ** Circuits without gates (C7) *)

Lemma agrees_model_of (assignment : Dict.t bool) :
  Dict.wf assignment -> agrees (Z3.model_of assignment) assignment.
Proof.
  intros Hwf k b Hin. unfold Z3.model_of. now rewrite (In_get _ _ _ Hwf Hin).
Qed.

(** C7, as stated, fails. The circuit [wires] of test_no_gates has no gate
    and its outputs are its inputs; an assignment that covers both inputs
    and also gives a value to [Z] is refused by the guard on the names of
    the input assignment, and no output is evaluated. And in [nul_wires]
    the two inputs are one variable of z3, so an assignment that covers
    both with different values is reported as a contradiction. *)
Lemma C7_covering_assignment_refused :
  Circuit.gates wires = []
  /\ (forall out, In out (Circuit.outputs wires) -> In out (Circuit.inputs wires))
  /\ (forall inp, In inp (Circuit.inputs wires) ->
                  In inp (Dict.keys [("A", true); ("B", false); ("Z", true)]))
  /\ validate wires [("A", true); ("B", false); ("Z", true)] None
     = Ok (false, CircuitEvaluator.Message "Input 'Z' is not defined in the circuit.")
  /\ Circuit.gates nul_wires = []
  /\ (forall out, In out (Circuit.outputs nul_wires) ->
                  In out (Circuit.inputs nul_wires))
  /\ (forall inp, In inp (Circuit.inputs nul_wires) <->
                  In inp (Dict.keys [("a", true); (a_nul_b, false)]))
  /\ validate nul_wires [("a", true); (a_nul_b, false)] None
     = Ok (false, CircuitEvaluator.Message CircuitEvaluator.contradiction_message).
Proof.
  repeat split; simpl; tauto.
Qed.

(** C7, amended: for every circuit with an empty gate list whose outputs
    all name primary inputs and whose input names hold no NUL character,
    every input assignment that gives a value to every input of the
    circuit and to no other name, no signal assignment, and a solver that
    is sound and always answers, [validate_circuit] returns [valid = True]
    and the value reported for each output is the value assigned to the
    input of that name. *)
Theorem C7_no_gates_outputs_are_inputs
    (solve : list Z3.expr -> Z3.check_result) (circuit : Circuit.t)
    (input_assignments : Dict.t bool) (signal_assignments : option (Dict.t bool)) :
  Z3.sound solve ->
  Z3.decides solve ->
  Circuit.gates circuit = [] ->
  (forall out, In out (Circuit.outputs circuit) -> In out (Circuit.inputs circuit)) ->
  forallb Z3.nul_free (Circuit.inputs circuit) = true ->
  Dict.wf input_assignments ->
  (forall k, In k (Dict.keys input_assignments) <-> In k (Circuit.inputs circuit)) ->
  CircuitEvaluator.truthy signal_assignments = false ->
  exists output_values,
    CircuitEvaluator.validate_circuit solve circuit input_assignments
                                      signal_assignments
    = Ok (true, CircuitEvaluator.Outputs output_values)
    /\ forall out, In out (Circuit.outputs circuit) ->
         exists b, Dict.get input_assignments out = Some b
                   /\ Dict.get output_values out = Some b.
Proof.
  intros Hsound Hdec Hg Hout Hnul Hwf Hkeys Hsa.
  assert (Hsv : structurally_valid circuit = true).
  { unfold structurally_valid. rewrite Hg. cbn [gates_accepted map andb].
    rewrite app_nil_r. apply forallb_forall. intros out Ho.
    now apply contains_In, Hout. }
  assert (He : entries signal_assignments = []).
  { now destruct signal_assignments as [[|? ?]|]. }
  assert (Hns : namespace circuit = Circuit.inputs circuit).
  { unfold namespace. rewrite Hg. apply app_nil_r. }
  destruct (validate_run solve circuit input_assignments signal_assignments Hsv)
    as (fs & Hsem & Hm).
  { intros k. apply Hkeys. }
  { rewrite He. intros k []. }
  destruct (valuation_of_model circuit (Z3.model_of input_assignments)
              input_assignments [] Hsv) as (m' & Hm' & HC' & Ha' & Hs').
  { now rewrite Hns. }
  { intros k Hk. rewrite Hns. now apply Hkeys. }
  { intros k []. }
  { unfold consistent. now rewrite Hg. }
  { now apply agrees_model_of. }
  { intros k b []. }
  assert (Hsat : Z3.satisfies m' fs = true).
  { apply Hsem. rewrite He. now repeat split. }
  destruct (solve fs) as [m| |] eqn:S.
  - destruct Hm as (ov & Hv & Hget). exists ov. split; [exact Hv|].
    intros out Ho.
    apply (Z3.sat_sound solve Hsound), Hsem in S. destruct S as (_ & Hag & _).
    assert (Hk : In out (Dict.keys input_assignments)) by now apply Hkeys, Hout.
    apply in_map_iff in Hk as ([k b] & E & Hin). simpl in E. subst k.
    exists b. split; [now apply In_get|].
    rewrite Hget, (proj2 (contains_In _ _) Ho). f_equal. now apply Hag.
  - rewrite (Z3.unsat_sound solve Hsound _ S m' Hm') in Hsat. discriminate.
  - exfalso. exact (Hdec _ S).
Qed.

(** The witness is the circuit of test_no_gates. *)
Lemma C7_no_gates_witness :
  exists output_values,
    CircuitEvaluator.validate_circuit Z3.search wires
      [("A", true); ("B", false)] None
    = Ok (true, CircuitEvaluator.Outputs output_values)
    /\ forall out, In out (Circuit.outputs wires) ->
         exists b, Dict.get [("A", true); ("B", false)] out = Some b
                   /\ Dict.get output_values out = Some b.
Proof.
  apply (C7_no_gates_outputs_are_inputs Z3.search wires
           [("A", true); ("B", false)] None);
    [exact search_sound | exact search_decides | reflexivity
     | intros out H; exact H | reflexivity | | intros k; simpl; tauto
     | reflexivity].
  unfold Dict.wf. simpl. repeat constructor; simpl; intuition discriminate.
Defined.

(** ** Contradictory assignments (C8) *)

(** C8: for every structurally valid circuit, every input assignment to
    names among its inputs and every signal assignment to names among its
    inputs and gates such that no value of the signals is consistent with
    all gates and agrees with both assignments, and every sound solver,
    [validate_circuit] returns [(False, message)] with the contradiction
    message, hence no output values, and raises nothing. *)
Theorem C8_contradiction_reported
    (solve : list Z3.expr -> Z3.check_result) (circuit : Circuit.t)
    (input_assignments : Dict.t bool) (signal_assignments : option (Dict.t bool)) :
  Z3.sound solve ->
  structurally_valid circuit = true ->
  (forall k, In k (Dict.keys input_assignments) -> In k (Circuit.inputs circuit)) ->
  (forall k, In k (Dict.keys (entries signal_assignments)) ->
             In k (Circuit.inputs circuit ++ map Gate.name (Circuit.gates circuit))) ->
  (forall m, consistent circuit m = true ->
             agrees m input_assignments ->
             agrees m (entries signal_assignments) -> False) ->
  CircuitEvaluator.validate_circuit solve circuit input_assignments signal_assignments
  = Ok (false, CircuitEvaluator.Message CircuitEvaluator.contradiction_message).
Proof.
  intros Hsound Hsv Hia Hsa Hunsat.
  destruct (validate_run solve circuit input_assignments signal_assignments
              Hsv Hia Hsa) as (fs & Hsem & Hm).
  destruct (solve fs) as [m| |] eqn:S; try exact Hm.
  exfalso. apply (Z3.sat_sound solve Hsound), Hsem in S.
  destruct S as (Hc & Ha & Hs). exact (Hunsat m Hc Ha Hs).
Qed.

(** The witness is the second example of circuit-evaluator.py: [E2] is
    forced to [True] although it negates [A], which is [True]. *)
Lemma C8_contradiction_witness :
  CircuitEvaluator.validate_circuit Z3.search contradictory_circuit
    [("A", true); ("B", true)] (Some [("E2", true)])
  = Ok (false, CircuitEvaluator.Message CircuitEvaluator.contradiction_message).
Proof.
  apply (C8_contradiction_reported Z3.search contradictory_circuit);
    [exact search_sound | reflexivity | simpl; tauto | simpl; tauto |].
  intros m Hc Ha Hs.
  specialize (Ha "A" true (or_introl eq_refl)).
  specialize (Hs "E2" true (or_introl eq_refl)).
  unfold consistent in Hc. simpl in Hc. unfold consistent_gate in Hc. simpl in Hc.
  rewrite Ha, Hs in Hc. simpl in Hc.
  rewrite Bool.andb_false_r in Hc. discriminate.
Defined.

(* ================================================================== *)
(** * Further properties of circuit_equivalence.py *)

(** ** [build_z3_expr], inlined mode *)

Lemma output_map_compile (circuit : Circuit.t) (variables : set string)
    (z3_vars : Dict.t Z3.expr) (prefix : string) :
  by_name z3_vars ->
  output_map (CircuitEquivalence.build_z3_expr circuit variables z3_vars prefix)
  = compile circuit.
Proof.
  intros Hz.
  pose proof (build_z3_expr_compile circuit variables z3_vars prefix Hz) as H.
  unfold output_map.
  destruct (CircuitEquivalence.build_z3_expr _ _ _ _) as [[[o v] z]|e]; simpl.
  - destruct H as (H & _). now rewrite H.
  - now rewrite H.
Qed.

(** X1: the term [build_z3_expr] returns for an output has, under every
    model, the value the gate-by-gate simulation of the circuit gives that
    signal when the inputs are driven by the model. *)
Theorem inlined_terms_evaluate_to_simulation
    (circuit : Circuit.t) (variables variables' : set string)
    (z3_vars z3_vars' outputs : Dict.t Z3.expr) (prefix : string) :
  by_name z3_vars ->
  CircuitEquivalence.build_z3_expr circuit variables z3_vars prefix
  = Ok (outputs, variables', z3_vars') ->
  forall out, In out (Circuit.outputs circuit) ->
    exists e, Dict.get outputs out = Some e
              /\ forall v, output_value circuit v out = Some (Z3.evaluate v e).
Proof.
  intros Hz HB.
  pose proof (output_map_compile circuit variables z3_vars prefix Hz) as HC.
  rewrite HB in HC. simpl in HC. symmetry in HC.
  destruct (compile_valid circuit (compiled_is_valid _ _ HC)) as (o & HC' & _ & V).
  rewrite HC in HC'. injection HC' as <-. exact V.
Qed.

Lemma inlined_terms_witness :
  exists e, Dict.get [("E", Z3.Or [Z3.And [Z3.Bool "A"; Z3.Bool "B"]; Z3.Bool "C"])]
                     "E" = Some e
            /\ forall v, output_value distr1 v "E" = Some (Z3.evaluate v e).
Proof.
  apply (inlined_terms_evaluate_to_simulation distr1 (empty_set string)
           ["A"; "B"; "C"; "D"; "E"] Dict.empty
           [("A", Z3.Bool "A"); ("B", Z3.Bool "B"); ("C", Z3.Bool "C")] _ "c1_");
    [exact by_name_empty | reflexivity | simpl; tauto].
Defined.

(** X2: the two circuits of a comparison do not interfere: the output map
    of the second circuit, compiled in the [variables] and [z3_vars] the
    first one left behind, is the map it gets when compiled on its own,
    whatever names the gates of the two circuits share; and when it does
    not compile the error is the same. *)
Theorem second_circuit_compiled_as_alone
    (A B : Circuit.t) (outputs1 : Dict.t Z3.expr) (variables1 : set string)
    (z3_vars1 : Dict.t Z3.expr) :
  CircuitEquivalence.build_z3_expr A (empty_set string) Dict.empty "c1_"
  = Ok (outputs1, variables1, z3_vars1) ->
  output_map (CircuitEquivalence.build_z3_expr B variables1 z3_vars1 "c2_")
  = output_map (CircuitEquivalence.build_z3_expr B (empty_set string) Dict.empty "c2_").
Proof.
  intros HA.
  pose proof (build_z3_expr_compile A (empty_set string) Dict.empty "c1_"
                by_name_empty) as H.
  rewrite HA in H. destruct H as (_ & Hz & _).
  rewrite !output_map_compile; [reflexivity | exact by_name_empty | exact Hz].
Qed.

(** Both test circuits name a gate [E] and a gate [F]. *)
Lemma second_circuit_witness :
  output_map (CircuitEquivalence.build_z3_expr multi2
                ["A"; "B"; "C"; "D"; "E"; "F"]
                [("A", Z3.Bool "A"); ("B", Z3.Bool "B"); ("C", Z3.Bool "C")] "c2_")
  = output_map (CircuitEquivalence.build_z3_expr multi2 (empty_set string)
                  Dict.empty "c2_").
Proof.
  apply (second_circuit_compiled_as_alone multi1 multi2
           [("E", Z3.Or [Z3.And [Z3.Bool "A"; Z3.Bool "B"]; Z3.Bool "C"]);
            ("F", Z3.Or [Z3.Bool "A"; Z3.Bool "B"])]).
  reflexivity.
Defined.

(** ** [check_circuit_equivalence] *)

(** X3: a call either returns a pair or leaves through [sys.exit(1)]; it
    exits exactly when one of the circuits fails the structural checks, and
    then before any solver query; no [KeyError], [IndexError] or
    [ValueError] escapes, and at most one query is made. *)
Theorem check_returns_or_exits
    (solve : list Z3.expr -> Z3.check_result) (A B : Circuit.t) :
  let r := CircuitEquivalence.check_circuit_equivalence solve A B in
  if structurally_valid A && structurally_valid B then
    (exists is_equiv model, CircuitEquivalence.outcome r = Ok (is_equiv, model))
    /\ length (CircuitEquivalence.queries r) <= 1
  else
    r = {| CircuitEquivalence.outcome := Raise (SystemExit 1);
           CircuitEquivalence.queries := [] |}.
Proof.
  intros r.
  destruct (structurally_valid A) eqn:HA; cbn [andb];
    [|apply check_exit; now left].
  destruct (structurally_valid B) eqn:HB; [|apply check_exit; now right].
  pose proof (check_valid solve A B HA HB) as R. cbv zeta in R. fold r in R.
  destruct (_ =? _)%nat.
  - destruct R as (miter & -> & _ & Hm). split; [|simpl; lia].
    destruct (solve [miter]) as [m| |]; [|rewrite Hm; now eexists _, _..].
    destruct Hm as (ia & ds & ->). now eexists _, _.
  - rewrite R. simpl. split; [now eexists _, _ | lia].
Qed.

(** X4: every answer of the solver other than [sat] is taken for
    equivalence: if the solver gives up on the query ([unknown]), two
    structurally valid circuits with as many distinct output names are
    reported Equivalent. *)
Theorem unknown_reported_equivalent
    (solve : list Z3.expr -> Z3.check_result) (A B : Circuit.t) :
  structurally_valid A = true ->
  structurally_valid B = true ->
  length (distinct (Circuit.outputs A)) = length (distinct (Circuit.outputs B)) ->
  (forall fs,
      In fs (CircuitEquivalence.queries
               (CircuitEquivalence.check_circuit_equivalence solve A B)) ->
      solve fs = Z3.unknown) ->
  Equivalent (CircuitEquivalence.outcome
                (CircuitEquivalence.check_circuit_equivalence solve A B)).
Proof.
  intros HA HB Hlen Hu.
  pose proof (check_valid solve A B HA HB) as R. cbv zeta in R.
  rewrite Hlen, Nat.eqb_refl in R. destruct R as (miter & Q & _ & Hm).
  rewrite Q in Hu. rewrite (Hu [miter] (or_introl eq_refl)) in Hm. exact Hm.
Qed.

(** The circuits of test_non_equivalent_circuits, which differ. *)
Lemma unknown_reported_equivalent_witness :
  Equivalent (CircuitEquivalence.outcome
                (CircuitEquivalence.check_circuit_equivalence no_answer
                   distr1 distr2_or)).
Proof.
  apply (unknown_reported_equivalent no_answer distr1 distr2_or);
    [reflexivity | reflexivity | reflexivity | intros fs _; reflexivity].
Defined.

Lemma in_combine_swap {A B : Type} (l1 : list A) (l2 : list B) (x : A) (y : B) :
  In (x, y) (combine l1 l2) <-> In (y, x) (combine l2 l1).
Proof.
  revert l2. induction l1 as [|a l1 IH]; intros [|b l2]; simpl; try tauto.
  rewrite IH. split; (intros [[= <- <-]|H]; [now left | now right]).
Qed.

Lemma agree_on_swap (A B : Circuit.t) (l1 l2 : list string) (v : string -> bool) :
  agree_on A B (combine l1 l2) v <-> agree_on B A (combine l2 l1) v.
Proof.
  unfold agree_on. split; intros H x y Hin; symmetry; apply H;
    now apply in_combine_swap.
Qed.

(** The verdict on two circuits that compile, for a solver that is sound
    and always answers: the valuations of z3's variables are what the
    solver searches. *)
Lemma equivalent_iff_agree (solve : list Z3.expr -> Z3.check_result)
    (A B : Circuit.t) :
  Z3.sound solve -> Z3.decides solve ->
  structurally_valid A = true -> structurally_valid B = true ->
  let r := CircuitEquivalence.outcome
             (CircuitEquivalence.check_circuit_equivalence solve A B) in
  (Equivalent r \/ NotEquivalent r)
  /\ (Equivalent r
      <-> length (distinct (Circuit.outputs A))
          = length (distinct (Circuit.outputs B))
          /\ forall v, Z3.respects v ->
                       agree_on A B (combine (distinct (Circuit.outputs A))
                                             (distinct (Circuit.outputs B))) v).
Proof.
  intros Hsound Hdec HA HB r.
  pose proof (check_valid solve A B HA HB) as R. cbv zeta in R.
  unfold Equivalent, NotEquivalent. subst r.
  destruct (_ =? _)%nat eqn:E.
  - apply Nat.eqb_eq in E. destruct R as (miter & _ & Hsem & Hm).
    destruct (solve [miter]) as [m| |] eqn:S.
    + destruct Hm as (ia & ds & ->). split; [right; now eexists|].
      split; [discriminate|]. intros (_ & H). exfalso.
      pose proof (Z3.sat_respects solve Hsound _ _ S) as Hv.
      apply (proj1 (agree_or_differ _ _ _ m) (H m Hv)), Hsem.
      now apply (Z3.sat_sound solve Hsound).
    + rewrite Hm. split; [now left|]. split; [|reflexivity].
      intros _. split; [exact E|]. intros v Hv. apply agree_or_differ.
      intros D. apply Hsem in D.
      rewrite (Z3.unsat_sound solve Hsound _ S v Hv) in D. discriminate.
    + exfalso. exact (Hdec _ S).
  - apply Nat.eqb_neq in E. rewrite R. simpl.
    split; [right; now eexists|]. split; [discriminate | tauto].
Qed.

(** X5: the verdict does not depend on the order of the two circuits: for
    structurally valid circuits and a solver that is sound and always
    answers, [check_circuit_equivalence A B] reports Equivalent exactly
    when [check_circuit_equivalence B A] does, and likewise for
    NotEquivalent. *)
Theorem verdict_symmetric (solve : list Z3.expr -> Z3.check_result)
    (A B : Circuit.t) :
  Z3.sound solve -> Z3.decides solve ->
  structurally_valid A = true -> structurally_valid B = true ->
  let ab := CircuitEquivalence.outcome
              (CircuitEquivalence.check_circuit_equivalence solve A B) in
  let ba := CircuitEquivalence.outcome
              (CircuitEquivalence.check_circuit_equivalence solve B A) in
  (Equivalent ab <-> Equivalent ba) /\ (NotEquivalent ab <-> NotEquivalent ba).
Proof.
  intros Hsound Hdec HA HB ab ba.
  destruct (equivalent_iff_agree solve A B Hsound Hdec HA HB) as (Cab & Eab).
  destruct (equivalent_iff_agree solve B A Hsound Hdec HB HA) as (Cba & Eba).
  fold ab in Cab, Eab. fold ba in Cba, Eba.
  assert (E : Equivalent ab <-> Equivalent ba).
  { rewrite Eab, Eba. split; intros (Hlen & H);
      (split; [now symmetry | intros v Hv; apply agree_on_swap; now apply H]). }
  split; [exact E|].
  unfold Equivalent, NotEquivalent in *.
  split; intros (x & Hx).
  - destruct Cba as [Hb|Hb]; [|exact Hb].
    apply E in Hb. rewrite Hb in Hx. discriminate.
  - destruct Cab as [Ha|Ha]; [|exact Ha].
    apply E in Ha. rewrite Ha in Hx. discriminate.
Qed.

Lemma verdict_symmetric_witness :
  let ab := CircuitEquivalence.outcome
              (CircuitEquivalence.check_circuit_equivalence Z3.search multi1
                                                            multi2_and) in
  let ba := CircuitEquivalence.outcome
              (CircuitEquivalence.check_circuit_equivalence Z3.search multi2_and
                                                            multi1) in
  (Equivalent ab <-> Equivalent ba) /\ (NotEquivalent ab <-> NotEquivalent ba).
Proof.
  apply (verdict_symmetric Z3.search multi1 multi2_and);
    [exact search_sound | exact search_decides | reflexivity | reflexivity].
Defined.

(** The value of a signal depends on the assignment only through the
    primary inputs of the circuit. *)
Lemma output_value_ext (circuit : Circuit.t) (v1 v2 : string -> bool) (out : string) :
  (forall x, In x (Circuit.inputs circuit) -> v1 x = v2 x) ->
  output_value circuit v1 out = output_value circuit v2 out.
Proof.
  intros H. unfold output_value, input_values.
  assert (E : forall env,
             fold_left (fun env inp => Dict.setitem env inp (v1 inp))
                       (Circuit.inputs circuit) env
             = fold_left (fun env inp => Dict.setitem env inp (v2 inp))
                         (Circuit.inputs circuit) env).
  { induction (Circuit.inputs circuit) as [|inp rest IH]; intros env;
      [reflexivity|].
    simpl. rewrite (H inp (or_introl eq_refl)). apply IH.
    intros x Hx. apply H. now right. }
  now rewrite E.
Qed.

(** What a returned counterexample was extracted from. *)
Lemma counterexample_facts (solve : list Z3.expr -> Z3.check_result)
    (A B : Circuit.t) (input_assignment : Dict.t bool)
    (differing_outputs : list (string * string * bool * bool)) :
  CircuitEquivalence.outcome (CircuitEquivalence.check_circuit_equivalence solve A B)
  = Ok (false, Some (input_assignment, differing_outputs)) ->
  exists outputs1 outputs2 miter m,
    compile A = Ok outputs1 /\ compile B = Ok outputs2
    /\ solve [miter] = Z3.sat m
    /\ (Z3.satisfies m [miter] = true ->
        exists x y b1 b2, In (x, y, b1, b2) differing_outputs)
    /\ (forall k, Dict.get input_assignment k
                  = if contains (Circuit.inputs A) k then Some (m k) else None)
    /\ (forall x y b1 b2,
          In (x, y, b1, b2) differing_outputs
          <-> In (x, y) (combine (distinct (Circuit.outputs A))
                                 (distinct (Circuit.outputs B)))
              /\ differs_under m outputs1 outputs2 x y b1 b2).
Proof.
  intros H.
  destruct (structurally_valid A) eqn:HA;
    [|rewrite check_exit in H by (now left); discriminate].
  destruct (structurally_valid B) eqn:HB;
    [|rewrite check_exit in H by (now right); discriminate].
  destruct (compile_valid A HA) as (o1 & CA & KA & _).
  destruct (compile_valid B HB) as (o2 & CB & KB & _).
  pose proof (check_run solve A B o1 o2 CA CB) as R. cbv zeta in R.
  rewrite KA, KB in R.
  destruct (_ =? _)%nat; [|rewrite R in H; discriminate].
  destruct R as (dcs & miter & _ & _ & _ & Hsem & Hm).
  destruct (solve [miter]) as [m| |] eqn:S;
    [|rewrite Hm in H; discriminate|rewrite Hm in H; discriminate].
  destruct Hm as (ia & ds & Ho & _ & Hv & Hd).
  rewrite Ho in H. injection H as <- <-.
  exists o1, o2, miter, m. repeat (split; [assumption|]). split; [|split].
  - intros Hs. apply Hsem in Hs. destruct Hs as (x & y & b1 & b2 & Hin & D).
    exists x, y, b1, b2. now apply Hd.
  - exact Hv.
  - exact Hd.
Qed.

(** X6: a counterexample can be replayed when the second circuit declares
    no input the first one lacks: driving both circuits with the reported
    input assignment gives every reported pair of outputs the two reported
    values, which differ; with a sound solver at least one pair is
    reported. *)
Theorem counterexample_replays (solve : list Z3.expr -> Z3.check_result)
    (A B : Circuit.t) (input_assignment : Dict.t bool)
    (differing_outputs : list (string * string * bool * bool)) :
  Z3.sound solve ->
  (forall x, In x (Circuit.inputs B) -> In x (Circuit.inputs A)) ->
  CircuitEquivalence.outcome (CircuitEquivalence.check_circuit_equivalence solve A B)
  = Ok (false, Some (input_assignment, differing_outputs)) ->
  differing_outputs <> []
  /\ forall out1 out2 val1 val2,
       In (out1, out2, val1, val2) differing_outputs ->
       output_value A (Z3.model_of input_assignment) out1 = Some val1
       /\ output_value B (Z3.model_of input_assignment) out2 = Some val2
       /\ val1 <> val2.
Proof.
  intros Hsound Hsub H.
  destruct (counterexample_facts solve A B _ _ H)
    as (o1 & o2 & miter & m & CA & CB & S & Hne & Hv & Hd).
  assert (Hm : forall x, In x (Circuit.inputs A) ->
                         Z3.model_of input_assignment x = m x).
  { intros x Hx. unfold Z3.model_of. rewrite Hv.
    apply contains_In in Hx. now rewrite Hx. }
  split.
  - destruct (Hne (Z3.sat_sound solve Hsound _ _ S)) as (x & y & b1 & b2 & Hin).
    intros E. now rewrite E in Hin.
  - intros out1 out2 val1 val2 Hin. apply Hd in Hin as (Hin & D).
    apply (differs_under_values A B o1 o2 m _ _ _ _ CA CB Hin) in D.
    destruct D as (D1 & D2 & Hneq).
    rewrite (output_value_ext A _ m out1 Hm).
    rewrite (output_value_ext B _ m out2 (fun x Hx => Hm x (Hsub x Hx))).
    now repeat split.
Qed.

Lemma counterexample_replays_witness :
  [("E", "E", false, true)] <> []
  /\ forall out1 out2 val1 val2,
       In (out1, out2, val1, val2) [("E", "E", false, true)] ->
       output_value distr1
         (Z3.model_of [("A", false); ("B", true); ("C", false)]) out1 = Some val1
       /\ output_value distr2_or
            (Z3.model_of [("A", false); ("B", true); ("C", false)]) out2 = Some val2
       /\ val1 <> val2.
Proof.
  apply (counterexample_replays Z3.search distr1 distr2_or);
    [exact search_sound | intros x H; exact H | vm_compute; reflexivity].
Defined.

(** ** Gate types in any case *)

Lemma upper_ascii_idempotent (c : ascii) : upper_ascii (upper_ascii c) = upper_ascii c.
Proof. destruct c as [[] [] [] [] [] [] [] []]; reflexivity. Qed.

Lemma upper_idempotent (s : string) : upper (upper s) = upper s.
Proof.
  induction s as [|c s IH]; simpl; [reflexivity|].
  now rewrite upper_ascii_idempotent, IH.
Qed.

Lemma process_gates_uppercase (gs : list Gate.t) :
  forall gate_names variables expr_map,
    CircuitEquivalence.process_gates
      (map (fun gate =>
              Gate.make (Gate.name gate) (upper (Gate.type gate)) (Gate.inputs gate))
           gs) gate_names variables expr_map
    = CircuitEquivalence.process_gates gs gate_names variables expr_map.
Proof.
  induction gs as [|gate rest IH]; intros gate_names variables expr_map;
    [reflexivity|].
  cbn [map CircuitEquivalence.process_gates Gate.name Gate.type Gate.inputs].
  cbv zeta. rewrite upper_idempotent.
  destruct (set_mem _ _ _); [reflexivity|].
  destruct (check_defined _ _ _); [|reflexivity]. cbn [bind].
  destruct (gate_function _ _ _ _); [|reflexivity]. cbn [bind].
  apply IH.
Qed.

Lemma build_z3_expr_uppercase (circuit : Circuit.t) (variables : set string)
    (z3_vars : Dict.t Z3.expr) (prefix : string) :
  CircuitEquivalence.build_z3_expr (uppercase_types circuit) variables z3_vars prefix
  = CircuitEquivalence.build_z3_expr circuit variables z3_vars prefix.
Proof.
  unfold CircuitEquivalence.build_z3_expr, uppercase_types.
  cbn [Circuit.inputs Circuit.gates Circuit.outputs].
  destruct (CircuitEquivalence.bind_inputs _ _ _ _) as [[[v z] em]|e];
    [|reflexivity].
  cbn [bind]. now rewrite process_gates_uppercase.
Qed.

Lemma check_uppercase (solve : list Z3.expr -> Z3.check_result) (A B : Circuit.t) :
  CircuitEquivalence.check_circuit_equivalence solve (uppercase_types A)
                                               (uppercase_types B)
  = CircuitEquivalence.check_circuit_equivalence solve A B.
Proof.
  unfold CircuitEquivalence.check_circuit_equivalence.
  rewrite build_z3_expr_uppercase.
  destruct (CircuitEquivalence.build_z3_expr A _ _ _) as [[[o1 v1] z1]|e];
    [|reflexivity].
  cbn [bind]. now rewrite build_z3_expr_uppercase.
Qed.

(** X7: gate types are read without regard to case: two pairs of circuits
    that are equal once their gate types are written in upper case get the
    same result, value or exit, and cause the same solver queries. *)
Theorem check_ignores_case_of_gate_types
    (solve : list Z3.expr -> Z3.check_result) (A A' B B' : Circuit.t) :
  uppercase_types A = uppercase_types A' ->
  uppercase_types B = uppercase_types B' ->
  CircuitEquivalence.check_circuit_equivalence solve A B
  = CircuitEquivalence.check_circuit_equivalence solve A' B'.
Proof.
  intros HA HB.
  rewrite <- (check_uppercase solve A B), <- (check_uppercase solve A' B').
  now rewrite HA, HB.
Qed.

Lemma check_ignores_case_witness :
  CircuitEquivalence.check_circuit_equivalence Z3.search distr1 distr2_or_mixed
  = CircuitEquivalence.check_circuit_equivalence Z3.search distr1 distr2_or.
Proof.
  apply (check_ignores_case_of_gate_types Z3.search distr1 distr1
           distr2_or_mixed distr2_or); reflexivity.
Defined.

(** ** The free variables of the query *)

Lemma getitem_Ok {V : Type} (d : Dict.t V) (k : string) (v : V) :
  Dict.getitem d k = Ok v -> Dict.get d k = Some v.
Proof.
  unfold Dict.getitem. destruct (Dict.get d k); [now intros [= ->] | discriminate].
Qed.

Lemma mapM_getitem_names (xs : list string) (expr_map : Dict.t Z3.expr)
    (sigs : list string) (es : list Z3.expr) :
  names_among xs expr_map ->
  mapM (Dict.getitem expr_map) sigs = Ok es ->
  forall x, In x (flat_map Z3.names es) -> In x xs.
Proof.
  intros HN. revert es. induction sigs as [|s sigs IH]; intros es H x.
  - injection H as <-. intros [].
  - cbn [mapM] in H. destruct (Dict.getitem expr_map s) as [a|] eqn:G;
      [|discriminate]. cbn [bind] in H.
    destruct (mapM _ sigs) as [es'|]; [|discriminate]. injection H as <-.
    simpl. rewrite in_app_iff. intros [Hx|Hx].
    + exact (HN _ _ _ (getitem_Ok _ _ _ G) Hx).
    + now apply (IH es').
Qed.

Ltac unbind H :=
  repeat match type of H with
         | bind ?r _ = Ok _ =>
             let E := fresh "E" in
             destruct r eqn:E; cbn [bind] in H; [|discriminate]
         end.

Lemma gate_function_names (xs : list string) (expr_map : Dict.t Z3.expr)
    (gate_name gate_type : string) (gate_inputs : list string) (e : Z3.expr) :
  names_among xs expr_map ->
  gate_function expr_map gate_name gate_type gate_inputs = Ok e ->
  forall x, In x (Z3.names e) -> In x xs.
Proof.
  intros HN H. unfold gate_function in H.
  pose proof (mapM_getitem_names xs expr_map gate_inputs) as HM.
  assert (HG : forall s a x, Dict.getitem expr_map s = Ok a ->
                             In x (Z3.names a) -> In x xs).
  { intros s a x G. exact (HN _ _ _ (getitem_Ok _ _ _ G)). }
  repeat match type of H with
         | (if negb _ then _ else _) = Ok _ =>
             destruct (negb _); [discriminate|]
         | (if ?c then _ else _) = Ok _ => destruct c
         end;
    unbind H; try discriminate; injection H as <-; simpl; intros x Hx;
    try (now apply (HM _ HN E));
    repeat (apply in_app_or in Hx as [Hx|Hx]); eauto.
Qed.

Lemma process_gates_names (xs : list string) (gs : list Gate.t) :
  forall gate_names variables variables' expr_map expr_map',
    names_among xs expr_map ->
    CircuitEquivalence.process_gates gs gate_names variables expr_map
    = Ok (variables', expr_map') ->
    names_among xs expr_map'.
Proof.
  induction gs as [|gate rest IH];
    intros gate_names variables variables' expr_map expr_map' HN H.
  - injection H as _ <-. exact HN.
  - cbn [CircuitEquivalence.process_gates] in H. cbv zeta in H.
    destruct (set_mem _ _ _); [discriminate|]. unbind H.
    apply (IH _ _ _ _ _) with (2 := H).
    intros k e x. rewrite get_setitem. destruct (k =? Gate.name gate).
    + intros [= <-]. exact (gate_function_names _ _ _ _ _ _ HN E0 x).
    + apply HN.
Qed.

Lemma get_input_map (inps : list string) (expr_map : Dict.t Z3.expr) (k : string) :
  Dict.get (input_map inps expr_map) k
  = if contains inps k then Some (Z3.Bool k) else Dict.get expr_map k.
Proof.
  unfold input_map. revert expr_map.
  induction inps as [|inp rest IH]; intros expr_map; [reflexivity|].
  simpl. rewrite IH, get_setitem, contains_cons.
  destruct (contains rest k); [now rewrite Bool.orb_true_r|].
  rewrite Bool.orb_false_r. destruct (k =? inp) eqn:E; [|reflexivity].
  apply String.eqb_eq in E. now subst.
Qed.

(** The compiled outputs of a circuit are built from its primary inputs. *)
Lemma compile_names (circuit : Circuit.t) (output_expr : Dict.t Z3.expr) :
  compile circuit = Ok output_expr ->
  names_among (Circuit.inputs circuit) output_expr.
Proof.
  unfold compile, CircuitEquivalence.build_z3_expr.
  destruct (bind_inputs_spec (Circuit.inputs circuit) (empty_set string)
              Dict.empty Dict.empty by_name_empty) as (v & z & -> & _ & _).
  cbn [bind].
  destruct (CircuitEquivalence.process_gates _ _ _ _) as [[v' em]|] eqn:EP;
    [|discriminate].
  cbn [bind].
  pose proof (map_outputs_spec em (Circuit.outputs circuit) Dict.empty) as HM.
  destruct (map_outputs _ _ _) as [o|]; [|discriminate].
  cbn [bind]. intros [= <-]. destruct HM as (_ & _ & Hget).
  assert (HN : names_among (Circuit.inputs circuit) em).
  { apply (process_gates_names _ _ _ _ _ _ _) with (2 := EP).
    intros k e x. rewrite get_input_map.
    destruct (contains (Circuit.inputs circuit) k) eqn:C; [|discriminate].
    intros [= <-] [<-|[]]. now apply contains_In. }
  intros k e x. rewrite Hget.
  destruct (contains (Circuit.outputs circuit) k); [apply HN | discriminate].
Qed.

(** X8: gate signals never become solver variables in the equivalence
    check: every variable of every formula the call submits is a primary
    input of one of the two circuits. *)
Theorem query_variables_are_inputs
    (solve : list Z3.expr -> Z3.check_result) (A B : Circuit.t)
    (fs : list Z3.expr) (f : Z3.expr) (x : string) :
  In fs (CircuitEquivalence.queries
           (CircuitEquivalence.check_circuit_equivalence solve A B)) ->
  In f fs ->
  In x (Z3.names f) ->
  In x (Circuit.inputs A) \/ In x (Circuit.inputs B).
Proof.
  intros Hfs Hf Hx.
  destruct (structurally_valid A) eqn:HA;
    [|rewrite check_exit in Hfs by (now left); destruct Hfs].
  destruct (structurally_valid B) eqn:HB;
    [|rewrite check_exit in Hfs by (now right); destruct Hfs].
  destruct (compile_valid A HA) as (o1 & CA & _).
  destruct (compile_valid B HB) as (o2 & CB & _).
  pose proof (check_run solve A B o1 o2 CA CB) as R. cbv zeta in R.
  destruct (_ =? _)%nat; [|rewrite R in Hfs; destruct Hfs].
  destruct R as (dcs & miter & HF & -> & Q & _).
  rewrite Q in Hfs. destruct Hfs as [<-|[]]. destruct Hf as [<-|[]].
  simpl in Hx. apply in_flat_map in Hx as (dc & Hdc & Hx).
  clear Q. induction HF as [|pair c pairs dcs' Hc _ IH]; [destruct Hdc|].
  destruct Hdc as [->|Hdc]; [|now apply IH].
  destruct Hc as (e1 & e2 & G1 & G2 & ->). simpl in Hx.
  apply in_app_or in Hx as [Hx|Hx].
  - left. exact (compile_names A o1 CA _ _ _ G1 Hx).
  - right. exact (compile_names B o2 CB _ _ _ G2 Hx).
Qed.

(** The second circuit of the witness has the gate [x], which is no
    variable of the query. *)
Lemma query_variables_witness :
  In "b" (Circuit.inputs just_a) \/ In "b" (Circuit.inputs a_and_b).
Proof.
  apply (query_variables_are_inputs Z3.search just_a a_and_b
           [Z3.Or [Z3.Distinct (Z3.Bool "a") (Z3.And [Z3.Bool "a"; Z3.Bool "b"])]]
           (Z3.Or [Z3.Distinct (Z3.Bool "a") (Z3.And [Z3.Bool "a"; Z3.Bool "b"])])
           "b"); simpl; tauto.
Defined.

(* ================================================================== *)
(** * Further properties of circuit-evaluator.py *)

(** ** [build_z3_expr], constrained mode *)

(** X9: in constrained mode every signal is a variable of its own name:
    the constraints [build_z3_expr] returns hold in a model exactly when
    every gate's variable has the value of the gate's function on the
    variables of its inputs, every output maps to its variable, and
    [z3_vars] gains exactly the primary inputs and the gate names. *)
Theorem constraints_define_the_gates
    (circuit : Circuit.t) (z3_vars z3_vars' outputs : Dict.t Z3.expr)
    (constraints : list Z3.expr) :
  by_name z3_vars ->
  CircuitEvaluator.build_z3_expr circuit z3_vars
  = Ok (outputs, constraints, z3_vars') ->
  (forall m, Z3.satisfies m constraints = consistent circuit m)
  /\ (forall out, In out (Circuit.outputs circuit) ->
                  Dict.get outputs out = Some (Z3.Bool out))
  /\ (forall k, Dict.contains z3_vars' k
                = contains (namespace circuit) k || Dict.contains z3_vars k).
Proof.
  intros Hz HB. pose proof (evaluator_build_spec circuit z3_vars Hz) as H.
  rewrite HB in H. destruct H as (_ & _ & Hc & Hsat & Hout). now repeat split.
Qed.

Lemma constraints_define_the_gates_witness :
  (forall m,
      Z3.satisfies m
        [Z3.Eq (Z3.Bool "D") (Z3.And [Z3.Bool "A"; Z3.Bool "B"]);
         Z3.Eq (Z3.Bool "E") (Z3.Or [Z3.Bool "D"; Z3.Bool "C"])]
      = consistent distr1 m)
  /\ (forall out, In out (Circuit.outputs distr1) ->
                  Dict.get [("E", Z3.Bool "E")] out = Some (Z3.Bool out))
  /\ (forall k,
         Dict.contains
           [("A", Z3.Bool "A"); ("B", Z3.Bool "B"); ("C", Z3.Bool "C");
            ("D", Z3.Bool "D"); ("E", Z3.Bool "E")] k
         = contains (namespace distr1) k || Dict.contains (@Dict.empty Z3.expr) k).
Proof.
  apply (constraints_define_the_gates distr1 Dict.empty);
    [exact by_name_empty | reflexivity].
Defined.

(** ** Assignments to names the circuit does not have *)

Lemma first_failure {A : Type} (P : A -> bool) (l : list A) :
  forallb P l = true
  \/ exists pre x post, l = pre ++ x :: post /\ forallb P pre = true /\ P x = false.
Proof.
  induction l as [|a l IH]; [now left|].
  simpl. destruct (P a) eqn:E.
  - destruct IH as [H|(pre & x & post & -> & Hpre & Hx)]; [now left|].
    right. exists (a :: pre), x, post. simpl. now rewrite E.
  - right. now exists [], a, l.
Qed.

Lemma forallb_keys (xs : list string) (items : Dict.t bool) :
  forallb (fun entry => contains xs (fst entry)) items = true
  <-> forall k, In k (Dict.keys items) -> In k xs.
Proof.
  rewrite forallb_forall. unfold Dict.keys. split.
  - intros H k Hk. apply in_map_iff in Hk as (entry & <- & Hin).
    now apply contains_In, H.
  - intros H entry Hin. apply contains_In, H. now apply in_map.
Qed.

Lemma apply_input_assignments_stops (circuit : Circuit.t) (z3_vars : Dict.t Z3.expr)
    (pre post : list (string * bool)) (x : string) (b : bool) :
  by_name z3_vars ->
  (forall k, In k (Circuit.inputs circuit) -> Dict.contains z3_vars k = true) ->
  (forall k, In k (Dict.keys pre) -> In k (Circuit.inputs circuit)) ->
  ~ In x (Circuit.inputs circuit) ->
  forall solver,
    CircuitEvaluator.apply_input_assignments circuit z3_vars
      (pre ++ (x, b) :: post) solver
    = Ok (CircuitEvaluator.Return
            (false, CircuitEvaluator.Message (undefined_input_message x))).
Proof.
  intros Hz Hin Hpre Hx. induction pre as [|[inp val] pre IH]; intros solver.
  - cbn [app CircuitEvaluator.apply_input_assignments].
    now rewrite (proj2 (contains_false _ _) Hx).
  - cbn [app CircuitEvaluator.apply_input_assignments].
    assert (Hi : In inp (Circuit.inputs circuit)) by (apply Hpre; now left).
    rewrite (proj2 (contains_In _ _) Hi). cbn [negb].
    destruct (getitem_contains _ _ (Hin _ Hi)) as (v & _ & ->). cbn [bind].
    apply IH. intros k Hk. apply Hpre. now right.
Qed.

Lemma apply_signal_assignments_stops (z3_vars : Dict.t Z3.expr)
    (pre post : list (string * bool)) (x : string) (b : bool) :
  (forall k, In k (Dict.keys pre) -> Dict.contains z3_vars k = true) ->
  Dict.contains z3_vars x = false ->
  forall solver,
    CircuitEvaluator.apply_signal_assignments z3_vars (pre ++ (x, b) :: post) solver
    = Ok (CircuitEvaluator.Return
            (false, CircuitEvaluator.Message (undefined_signal_message x))).
Proof.
  intros Hpre Hx. induction pre as [|[sig val] pre IH]; intros solver.
  - cbn [app CircuitEvaluator.apply_signal_assignments]. now rewrite Hx.
  - cbn [app CircuitEvaluator.apply_signal_assignments].
    assert (C : Dict.contains z3_vars sig = true) by (apply Hpre; now left).
    rewrite C. cbn [negb].
    destruct (getitem_contains _ _ C) as (v & _ & ->). cbn [bind].
    apply IH. intros k Hk. apply Hpre. now right.
Qed.

(** The state in which [validate_circuit] reads the assignments of a
    circuit that compiles. *)
Lemma validate_build (circuit : Circuit.t) :
  structurally_valid circuit = true ->
  exists outputs constraints z3_vars,
    CircuitEvaluator.build_z3_expr circuit Dict.empty
    = Ok (outputs, constraints, z3_vars)
    /\ by_name z3_vars
    /\ forall k, Dict.contains z3_vars k = contains (namespace circuit) k.
Proof.
  intros Hsv.
  pose proof (evaluator_build_spec circuit Dict.empty by_name_empty) as HB.
  destruct (CircuitEvaluator.build_z3_expr circuit Dict.empty)
    as [[[outputs constraints] z3_vars]|[]]; try contradiction; [|congruence].
  destruct HB as (_ & Hz & Hc & _). exists outputs, constraints, z3_vars.
  split; [reflexivity|]. split; [exact Hz|].
  intros k. rewrite Hc. apply Bool.orb_false_r.
Qed.

(** The two early returns of [validate_circuit], on the tests the loops
    make. *)
Lemma validate_stops_at_input
    (solve : list Z3.expr -> Z3.check_result) (circuit : Circuit.t)
    (pre post : list (string * bool)) (x : string) (b : bool)
    (signal_assignments : option (Dict.t bool)) :
  structurally_valid circuit = true ->
  forallb (fun entry => contains (Circuit.inputs circuit) (fst entry)) pre = true ->
  contains (Circuit.inputs circuit) x = false ->
  CircuitEvaluator.validate_circuit solve circuit (pre ++ (x, b) :: post)
                                    signal_assignments
  = Ok (false, CircuitEvaluator.Message (undefined_input_message x)).
Proof.
  intros Hsv Hpre Hx.
  destruct (validate_build circuit Hsv) as (o & cs & z & HB & Hz & Hc).
  unfold CircuitEvaluator.validate_circuit. rewrite HB.
  unfold Dict.items. rewrite apply_input_assignments_stops; auto.
  - intros k Hk. rewrite Hc. apply contains_In, in_or_app. now left.
  - now apply forallb_keys.
  - now apply contains_false.
Qed.

Lemma validate_stops_at_signal
    (solve : list Z3.expr -> Z3.check_result) (circuit : Circuit.t)
    (input_assignments : Dict.t bool) (signal_assignments : option (Dict.t bool))
    (pre post : list (string * bool)) (x : string) (b : bool) :
  structurally_valid circuit = true ->
  forallb (fun entry => contains (Circuit.inputs circuit) (fst entry))
          input_assignments = true ->
  entries signal_assignments = pre ++ (x, b) :: post ->
  forallb (fun entry => contains (namespace circuit) (fst entry)) pre = true ->
  contains (namespace circuit) x = false ->
  CircuitEvaluator.validate_circuit solve circuit input_assignments
                                    signal_assignments
  = Ok (false, CircuitEvaluator.Message (undefined_signal_message x)).
Proof.
  intros Hsv Hia E Hpre Hx.
  assert (Es : signal_assignments = Some (pre ++ (x, b) :: post)).
  { destruct signal_assignments as [d|]; simpl in E; [now subst|].
    now destruct pre. }
  subst signal_assignments. clear E.
  destruct (validate_build circuit Hsv) as (o & cs & z & HB & Hz & Hc).
  unfold CircuitEvaluator.validate_circuit. rewrite HB.
  rewrite (apply_input_assignments_spec circuit z input_assignments Hz); auto.
  2:{ intros k Hk. rewrite Hc. apply contains_In, in_or_app. now left. }
  2:{ now apply forallb_keys. }
  cbn [bind].
  assert (T : CircuitEvaluator.truthy (Some (pre ++ (x, b) :: post)) = true)
    by now destruct pre.
  rewrite T. unfold Dict.items. rewrite apply_signal_assignments_stops.
  - reflexivity.
  - intros k Hk. rewrite Hc.
    now apply contains_In, (proj1 (forallb_keys (namespace circuit) pre)).
  - now rewrite Hc.
Qed.

(** X10: an input assignment to a name that is not a primary input, a gate
    name included, ends the call with [(False, message)] naming the first
    such key, whatever the solver, the later entries and the signal
    assignments are. *)
Theorem undefined_input_reported
    (solve : list Z3.expr -> Z3.check_result) (circuit : Circuit.t)
    (pre post : list (string * bool)) (x : string) (b : bool)
    (signal_assignments : option (Dict.t bool)) :
  structurally_valid circuit = true ->
  (forall k, In k (Dict.keys pre) -> In k (Circuit.inputs circuit)) ->
  ~ In x (Circuit.inputs circuit) ->
  CircuitEvaluator.validate_circuit solve circuit (pre ++ (x, b) :: post)
                                    signal_assignments
  = Ok (false, CircuitEvaluator.Message (undefined_input_message x)).
Proof.
  intros Hsv Hpre Hx. apply validate_stops_at_input; [exact Hsv | |].
  - now apply forallb_keys.
  - now apply contains_false.
Qed.

Lemma undefined_input_witness :
  CircuitEvaluator.validate_circuit Z3.search distr1
    ([("A", true)] ++ ("D", true) :: [("Z", false)]) None
  = Ok (false, CircuitEvaluator.Message (undefined_input_message "D")).
Proof.
  apply (undefined_input_reported Z3.search distr1 [("A", true)] [("Z", false)]
           "D" true None);
    [reflexivity | simpl; tauto | simpl; intuition discriminate].
Defined.

(** X11: when every input assignment names a primary input, a signal
    assignment to a name that is neither a primary input nor a gate ends the
    call with [(False, message)] naming the first such key, whatever the
    solver is. *)
Theorem undefined_signal_reported
    (solve : list Z3.expr -> Z3.check_result) (circuit : Circuit.t)
    (input_assignments : Dict.t bool)
    (pre post : list (string * bool)) (x : string) (b : bool) :
  structurally_valid circuit = true ->
  (forall k, In k (Dict.keys input_assignments) -> In k (Circuit.inputs circuit)) ->
  (forall k, In k (Dict.keys pre) -> In k (namespace circuit)) ->
  ~ In x (namespace circuit) ->
  CircuitEvaluator.validate_circuit solve circuit input_assignments
                                    (Some (pre ++ (x, b) :: post))
  = Ok (false, CircuitEvaluator.Message (undefined_signal_message x)).
Proof.
  intros Hsv Hia Hpre Hx.
  apply (validate_stops_at_signal solve circuit input_assignments _ pre post x b);
    [exact Hsv | | reflexivity | |].
  - now apply forallb_keys.
  - now apply forallb_keys.
  - now apply contains_false.
Qed.

Lemma undefined_signal_witness :
  CircuitEvaluator.validate_circuit Z3.search distr1 [("A", true)]
    (Some ([("D", true); ("B", false)] ++ ("Z", true) :: []))
  = Ok (false, CircuitEvaluator.Message (undefined_signal_message "Z")).
Proof.
  apply (undefined_signal_reported Z3.search distr1 [("A", true)]
           [("D", true); ("B", false)] [] "Z" true);
    [reflexivity | simpl; tauto | simpl; tauto | simpl; intuition discriminate].
Defined.

(** ** The results of [validate_circuit] *)

(** X12: [validate_circuit] raises nothing, on any circuit, assignments and
    solver: it returns [(True, outputs)] or [(False, message)]. *)
Theorem validate_circuit_returns
    (solve : list Z3.expr -> Z3.check_result) (circuit : Circuit.t)
    (input_assignments : Dict.t bool) (signal_assignments : option (Dict.t bool)) :
  (exists output_values,
      CircuitEvaluator.validate_circuit solve circuit input_assignments
                                        signal_assignments
      = Ok (true, CircuitEvaluator.Outputs output_values))
  \/ (exists msg,
         CircuitEvaluator.validate_circuit solve circuit input_assignments
                                           signal_assignments
         = Ok (false, CircuitEvaluator.Message msg)).
Proof.
  destruct (structurally_valid circuit) eqn:Hsv.
  2:{ right. destruct (validate_invalid solve circuit input_assignments
                         signal_assignments Hsv) as (msg & _ & H).
      now exists msg. }
  destruct (first_failure (fun entry => contains (Circuit.inputs circuit) (fst entry))
              input_assignments) as [Hia|(pre & [x b] & post & -> & Hpre & Hx)].
  2:{ right. eexists. now apply validate_stops_at_input. }
  destruct (first_failure (fun entry => contains (namespace circuit) (fst entry))
              (entries signal_assignments))
    as [Hsa|(pre & [x b] & post & E & Hpre & Hx)].
  2:{ right. eexists.
      now apply (validate_stops_at_signal solve circuit _ _ pre post x b). }
  destruct (validate_run solve circuit input_assignments signal_assignments Hsv)
    as (fs & _ & Hm).
  { now apply forallb_keys. }
  { now apply (forallb_keys (namespace circuit)). }
  destruct (solve fs) as [m| |]; [|right; eexists; exact Hm..].
  destruct Hm as (ov & -> & _). left. now eexists.
Qed.

(** X13: every answer of the solver other than [sat] is reported as a
    contradiction: if the solver gives up ([unknown]) on a structurally
    valid circuit with assignments to existing names, the call returns
    [(False, contradiction message)], consistent or not. *)
Theorem unknown_reported_contradiction
    (solve : list Z3.expr -> Z3.check_result) (circuit : Circuit.t)
    (input_assignments : Dict.t bool) (signal_assignments : option (Dict.t bool)) :
  (forall fs, solve fs = Z3.unknown) ->
  structurally_valid circuit = true ->
  (forall k, In k (Dict.keys input_assignments) -> In k (Circuit.inputs circuit)) ->
  (forall k, In k (Dict.keys (entries signal_assignments)) ->
             In k (namespace circuit)) ->
  CircuitEvaluator.validate_circuit solve circuit input_assignments signal_assignments
  = Ok (false, CircuitEvaluator.Message CircuitEvaluator.contradiction_message).
Proof.
  intros Hu Hsv Hia Hsa.
  destruct (validate_run solve circuit input_assignments signal_assignments
              Hsv Hia Hsa) as (fs & _ & Hm).
  now rewrite (Hu fs) in Hm.
Qed.

(** The first example of circuit-evaluator.py, whose assignment is
    consistent. *)
Lemma unknown_reported_contradiction_witness :
  CircuitEvaluator.validate_circuit no_answer distr1
    [("A", true); ("B", true); ("C", false)] None
  = Ok (false, CircuitEvaluator.Message CircuitEvaluator.contradiction_message).
Proof.
  apply (unknown_reported_contradiction no_answer distr1);
    [intros fs; reflexivity | reflexivity | simpl; tauto | simpl; tauto].
Defined.

(** ** Models consistent with the gates and the simulation *)

Lemma get_input_values (v : string -> bool) (inps : list string) (k : string) :
  Dict.get (input_values v inps) k = if contains inps k then Some (v k) else None.
Proof.
  unfold input_values.
  assert (G : forall env,
             Dict.get (fold_left (fun env inp => Dict.setitem env inp (v inp)) inps env) k
             = if contains inps k then Some (v k) else Dict.get env k).
  { induction inps as [|inp rest IH]; intros env; [reflexivity|].
    simpl. rewrite IH, get_setitem, contains_cons.
    destruct (contains rest k); [now rewrite Bool.orb_true_r|].
    rewrite Bool.orb_false_r. destruct (k =? inp) eqn:E; [|reflexivity].
    apply String.eqb_eq in E. now subst. }
  apply G.
Qed.

Lemma read_all_of_model (m : Z3.model) (env : Dict.t bool) (sigs : list string)
    (vals : list bool) :
  (forall k b, Dict.get env k = Some b -> b = m k) ->
  read_all env sigs = Some vals ->
  vals = map m sigs.
Proof.
  intros P. revert vals. induction sigs as [|s sigs IH]; intros vals.
  - now intros [= <-].
  - simpl. destruct (Dict.get env s) as [b|] eqn:G; [|discriminate].
    destruct (read_all env sigs) as [bs|]; [|discriminate].
    intros [= <-]. now rewrite (P _ _ G), (IH bs).
Qed.

Lemma simulate_of_model (m : Z3.model) (gs : list Gate.t) :
  forall env env',
    simulate gs env = Some env' ->
    forallb (consistent_gate m) gs = true ->
    (forall k b, Dict.get env k = Some b -> b = m k) ->
    forall k b, Dict.get env' k = Some b -> b = m k.
Proof.
  induction gs as [|gate rest IH]; intros env env' HS HC P.
  - injection HS as <-. exact P.
  - cbn [simulate] in HS. cbn [forallb] in HC.
    apply andb_prop in HC as (Hg & Hrest). unfold consistent_gate in Hg.
    destruct (read_all env (Gate.inputs gate)) as [vals|] eqn:R; [|discriminate].
    rewrite <- (read_all_of_model m env _ vals P R) in Hg.
    destruct (gate_value _ vals) as [b0|]; [|discriminate].
    apply Bool.eqb_prop in Hg.
    apply (IH _ _ HS Hrest). intros k b. rewrite get_setitem.
    destruct (k =? Gate.name gate) eqn:E; [|apply P].
    apply String.eqb_eq in E. subst k. now intros [= <-].
Qed.

(** In a model consistent with the gates every signal has the value the
    simulation computes from the model's inputs. *)
Lemma consistent_model_simulates (circuit : Circuit.t) (m : Z3.model)
    (k : string) (b : bool) :
  consistent circuit m = true ->
  output_value circuit m k = Some b ->
  b = m k.
Proof.
  unfold consistent, output_value. intros HC.
  destruct (simulate _ _) as [env|] eqn:HS; [|discriminate].
  apply (simulate_of_model m _ _ _ HS HC).
  intros k' b'. rewrite get_input_values.
  destruct (contains _ k'); [now intros [= <-] | discriminate].
Qed.

(** The simulation of a circuit that compiles gives a value to every
    signal of the circuit and to nothing else. *)
Lemma signal_values_defined (circuit : Circuit.t) (v : string -> bool) :
  structurally_valid circuit = true ->
  exists env, signal_values circuit v = Some env
              /\ forall k, Dict.contains env k = contains (namespace circuit) k.
Proof.
  intros Hsv. unfold structurally_valid in Hsv.
  apply andb_prop in Hsv as (Hg & _).
  set (em0 := input_map (Circuit.inputs circuit) Dict.empty).
  assert (Hd : forall k, Dict.contains em0 k = contains (Circuit.inputs circuit) k).
  { intros k. unfold em0. rewrite contains_input_map. apply Bool.orb_false_r. }
  pose proof (process_gates_spec (Circuit.gates circuit) (empty_set string)
                (empty_set string) em0 (Circuit.inputs circuit) [] Hd
                (fun k => eq_refl)) as HP.
  destruct (CircuitEquivalence.process_gates _ _ _ _) as [[v' em]|[]] eqn:EP;
    try contradiction; [|congruence].
  destruct HP as (_ & Hk).
  destruct (process_gates_values v _ _ _ _ _ _ _ EP
              (values_of_inputs v (Circuit.inputs circuit))) as (env & HS & Hv).
  exists env. split; [exact HS|].
  intros k. unfold namespace. rewrite contains_app, Bool.orb_comm, <- Hk.
  unfold Dict.contains. rewrite (Hv k). now destruct (Dict.get em k).
Qed.

Lemma simulate_keeps (gs : list Gate.t) :
  forall env env',
    simulate gs env = Some env' ->
    (forall gate, In gate gs -> Dict.get env (Gate.name gate) = None) ->
    NoDup (map Gate.name gs) ->
    forall k b, Dict.get env k = Some b -> Dict.get env' k = Some b.
Proof.
  induction gs as [|gate rest IH]; intros env env' HS Hnew Hnd k b Hk.
  - injection HS as <-. exact Hk.
  - cbn [simulate] in HS.
    destruct (read_all env (Gate.inputs gate)) as [vals|]; [|discriminate].
    destruct (gate_value _ vals) as [b0|]; [|discriminate].
    inversion Hnd as [|? ? Hnot Hnd']; subst.
    apply (IH _ _ HS); [|exact Hnd'|].
    + intros g Hg. rewrite get_setitem.
      destruct (Gate.name g =? Gate.name gate) eqn:E.
      * apply String.eqb_eq in E. exfalso. apply Hnot. rewrite <- E.
        now apply in_map.
      * apply Hnew. now right.
    + rewrite get_setitem. destruct (k =? Gate.name gate) eqn:E; [|exact Hk].
      apply String.eqb_eq in E. subst k.
      rewrite (Hnew gate (or_introl eq_refl)) in Hk. discriminate.
Qed.

Lemma read_all_completion (env env' : Dict.t bool) (v : string -> bool)
    (sigs : list string) (vals : list bool) :
  (forall k b, Dict.get env k = Some b -> Dict.get env' k = Some b) ->
  read_all env sigs = Some vals ->
  map (completion env' v) sigs = vals.
Proof.
  intros K. revert vals. induction sigs as [|s sigs IH]; intros vals.
  - now intros [= <-].
  - simpl. destruct (Dict.get env s) as [b|] eqn:G; [|discriminate].
    destruct (read_all env sigs) as [bs|]; [|discriminate].
    intros [= <-]. unfold completion at 1. now rewrite (K _ _ G), (IH bs).
Qed.

(** When no gate overwrites a signal, the signals the simulation ends with
    are consistent with every gate. *)
Lemma simulate_consistent (v : string -> bool) (gs : list Gate.t) :
  forall env env',
    simulate gs env = Some env' ->
    (forall gate, In gate gs -> Dict.get env (Gate.name gate) = None) ->
    NoDup (map Gate.name gs) ->
    forallb (consistent_gate (completion env' v)) gs = true.
Proof.
  induction gs as [|gate rest IH]; intros env env' HS Hnew Hnd; [reflexivity|].
  cbn [simulate] in HS.
  destruct (read_all env (Gate.inputs gate)) as [vals|] eqn:R; [|discriminate].
  destruct (gate_value _ vals) as [b0|] eqn:GV; [|discriminate].
  inversion Hnd as [|? ? Hnot Hnd']; subst.
  assert (Hnew' : forall g, In g rest ->
                            Dict.get (Dict.setitem env (Gate.name gate) b0)
                                     (Gate.name g) = None).
  { intros g Hg. rewrite get_setitem.
    destruct (Gate.name g =? Gate.name gate) eqn:E.
    - apply String.eqb_eq in E. exfalso. apply Hnot. rewrite <- E.
      now apply in_map.
    - apply Hnew. now right. }
  pose proof (simulate_keeps rest _ _ HS Hnew' Hnd') as K.
  cbn [forallb]. rewrite (IH _ _ HS Hnew' Hnd'), Bool.andb_true_r.
  unfold consistent_gate.
  assert (M : map (completion env' v) (Gate.inputs gate) = vals).
  { apply (read_all_completion env); [|exact R].
    intros k b Hk. apply K. rewrite get_setitem.
    destruct (k =? Gate.name gate) eqn:E; [|exact Hk].
    apply String.eqb_eq in E. subst k.
    rewrite (Hnew gate (or_introl eq_refl)) in Hk. discriminate. }
  rewrite M, GV. unfold completion.
  rewrite (K (Gate.name gate) b0); [apply Bool.eqb_reflx|].
  now rewrite get_setitem, String.eqb_refl.
Qed.

(** For a circuit that compiles and names no gate like an input, the
    simulated signals, completed by [v], are a model consistent with the
    gates that agrees with [v] on the primary inputs and agrees with the
    simulation on every signal. *)
Lemma simulation_is_consistent (circuit : Circuit.t) (v : string -> bool) :
  structurally_valid circuit = true ->
  gates_apart_from_inputs circuit = true ->
  exists env,
    signal_values circuit v = Some env
    /\ consistent circuit (completion env v) = true
    /\ (forall k, In k (Circuit.inputs circuit) -> completion env v k = v k)
    /\ (forall k b, Dict.get env k = Some b -> completion env v k = b).
Proof.
  intros Hsv Hapart.
  destruct (signal_values_defined circuit v Hsv) as (env & HS & _).
  exists env. split; [exact HS|]. unfold signal_values in HS.
  assert (Hnew : forall gate, In gate (Circuit.gates circuit) ->
                   Dict.get (input_values v (Circuit.inputs circuit))
                            (Gate.name gate) = None).
  { intros gate Hg. rewrite get_input_values.
    unfold gates_apart_from_inputs in Hapart. rewrite forallb_forall in Hapart.
    specialize (Hapart gate Hg). apply Bool.negb_true_iff in Hapart.
    now rewrite Hapart. }
  assert (Hnd : NoDup (map Gate.name (Circuit.gates circuit))).
  { unfold structurally_valid in Hsv. apply andb_prop in Hsv as (Hg & _).
    now apply gates_accepted_NoDup in Hg. }
  split; [|split].
  - exact (simulate_consistent v _ _ _ HS Hnew Hnd).
  - intros k Hk. unfold completion.
    rewrite (simulate_keeps _ _ _ HS Hnew Hnd k (v k)); [reflexivity|].
    rewrite get_input_values. apply contains_In in Hk. now rewrite Hk.
  - intros k b Hk. unfold completion. now rewrite Hk.
Qed.

Lemma consistent_signal (circuit : Circuit.t) (m : Z3.model) (k : string) :
  structurally_valid circuit = true ->
  consistent circuit m = true ->
  In k (namespace circuit) ->
  output_value circuit m k = Some (m k).
Proof.
  intros Hsv HC Hk.
  destruct (signal_values_defined circuit m Hsv) as (env & HS & Hdom).
  apply contains_In in Hk. rewrite <- Hdom in Hk.
  destruct (getitem_contains _ _ Hk) as (b & Hb & _).
  assert (E : output_value circuit m k = Some b).
  { unfold output_value. unfold signal_values in HS. now rewrite HS. }
  rewrite E. f_equal. now apply (consistent_model_simulates circuit m k b).
Qed.

Lemma outputs_in_namespace (circuit : Circuit.t) (out : string) :
  structurally_valid circuit = true ->
  In out (Circuit.outputs circuit) -> In out (namespace circuit).
Proof.
  unfold structurally_valid. intros H Hout. apply andb_prop in H as (_ & H).
  rewrite forallb_forall in H. now apply contains_In, H.
Qed.

(** A result [(True, outputs)] comes from a circuit that compiles and
    assignments to existing names, and reads the outputs in a model of the
    query. *)
Lemma valid_result_model (solve : list Z3.expr -> Z3.check_result)
    (circuit : Circuit.t) (input_assignments : Dict.t bool)
    (signal_assignments : option (Dict.t bool)) (output_values : Dict.t bool) :
  Z3.sound solve ->
  CircuitEvaluator.validate_circuit solve circuit input_assignments
                                    signal_assignments
  = Ok (true, CircuitEvaluator.Outputs output_values) ->
  structurally_valid circuit = true
  /\ (forall k, In k (Dict.keys (entries signal_assignments)) ->
                In k (namespace circuit))
  /\ exists m,
       consistent circuit m = true
       /\ agrees m input_assignments
       /\ agrees m (entries signal_assignments)
       /\ forall k, Dict.get output_values k
                    = if contains (Circuit.outputs circuit) k then Some (m k)
                      else None.
Proof.
  intros Hsound H.
  destruct (structurally_valid circuit) eqn:Hsv.
  2:{ destruct (validate_invalid solve circuit input_assignments
                  signal_assignments Hsv) as (msg & _ & E).
      rewrite E in H. discriminate. }
  destruct (first_failure (fun entry => contains (Circuit.inputs circuit) (fst entry))
              input_assignments) as [Hia|(pre & [x b] & post & -> & Hpre & Hx)].
  2:{ rewrite validate_stops_at_input in H; [discriminate | assumption..]. }
  destruct (first_failure (fun entry => contains (namespace circuit) (fst entry))
              (entries signal_assignments))
    as [Hsa|(pre & [x b] & post & E & Hpre & Hx)].
  2:{ rewrite (validate_stops_at_signal solve circuit _ _ pre post x b) in H;
        [discriminate | assumption..]. }
  pose proof (proj1 (forallb_keys _ _) Hia) as Hia'.
  pose proof (proj1 (forallb_keys _ _) Hsa) as Hsa'.
  clear Hia Hsa. rename Hia' into Hia, Hsa' into Hsa.
  split; [reflexivity|]. split; [exact Hsa|].
  destruct (validate_run solve circuit input_assignments signal_assignments
              Hsv Hia Hsa) as (fs & Hsem & Hm).
  destruct (solve fs) as [m| |] eqn:S;
    [|rewrite Hm in H; discriminate|rewrite Hm in H; discriminate].
  destruct Hm as (ov & Ho & Hget). rewrite Ho in H. injection H as <-.
  apply (Z3.sat_sound solve Hsound), Hsem in S. destruct S as (HC & Ha & Hs).
  now exists m.
Qed.

(** X14: a result [(True, outputs)] is an evaluation of the circuit: with
    a sound solver there is an assignment to the inputs that agrees with
    the given input assignments, under which the simulation gives every
    forced signal its forced value and every output the value reported for
    it. *)
Theorem valid_result_is_an_evaluation
    (solve : list Z3.expr -> Z3.check_result) (circuit : Circuit.t)
    (input_assignments : Dict.t bool) (signal_assignments : option (Dict.t bool))
    (output_values : Dict.t bool) :
  Z3.sound solve ->
  CircuitEvaluator.validate_circuit solve circuit input_assignments
                                    signal_assignments
  = Ok (true, CircuitEvaluator.Outputs output_values) ->
  exists v,
    agrees v input_assignments
    /\ (forall sig val, In (sig, val) (entries signal_assignments) ->
                        output_value circuit v sig = Some val)
    /\ (forall out, In out (Circuit.outputs circuit) ->
                    exists val, Dict.get output_values out = Some val
                                /\ output_value circuit v out = Some val).
Proof.
  intros Hsound H.
  destruct (valid_result_model solve circuit _ _ _ Hsound H)
    as (Hsv & Hsa & m & HC & Ha & Hs & Hget).
  exists m. split; [exact Ha|]. split.
  - intros sig val Hin. rewrite (consistent_signal circuit m sig Hsv HC).
    + f_equal. now apply Hs.
    + apply Hsa. unfold Dict.keys. change sig with (fst (sig, val)).
      now apply in_map.
  - intros out Hout. exists (m out). split.
    + rewrite Hget. apply contains_In in Hout. now rewrite Hout.
    + apply (consistent_signal circuit m out Hsv HC).
      now apply outputs_in_namespace.
Qed.

(** The witness leaves [C] to the solver. *)
Lemma valid_result_witness :
  exists v,
    agrees v [("A", true); ("B", true)]
    /\ (forall sig val, In (sig, val) (entries (Some [("D", true)])) ->
                        output_value distr1 v sig = Some val)
    /\ (forall out, In out (Circuit.outputs distr1) ->
                    exists val, Dict.get [("E", true)] out = Some val
                                /\ output_value distr1 v out = Some val).
Proof.
  apply (valid_result_is_an_evaluation Z3.search distr1 [("A", true); ("B", true)]
           (Some [("D", true)]) [("E", true)]);
    [exact search_sound | vm_compute; reflexivity].
Defined.

(** X15: for a structurally valid circuit that names no gate like a
    primary input and whose signal names hold no NUL character,
    assignments to existing names and a solver that is sound and always
    answers, the call answers [(True, outputs)] exactly when some
    assignment to the inputs agrees with the input assignments and makes
    the simulation give every forced signal its forced value. *)
Theorem valid_iff_some_evaluation_fits
    (solve : list Z3.expr -> Z3.check_result) (circuit : Circuit.t)
    (input_assignments : Dict.t bool) (signal_assignments : option (Dict.t bool)) :
  Z3.sound solve -> Z3.decides solve ->
  structurally_valid circuit = true ->
  gates_apart_from_inputs circuit = true ->
  forallb Z3.nul_free (namespace circuit) = true ->
  (forall k, In k (Dict.keys input_assignments) -> In k (Circuit.inputs circuit)) ->
  (forall k, In k (Dict.keys (entries signal_assignments)) ->
             In k (namespace circuit)) ->
  (exists output_values,
      CircuitEvaluator.validate_circuit solve circuit input_assignments
                                        signal_assignments
      = Ok (true, CircuitEvaluator.Outputs output_values))
  <-> exists v,
        agrees v input_assignments
        /\ forall sig val, In (sig, val) (entries signal_assignments) ->
                           output_value circuit v sig = Some val.
Proof.
  intros Hsound Hdec Hsv Hapart Hnul Hia Hsa. split.
  - intros (ov & H).
    destruct (valid_result_model solve circuit _ _ _ Hsound H)
      as (_ & _ & m & HC & Ha & Hs & _).
    exists m. split; [exact Ha|].
    intros sig val Hin. rewrite (consistent_signal circuit m sig Hsv HC).
    + f_equal. now apply Hs.
    + apply Hsa. unfold Dict.keys. change sig with (fst (sig, val)).
      now apply in_map.
  - intros (v & Ha & Hs).
    destruct (simulation_is_consistent circuit v Hsv Hapart)
      as (env & HS & HC & Hin & Henv).
    destruct (validate_run solve circuit input_assignments signal_assignments
                Hsv Hia Hsa) as (fs & Hsem & Hm).
    destruct (valuation_of_model circuit (completion env v) input_assignments
                (entries signal_assignments) Hsv Hnul)
      as (m' & Hm' & HC' & Ha' & Hs').
    { intros k Hk. unfold namespace. apply in_or_app. left. now apply Hia. }
    { exact Hsa. }
    { exact HC. }
    { intros k b Hk. rewrite Hin; [now apply Ha|].
      apply Hia. unfold Dict.keys. change k with (fst (k, b)). now apply in_map. }
    { intros k b Hk. apply Henv. specialize (Hs k b Hk).
      unfold output_value in Hs. unfold signal_values in HS.
      now rewrite HS in Hs. }
    assert (Hsat : Z3.satisfies m' fs = true).
    { apply Hsem. now repeat split. }
    destruct (solve fs) as [m| |] eqn:S.
    + destruct Hm as (ov & Ho & _). now exists ov.
    + rewrite (Z3.unsat_sound solve Hsound _ S m' Hm') in Hsat. discriminate.
    + exfalso. exact (Hdec _ S).
Qed.

Lemma valid_iff_witness :
  (exists output_values,
      CircuitEvaluator.validate_circuit Z3.search contradictory_circuit
        [("A", true)] (Some [("E2", true)])
      = Ok (true, CircuitEvaluator.Outputs output_values))
  <-> exists v,
        agrees v [("A", true)]
        /\ forall sig val, In (sig, val) (entries (Some [("E2", true)])) ->
                           output_value contradictory_circuit v sig = Some val.
Proof.
  apply (valid_iff_some_evaluation_fits Z3.search contradictory_circuit);
    [exact search_sound | exact search_decides | reflexivity | reflexivity
     | reflexivity | simpl; tauto | simpl; tauto].
Defined.

Lemma agrees_on_inputs (m : Z3.model) (circuit : Circuit.t)
    (input_assignments : Dict.t bool) :
  Dict.wf input_assignments ->
  (forall k, In k (Circuit.inputs circuit) -> In k (Dict.keys input_assignments)) ->
  agrees m input_assignments ->
  forall x, In x (Circuit.inputs circuit) -> m x = Z3.model_of input_assignments x.
Proof.
  intros Hwf Hkeys Ha x Hx. apply Hkeys in Hx.
  apply in_map_iff in Hx as ([k b] & E & Hin). simpl in E. subst k.
  unfold Z3.model_of. rewrite (In_get _ _ _ Hwf Hin). now apply Ha.
Qed.

(** X16: when the input assignment gives a value to exactly the primary
    inputs of a structurally valid circuit that names no gate like an
    input and whose signal names hold no NUL character, and the solver is
    sound and always answers, the call evaluates the circuit: if the
    simulation under the assignment gives every forced signal its forced
    value the result is [(True, outputs)] with the simulated value of every
    output, and otherwise it is the contradiction. *)
Theorem full_assignment_evaluates
    (solve : list Z3.expr -> Z3.check_result) (circuit : Circuit.t)
    (input_assignments : Dict.t bool) (signal_assignments : option (Dict.t bool)) :
  Z3.sound solve -> Z3.decides solve ->
  structurally_valid circuit = true ->
  gates_apart_from_inputs circuit = true ->
  forallb Z3.nul_free (namespace circuit) = true ->
  Dict.wf input_assignments ->
  (forall k, In k (Dict.keys input_assignments) <-> In k (Circuit.inputs circuit)) ->
  (forall k, In k (Dict.keys (entries signal_assignments)) ->
             In k (namespace circuit)) ->
  let v := Z3.model_of input_assignments in
  let fits := forall sig val, In (sig, val) (entries signal_assignments) ->
                              output_value circuit v sig = Some val in
  (fits ->
   exists output_values,
     CircuitEvaluator.validate_circuit solve circuit input_assignments
                                       signal_assignments
     = Ok (true, CircuitEvaluator.Outputs output_values)
     /\ forall out, In out (Circuit.outputs circuit) ->
          exists val, Dict.get output_values out = Some val
                      /\ output_value circuit v out = Some val)
  /\ (~ fits ->
      CircuitEvaluator.validate_circuit solve circuit input_assignments
                                        signal_assignments
      = Ok (false, CircuitEvaluator.Message CircuitEvaluator.contradiction_message)).
Proof.
  intros Hsound Hdec Hsv Hapart Hnul Hwf Hkeys Hsa v fits.
  assert (Hia : forall k, In k (Dict.keys input_assignments) ->
                          In k (Circuit.inputs circuit)) by (intros k; apply Hkeys).
  assert (Hfull : forall m, agrees m input_assignments ->
                            forall k, output_value circuit m k
                                      = output_value circuit v k).
  { intros m Ha k. apply output_value_ext.
    apply (agrees_on_inputs m circuit input_assignments Hwf); [|exact Ha].
    intros x. apply Hkeys. }
  destruct (validate_run solve circuit input_assignments signal_assignments
              Hsv Hia Hsa) as (fs & Hsem & Hm).
  assert (Hmodel : forall m, Z3.satisfies m fs = true ->
                     agrees m input_assignments
                     /\ forall k, In k (namespace circuit) ->
                                  output_value circuit v k = Some (m k)).
  { intros m Hs. apply Hsem in Hs as (HC & Ha & _). split; [exact Ha|].
    intros k Hk. rewrite <- (Hfull m Ha). now apply consistent_signal. }
  split.
  - intros Hfits.
    destruct (simulation_is_consistent circuit v Hsv Hapart)
      as (env & HS & HC & Hin & Henv).
    destruct (valuation_of_model circuit (completion env v) input_assignments
                (entries signal_assignments) Hsv Hnul)
      as (m' & Hm' & HC' & Ha' & Hs').
    { intros k Hk. unfold namespace. apply in_or_app. left. now apply Hia. }
    { exact Hsa. }
    { exact HC. }
    { intros k b Hk. rewrite Hin.
      + now apply (agrees_model_of input_assignments Hwf).
      + apply Hia. unfold Dict.keys. change k with (fst (k, b)). now apply in_map. }
    { intros k b Hk. apply Henv. specialize (Hfits k b Hk).
      unfold output_value in Hfits. unfold signal_values in HS.
      now rewrite HS in Hfits. }
    assert (Hsat : Z3.satisfies m' fs = true).
    { apply Hsem. now repeat split. }
    destruct (solve fs) as [m| |] eqn:S.
    + destruct Hm as (ov & Ho & Hget). exists ov. split; [exact Ho|].
      intros out Hout. exists (m out). split.
      * rewrite Hget. apply contains_In in Hout. now rewrite Hout.
      * apply (Hmodel m (Z3.sat_sound solve Hsound _ _ S)).
        now apply outputs_in_namespace.
    + rewrite (Z3.unsat_sound solve Hsound _ S m' Hm') in Hsat. discriminate.
    + exfalso. exact (Hdec _ S).
  - intros Hnot. destruct (solve fs) as [m| |] eqn:S; try exact Hm.
    exfalso. apply Hnot. intros sig val Hin.
    pose proof (Z3.sat_sound solve Hsound _ _ S) as Hs.
    destruct (Hmodel m Hs) as (_ & Hval). rewrite Hval.
    + f_equal. apply Hsem in Hs as (_ & _ & Hforced). now apply Hforced.
    + apply Hsa. unfold Dict.keys. change sig with (fst (sig, val)).
      now apply in_map.
Qed.

(** The witness is the third example of circuit-evaluator.py, with the
    gate [XOR1] forced to the value it has. *)
Lemma full_assignment_witness :
  let ia := [("A", true); ("B", false); ("C", false)] in
  let v := Z3.model_of ia in
  let fits := forall sig val, In (sig, val) (entries (Some [("XOR1", true)])) ->
                              output_value xor_circuit v sig = Some val in
  (fits ->
   exists output_values,
     CircuitEvaluator.validate_circuit Z3.search xor_circuit ia
                                       (Some [("XOR1", true)])
     = Ok (true, CircuitEvaluator.Outputs output_values)
     /\ forall out, In out (Circuit.outputs xor_circuit) ->
          exists val, Dict.get output_values out = Some val
                      /\ output_value xor_circuit v out = Some val)
  /\ (~ fits ->
      CircuitEvaluator.validate_circuit Z3.search xor_circuit ia
                                        (Some [("XOR1", true)])
      = Ok (false, CircuitEvaluator.Message CircuitEvaluator.contradiction_message)).
Proof.
  apply (full_assignment_evaluates Z3.search xor_circuit
           [("A", true); ("B", false); ("C", false)] (Some [("XOR1", true)]));
    [exact search_sound | exact search_decides | reflexivity | reflexivity
     | reflexivity | | intros k; simpl; tauto | simpl; tauto].
  unfold Dict.wf. simpl. repeat constructor; simpl; intuition discriminate.
Defined.

(** X17: a primary input may be forced through the signal assignments:
    passing a non-empty assignment to primary inputs as signal assignments,
    with no input assignments, submits the same assertions and gives the
    same result as passing it as input assignments. *)
Theorem inputs_may_be_forced_as_signals
    (solve : list Z3.expr -> Z3.check_result) (circuit : Circuit.t)
    (assignment : Dict.t bool) :
  assignment <> [] ->
  (forall k, In k (Dict.keys assignment) -> In k (Circuit.inputs circuit)) ->
  CircuitEvaluator.validate_circuit solve circuit Dict.empty (Some assignment)
  = CircuitEvaluator.validate_circuit solve circuit assignment None.
Proof.
  intros Hne Hk. unfold CircuitEvaluator.validate_circuit.
  pose proof (evaluator_build_spec circuit Dict.empty by_name_empty) as HB.
  destruct (CircuitEvaluator.build_z3_expr circuit Dict.empty)
    as [[[outputs constraints] z3_vars]|e]; [|reflexivity].
  destruct HB as (_ & Hz & Hc & _).
  assert (Hin : forall k, In k (Circuit.inputs circuit) ->
                          Dict.contains z3_vars k = true).
  { intros k Hi. rewrite Hc, contains_app. apply contains_In in Hi.
    now rewrite Hi. }
  rewrite (apply_input_assignments_spec circuit z3_vars assignment Hz Hin Hk).
  assert (T : CircuitEvaluator.truthy (Some assignment) = true)
    by now destruct assignment.
  rewrite T.
  cbn [Dict.items Dict.empty CircuitEvaluator.apply_input_assignments bind
       CircuitEvaluator.truthy].
  rewrite (apply_signal_assignments_spec z3_vars assignment Hz).
  - reflexivity.
  - intros k Hi. now apply Hin, Hk.
Qed.

Lemma inputs_as_signals_witness :
  CircuitEvaluator.validate_circuit Z3.search distr1 Dict.empty
    (Some [("A", true); ("B", true); ("C", false)])
  = CircuitEvaluator.validate_circuit Z3.search distr1
      [("A", true); ("B", true); ("C", false)] None.
Proof.
  apply (inputs_may_be_forced_as_signals Z3.search distr1);
    [discriminate | simpl; tauto].
Defined.

(** ** Structural errors, first violation first *)

Lemma check_defined_stops (expr_map : Dict.t Z3.expr) (gate_name : string)
    (before after : list string) (sig : string) :
  forallb (Dict.contains expr_map) before = true ->
  Dict.contains expr_map sig = false ->
  check_defined expr_map gate_name (before ++ sig :: after)
  = Raise (ValueError (undefined_gate_input_message sig gate_name)).
Proof.
  intros Hb Hs. induction before as [|s before IH]; simpl.
  - now rewrite Hs.
  - simpl in Hb. apply andb_prop in Hb as (H1 & H2). rewrite H1. simpl.
    now apply IH.
Qed.

Lemma gate_function_unsupported (expr_map : Dict.t Z3.expr)
    (gate_name gate_type : string) (gate_inputs : list string) :
  ~ In gate_type gate_types ->
  gate_function expr_map gate_name gate_type gate_inputs
  = Raise (ValueError (unsupported_gate_type_message gate_type)).
Proof.
  intros H. unfold gate_function.
  repeat match goal with
         | |- context [gate_type =? ?t] =>
             let E := fresh "E" in
             destruct (gate_type =? t) eqn:E;
             [apply String.eqb_eq in E; exfalso; apply H; subst;
              simpl; tauto|]
         end.
  reflexivity.
Qed.

Lemma map_outputs_stops (expr_map : Dict.t Z3.expr)
    (before after : list string) (out : string) :
  forallb (Dict.contains expr_map) before = true ->
  Dict.contains expr_map out = false ->
  forall output_expr,
    map_outputs expr_map output_expr (before ++ out :: after)
    = Raise (ValueError (undefined_output_message out)).
Proof.
  intros Hb Ho. induction before as [|o before IH]; intros output_expr; simpl.
  - now rewrite Ho.
  - simpl in Hb. apply andb_prop in Hb as (H1 & H2). rewrite H1.
    destruct (getitem_contains _ _ H1) as (e & _ & ->). cbn [bind].
    now apply IH.
Qed.

(** The gate loop after a prefix of accepted gates. *)
Lemma evaluator_process_gates_app (pre rest : list Gate.t) :
  forall gate_names z3_vars expr_map constraints defined seen,
    by_name z3_vars -> by_name expr_map ->
    (forall k, Dict.contains expr_map k = contains defined k) ->
    (forall k, contains gate_names k = contains seen k) ->
    gates_accepted defined seen pre = true ->
    exists gate_names' z3_vars' expr_map' constraints',
      CircuitEvaluator.process_gates (pre ++ rest) gate_names z3_vars expr_map
                                     constraints
      = CircuitEvaluator.process_gates rest gate_names' z3_vars' expr_map'
                                       constraints'
      /\ by_name z3_vars'
      /\ (forall k, Dict.contains expr_map' k
                    = contains (map Gate.name pre) k || contains defined k)
      /\ (forall k, contains gate_names' k
                    = contains (map Gate.name pre) k || contains seen k).
Proof.
  induction pre as [|gate pre IH];
    intros gate_names z3_vars expr_map constraints defined seen Hz Hb Hd Hs Hacc.
  - exists gate_names, z3_vars, expr_map, constraints. now repeat split.
  - cbn [gates_accepted] in Hacc.
    apply andb_prop in Hacc as (Hacc & Hrest).
    apply andb_prop in Hacc as (Hacc & Hsup).
    apply andb_prop in Hacc as (Hnew & Hdef).
    apply Bool.negb_true_iff in Hnew.
    rewrite <- (forallb_eq _ _ (Gate.inputs gate) Hd) in Hdef.
    cbn [app CircuitEvaluator.process_gates]. cbv zeta.
    rewrite set_mem_contains, Hs, Hnew.
    pose proof (check_defined_spec expr_map (Gate.name gate) (Gate.inputs gate)) as HC.
    destruct (check_defined _ _ _) as [[]|[]]; try contradiction; [|congruence].
    cbn [bind].
    destruct (by_name_declare z3_vars (Gate.name gate) Hz) as (Hz' & Hg & _).
    rewrite Hg. cbn [bind].
    pose proof (gate_function_spec expr_map (Gate.name gate)
                  (upper (Gate.type gate)) (Gate.inputs gate) Hdef) as HF.
    destruct (gate_function _ _ _ _) as [e|[]]; try contradiction; [|congruence].
    cbn [bind].
    destruct (IH (set_add string_dec (Gate.name gate) gate_names) _
                 (Dict.setitem expr_map (Gate.name gate) (Z3.Bool (Gate.name gate)))
                 (constraints ++ [Z3.Eq (Z3.Bool (Gate.name gate)) e])
                 (Gate.name gate :: defined) (Gate.name gate :: seen)
                 Hz' (by_name_setitem _ _ Hb))
      as (gn' & z' & em' & cs' & -> & Hz'' & Hk & Hg').
    + intros k. now rewrite contains_setitem, contains_cons, Hd.
    + intros k. now rewrite contains_set_add, contains_cons, Hs.
    + exact Hrest.
    + exists gn', z', em', cs'. split; [reflexivity|]. split; [exact Hz''|].
      split; intros k; cbn [map]; [rewrite Hk | rewrite Hg'];
        rewrite !contains_cons;
        now destruct (k =? Gate.name gate), (contains (map Gate.name pre) k).
Qed.

(** The state in which [build_z3_expr] meets the gate after an accepted
    prefix of the gate list. *)
Lemma evaluator_build_after_prefix (circuit : Circuit.t) (pre rest : list Gate.t) :
  Circuit.gates circuit = pre ++ rest ->
  gates_accepted (Circuit.inputs circuit) [] pre = true ->
  exists gate_names z3_vars expr_map constraints,
    CircuitEvaluator.build_z3_expr circuit Dict.empty
    = ('(z3_vars, expr_map, constraints) <-
         CircuitEvaluator.process_gates rest gate_names z3_vars expr_map constraints ;;
       output_expr <- map_outputs expr_map Dict.empty (Circuit.outputs circuit) ;;
       Ok (output_expr, constraints, z3_vars))
    /\ by_name z3_vars
    /\ (forall k, Dict.contains expr_map k
                  = contains (Circuit.inputs circuit ++ map Gate.name pre) k)
    /\ (forall k, contains gate_names k = contains (map Gate.name pre) k).
Proof.
  intros Hg Hacc. unfold CircuitEvaluator.build_z3_expr.
  destruct (evaluator_bind_inputs_spec (Circuit.inputs circuit) Dict.empty
              Dict.empty by_name_empty) as (z1 & -> & Hz1 & _).
  cbn [bind]. rewrite Hg.
  destruct (evaluator_process_gates_app pre rest (empty_set string) z1
              (input_map (Circuit.inputs circuit) Dict.empty) []
              (Circuit.inputs circuit) [] Hz1
              (by_name_input_map _ _ by_name_empty))
    as (gn & z & em & cs & -> & Hz & Hk & Hgn); auto.
  { intros k. rewrite contains_input_map. apply Bool.orb_false_r. }
  exists gn, z, em, cs. split; [reflexivity|]. split; [exact Hz|]. split.
  - intros k. rewrite Hk, contains_app. apply Bool.orb_comm.
  - intros k. rewrite Hgn. apply Bool.orb_false_r.
Qed.

(** X18: the first gate that repeats the name of an earlier gate, after
    gates that pass all checks, is reported by name, whatever else is wrong
    with it or with later gates: the call returns
    [(False, "Duplicate gate name ...")]. *)
Theorem duplicate_gate_reported_by_name
    (solve : list Z3.expr -> Z3.check_result) (circuit : Circuit.t)
    (pre post : list Gate.t) (gate : Gate.t)
    (input_assignments : Dict.t bool) (signal_assignments : option (Dict.t bool)) :
  Circuit.gates circuit = pre ++ gate :: post ->
  gates_accepted (Circuit.inputs circuit) [] pre = true ->
  In (Gate.name gate) (map Gate.name pre) ->
  CircuitEvaluator.validate_circuit solve circuit input_assignments
                                    signal_assignments
  = Ok (false, CircuitEvaluator.Message (duplicate_gate_message (Gate.name gate))).
Proof.
  intros Hg Hacc Hdup.
  destruct (evaluator_build_after_prefix circuit pre (gate :: post) Hg Hacc)
    as (gn & z & em & cs & HB & _ & _ & Hgn).
  unfold CircuitEvaluator.validate_circuit. rewrite HB.
  cbn [CircuitEvaluator.process_gates].
  rewrite set_mem_contains, Hgn, (proj2 (contains_In _ _) Hdup). reflexivity.
Qed.

Lemma duplicate_gate_witness :
  CircuitEvaluator.validate_circuit Z3.search late_duplicate [] None
  = Ok (false, CircuitEvaluator.Message (duplicate_gate_message "C")).
Proof.
  apply (duplicate_gate_reported_by_name Z3.search late_duplicate
           [Gate.make "C" "AND" ["A"; "B"]; Gate.make "D" "OR" ["C"; "A"]] []
           (Gate.make "C" "BUFF" ["Z"]));
    [reflexivity | reflexivity | simpl; tauto].
Defined.

(** X19: a gate that reads a signal defined neither as a primary input nor
    by an earlier gate is reported with the first such signal and the
    gate's name, before its type and arity are looked at: the call returns
    [(False, "Signal ... used in gate ... is not defined.")]. *)
Theorem undefined_gate_input_reported
    (solve : list Z3.expr -> Z3.check_result) (circuit : Circuit.t)
    (pre post : list Gate.t) (gate : Gate.t) (before after : list string)
    (sig : string)
    (input_assignments : Dict.t bool) (signal_assignments : option (Dict.t bool)) :
  Circuit.gates circuit = pre ++ gate :: post ->
  gates_accepted (Circuit.inputs circuit) [] pre = true ->
  ~ In (Gate.name gate) (map Gate.name pre) ->
  Gate.inputs gate = before ++ sig :: after ->
  (forall s, In s before -> In s (Circuit.inputs circuit ++ map Gate.name pre)) ->
  ~ In sig (Circuit.inputs circuit ++ map Gate.name pre) ->
  CircuitEvaluator.validate_circuit solve circuit input_assignments
                                    signal_assignments
  = Ok (false, CircuitEvaluator.Message
                 (undefined_gate_input_message sig (Gate.name gate))).
Proof.
  intros Hg Hacc Hnew Hins Hbefore Hsig.
  destruct (evaluator_build_after_prefix circuit pre (gate :: post) Hg Hacc)
    as (gn & z & em & cs & HB & _ & Hem & Hgn).
  unfold CircuitEvaluator.validate_circuit. rewrite HB.
  cbn [CircuitEvaluator.process_gates]. cbv zeta.
  rewrite set_mem_contains, Hgn, (proj2 (contains_false _ _) Hnew), Hins.
  rewrite check_defined_stops; [reflexivity | |].
  - apply forallb_forall. intros s Hs. rewrite Hem. now apply contains_In, Hbefore.
  - rewrite Hem. now apply contains_false.
Qed.

Lemma undefined_gate_input_witness :
  CircuitEvaluator.validate_circuit Z3.search buff_of_undefined [] None
  = Ok (false, CircuitEvaluator.Message (undefined_gate_input_message "Z" "E")).
Proof.
  apply (undefined_gate_input_reported Z3.search buff_of_undefined
           [Gate.make "C" "AND" ["A"; "B"]] []
           (Gate.make "E" "BUFF" ["C"; "Z"; "Y"]) ["C"] ["Y"] "Z");
    [reflexivity | reflexivity | simpl; intuition discriminate | reflexivity
     | simpl; tauto | simpl; intuition discriminate].
Defined.

(** X20: a gate with a new name and defined inputs whose type is ASCII
    text and, in upper case, none of the seven gate types is reported with
    that type in upper case: the call returns [(False, "Unsupported gate
    type: ...")], whatever the later gates and the outputs are. *)
Theorem unsupported_type_reported
    (solve : list Z3.expr -> Z3.check_result) (circuit : Circuit.t)
    (pre post : list Gate.t) (gate : Gate.t)
    (input_assignments : Dict.t bool) (signal_assignments : option (Dict.t bool)) :
  Circuit.gates circuit = pre ++ gate :: post ->
  gates_accepted (Circuit.inputs circuit) [] pre = true ->
  ~ In (Gate.name gate) (map Gate.name pre) ->
  (forall s, In s (Gate.inputs gate) ->
             In s (Circuit.inputs circuit ++ map Gate.name pre)) ->
  ascii_text (Gate.type gate) = true ->
  ~ In (upper (Gate.type gate)) gate_types ->
  CircuitEvaluator.validate_circuit solve circuit input_assignments
                                    signal_assignments
  = Ok (false, CircuitEvaluator.Message
                 (unsupported_gate_type_message (upper (Gate.type gate)))).
Proof.
  intros Hg Hacc Hnew Hins _ Hty.
  destruct (evaluator_build_after_prefix circuit pre (gate :: post) Hg Hacc)
    as (gn & z & em & cs & HB & Hz & Hem & Hgn).
  unfold CircuitEvaluator.validate_circuit. rewrite HB.
  cbn [CircuitEvaluator.process_gates]. cbv zeta.
  rewrite set_mem_contains, Hgn, (proj2 (contains_false _ _) Hnew).
  assert (Hdef : forallb (Dict.contains em) (Gate.inputs gate) = true).
  { apply forallb_forall. intros s Hs. rewrite Hem. now apply contains_In, Hins. }
  pose proof (check_defined_spec em (Gate.name gate) (Gate.inputs gate)) as HC.
  destruct (check_defined _ _ _) as [[]|[]]; try contradiction; [|congruence].
  cbn [bind].
  destruct (by_name_declare z (Gate.name gate) Hz) as (_ & -> & _). cbn [bind].
  now rewrite gate_function_unsupported.
Qed.

Lemma unsupported_type_witness :
  CircuitEvaluator.validate_circuit Z3.search unsupported_type [] None
  = Ok (false, CircuitEvaluator.Message (unsupported_gate_type_message (upper "BUFF"))).
Proof.
  apply (unsupported_type_reported Z3.search unsupported_type
           [Gate.make "C" "AND" ["A"; "B"]] [] (Gate.make "E" "BUFF" ["C"]));
    [reflexivity | reflexivity | simpl; intuition discriminate | simpl; tauto
     | reflexivity | simpl; intuition discriminate].
Defined.

(** X21: when all gates pass their checks, the first output that names
    neither a primary input nor a gate is reported by name: the call
    returns [(False, "Output signal ... is not defined in the
    circuit.")]. *)
Theorem undefined_output_reported
    (solve : list Z3.expr -> Z3.check_result) (circuit : Circuit.t)
    (before after : list string) (out : string)
    (input_assignments : Dict.t bool) (signal_assignments : option (Dict.t bool)) :
  gates_accepted (Circuit.inputs circuit) [] (Circuit.gates circuit) = true ->
  Circuit.outputs circuit = before ++ out :: after ->
  (forall o, In o before -> In o (namespace circuit)) ->
  ~ In out (namespace circuit) ->
  CircuitEvaluator.validate_circuit solve circuit input_assignments
                                    signal_assignments
  = Ok (false, CircuitEvaluator.Message (undefined_output_message out)).
Proof.
  intros Hacc Houts Hbefore Hout.
  destruct (evaluator_build_after_prefix circuit (Circuit.gates circuit) []
              (eq_sym (app_nil_r _)) Hacc)
    as (gn & z & em & cs & HB & _ & Hem & _).
  unfold CircuitEvaluator.validate_circuit. rewrite HB.
  cbn [CircuitEvaluator.process_gates bind]. rewrite Houts.
  rewrite map_outputs_stops; [reflexivity | |].
  - apply forallb_forall. intros o Ho. rewrite Hem. now apply contains_In, Hbefore.
  - rewrite Hem. now apply contains_false.
Qed.

Lemma undefined_output_witness :
  CircuitEvaluator.validate_circuit Z3.search undefined_output [] None
  = Ok (false, CircuitEvaluator.Message (undefined_output_message "Q")).
Proof.
  apply (undefined_output_reported Z3.search undefined_output ["C"] ["R"] "Q");
    [reflexivity | reflexivity | simpl; tauto | simpl; intuition discriminate].
Defined.

(** ** Circuits without outputs *)

(** X22: two structurally valid circuits that list no outputs are reported
    Equivalent by every sound solver, whatever their inputs and gates: the
    query is the empty disjunction. *)
Theorem no_outputs_equivalent
    (solve : list Z3.expr -> Z3.check_result) (A B : Circuit.t) :
  Z3.sound solve ->
  structurally_valid A = true ->
  structurally_valid B = true ->
  Circuit.outputs A = [] ->
  Circuit.outputs B = [] ->
  CircuitEquivalence.check_circuit_equivalence solve A B
  = {| CircuitEquivalence.outcome := Ok (true, None);
       CircuitEquivalence.queries := [[Z3.Or []]] |}.
Proof.
  intros Hsound HA HB EA EB.
  destruct (compile_valid A HA) as (o1 & CA & KA & _).
  destruct (compile_valid B HB) as (o2 & CB & KB & _).
  pose proof (check_run solve A B o1 o2 CA CB) as R. cbv zeta in R.
  rewrite !len_keys, KA, KB, EA, EB in R. simpl in R.
  destruct R as (dcs & miter & HF & -> & Q & Hsem & Hm).
  inversion HF; subst.
  destruct (CircuitEquivalence.check_circuit_equivalence solve A B) as [o q].
  simpl in *. subst q. f_equal.
  destruct (solve [Z3.Or []]) as [m| |] eqn:S; try exact Hm.
  apply (Z3.sat_sound solve Hsound) in S. discriminate.
Qed.

Lemma no_outputs_witness :
  CircuitEquivalence.check_circuit_equivalence Z3.search silent1 silent2
  = {| CircuitEquivalence.outcome := Ok (true, None);
       CircuitEquivalence.queries := [[Z3.Or []]] |}.
Proof.
  apply (no_outputs_equivalent Z3.search silent1 silent2);
    [exact search_sound | reflexivity..].
Defined.

(** ** Arity *)

Lemma gate_function_arity (expr_map : Dict.t Z3.expr)
    (gate_name gate_type : string) (gate_inputs : list string) :
  In gate_type ["NOT"; "XOR"; "XNOR"] ->
  supported gate_type (length gate_inputs) = false ->
  gate_function expr_map gate_name gate_type gate_inputs
  = Raise (ValueError (arity_message gate_type gate_name)).
Proof.
  intros [<-|[<-|[<-|[]]]] H; unfold supported in H; simpl in H;
    unfold gate_function; simpl; now rewrite H.
Qed.

(** X23: a NOT gate whose number of inputs is not one, or an XOR or XNOR
    gate whose number of inputs is not two, with a new name and defined
    inputs, is reported with its type and name: the call returns
    [(False, "... gate ... must have exactly ...")]. The other four gate
    types have no arity check. *)
Theorem wrong_arity_reported
    (solve : list Z3.expr -> Z3.check_result) (circuit : Circuit.t)
    (pre post : list Gate.t) (gate : Gate.t)
    (input_assignments : Dict.t bool) (signal_assignments : option (Dict.t bool)) :
  Circuit.gates circuit = pre ++ gate :: post ->
  gates_accepted (Circuit.inputs circuit) [] pre = true ->
  ~ In (Gate.name gate) (map Gate.name pre) ->
  (forall s, In s (Gate.inputs gate) ->
             In s (Circuit.inputs circuit ++ map Gate.name pre)) ->
  In (upper (Gate.type gate)) ["NOT"; "XOR"; "XNOR"] ->
  supported (upper (Gate.type gate)) (length (Gate.inputs gate)) = false ->
  CircuitEvaluator.validate_circuit solve circuit input_assignments
                                    signal_assignments
  = Ok (false, CircuitEvaluator.Message
                 (arity_message (upper (Gate.type gate)) (Gate.name gate))).
Proof.
  intros Hg Hacc Hnew Hins Hty Har.
  destruct (evaluator_build_after_prefix circuit pre (gate :: post) Hg Hacc)
    as (gn & z & em & cs & HB & Hz & Hem & Hgn).
  unfold CircuitEvaluator.validate_circuit. rewrite HB.
  cbn [CircuitEvaluator.process_gates]. cbv zeta.
  rewrite set_mem_contains, Hgn, (proj2 (contains_false _ _) Hnew).
  assert (Hdef : forallb (Dict.contains em) (Gate.inputs gate) = true).
  { apply forallb_forall. intros s Hs. rewrite Hem. now apply contains_In, Hins. }
  pose proof (check_defined_spec em (Gate.name gate) (Gate.inputs gate)) as HC.
  destruct (check_defined _ _ _) as [[]|[]]; try contradiction; [|congruence].
  cbn [bind].
  destruct (by_name_declare z (Gate.name gate) Hz) as (_ & -> & _). cbn [bind].
  now rewrite gate_function_arity.
Qed.

(** The witness is the second circuit of test_invalid_not_gate with its
    second input declared. *)
Lemma wrong_arity_witness :
  CircuitEvaluator.validate_circuit Z3.search
    (Circuit.make ["A"; "B"] [Gate.make "C" "not" ["A"; "B"]] ["C"]) [] None
  = Ok (false, CircuitEvaluator.Message (arity_message "NOT" "C")).
Proof.
  apply (wrong_arity_reported Z3.search
           (Circuit.make ["A"; "B"] [Gate.make "C" "not" ["A"; "B"]] ["C"])
           [] [] (Gate.make "C" "not" ["A"; "B"]));
    [reflexivity | reflexivity | simpl; tauto | simpl; tauto | simpl; tauto
     | reflexivity].
Defined.

(** ** Transitivity of the verdict *)

Lemma in_combine_through {A B C : Type} (la : list A) (lb : list B) (lc : list C)
    (x : A) (z : C) :
  length la = length lb -> length lb = length lc ->
  In (x, z) (combine la lc) ->
  exists y, In (x, y) (combine la lb) /\ In (y, z) (combine lb lc).
Proof.
  revert lb lc. induction la as [|a la IH]; intros [|b lb] [|c lc];
    simpl; try discriminate; try contradiction.
  intros [= Hab] [= Hbc] [[= <- <-]|H].
  - exists b. split; now left.
  - destruct (IH lb lc Hab Hbc H) as (y & H1 & H2). exists y. split; now right.
Qed.

(** X24: Equivalent is transitive: for structurally valid circuits and a
    solver that is sound and always answers, if A and B are reported
    Equivalent and B and C are, then so are A and C. *)
Theorem verdict_transitive (solve : list Z3.expr -> Z3.check_result)
    (A B C : Circuit.t) :
  Z3.sound solve -> Z3.decides solve ->
  structurally_valid A = true -> structurally_valid B = true ->
  structurally_valid C = true ->
  Equivalent (CircuitEquivalence.outcome
                (CircuitEquivalence.check_circuit_equivalence solve A B)) ->
  Equivalent (CircuitEquivalence.outcome
                (CircuitEquivalence.check_circuit_equivalence solve B C)) ->
  Equivalent (CircuitEquivalence.outcome
                (CircuitEquivalence.check_circuit_equivalence solve A C)).
Proof.
  intros Hsound Hdec HA HB HC Hab Hbc.
  apply (equivalent_iff_agree solve A B Hsound Hdec HA HB) in Hab as (Lab & Gab).
  apply (equivalent_iff_agree solve B C Hsound Hdec HB HC) in Hbc as (Lbc & Gbc).
  apply (equivalent_iff_agree solve A C Hsound Hdec HA HC).
  split; [congruence|]. intros v Hv x z Hin.
  destruct (in_combine_through _ _ _ x z Lab Lbc Hin) as (y & H1 & H2).
  rewrite (Gab v Hv x y H1). exact (Gbc v Hv y z H2).
Qed.

Lemma verdict_transitive_witness :
  Equivalent (CircuitEquivalence.outcome
                (CircuitEquivalence.check_circuit_equivalence Z3.search
                   distr1 distr3)).
Proof.
  apply (verdict_transitive Z3.search distr1 distr2 distr3);
    [exact search_sound | exact search_decides | reflexivity | reflexivity
     | reflexivity | reflexivity | reflexivity].
Defined.

(** ** Gate types in any case, in [validate_circuit] *)

Lemma evaluator_process_gates_uppercase (gs : list Gate.t) :
  forall gate_names z3_vars expr_map constraints,
    CircuitEvaluator.process_gates
      (map (fun gate =>
              Gate.make (Gate.name gate) (upper (Gate.type gate)) (Gate.inputs gate))
           gs) gate_names z3_vars expr_map constraints
    = CircuitEvaluator.process_gates gs gate_names z3_vars expr_map constraints.
Proof.
  induction gs as [|gate rest IH]; intros gate_names z3_vars expr_map constraints;
    [reflexivity|].
  cbn [map CircuitEvaluator.process_gates Gate.name Gate.type Gate.inputs].
  cbv zeta. rewrite upper_idempotent.
  destruct (set_mem _ _ _); [reflexivity|].
  destruct (check_defined _ _ _); [|reflexivity]. cbn [bind].
  destruct (Dict.getitem _ _); [|reflexivity]. cbn [bind].
  destruct (gate_function _ _ _ _); [|reflexivity]. cbn [bind].
  apply IH.
Qed.

Lemma apply_input_assignments_inputs (c1 c2 : Circuit.t) (z3_vars : Dict.t Z3.expr)
    (items : list (string * bool)) :
  Circuit.inputs c1 = Circuit.inputs c2 ->
  forall solver,
    CircuitEvaluator.apply_input_assignments c1 z3_vars items solver
    = CircuitEvaluator.apply_input_assignments c2 z3_vars items solver.
Proof.
  intros H. induction items as [|[inp val] rest IH]; intros solver; [reflexivity|].
  cbn [CircuitEvaluator.apply_input_assignments]. rewrite H.
  destruct (negb _); [reflexivity|].
  destruct (Dict.getitem _ _); [|reflexivity]. cbn [bind]. apply IH.
Qed.

Lemma validate_uppercase (solve : list Z3.expr -> Z3.check_result)
    (circuit : Circuit.t) (input_assignments : Dict.t bool)
    (signal_assignments : option (Dict.t bool)) :
  CircuitEvaluator.validate_circuit solve (uppercase_types circuit)
                                    input_assignments signal_assignments
  = CircuitEvaluator.validate_circuit solve circuit input_assignments
                                      signal_assignments.
Proof.
  unfold CircuitEvaluator.validate_circuit, CircuitEvaluator.build_z3_expr,
    uppercase_types.
  cbn [Circuit.inputs Circuit.gates Circuit.outputs].
  destruct (CircuitEvaluator.bind_inputs _ _ _) as [[z em]|e]; [|reflexivity].
  cbn [bind]. rewrite evaluator_process_gates_uppercase.
  destruct (CircuitEvaluator.process_gates _ _ _ _ _) as [[[z' em'] cs]|e];
    [|reflexivity].
  cbn [bind].
  destruct (map_outputs _ _ _) as [o|e]; [|reflexivity]. cbn [bind].
  now rewrite (apply_input_assignments_inputs _ circuit).
Qed.

(** X25: [validate_circuit] reads gate types without regard to case: two
    circuits that are equal once their gate types are written in upper
    case get the same result on the same assignments. *)
Theorem validate_ignores_case_of_gate_types
    (solve : list Z3.expr -> Z3.check_result) (circuit circuit' : Circuit.t)
    (input_assignments : Dict.t bool) (signal_assignments : option (Dict.t bool)) :
  uppercase_types circuit = uppercase_types circuit' ->
  CircuitEvaluator.validate_circuit solve circuit input_assignments
                                    signal_assignments
  = CircuitEvaluator.validate_circuit solve circuit' input_assignments
                                      signal_assignments.
Proof.
  intros H.
  rewrite <- (validate_uppercase solve circuit),
          <- (validate_uppercase solve circuit').
  now rewrite H.
Qed.

Lemma validate_ignores_case_witness :
  CircuitEvaluator.validate_circuit Z3.search distr2_or_mixed
    [("A", false); ("B", true)] (Some [("E", true)])
  = CircuitEvaluator.validate_circuit Z3.search distr2_or
      [("A", false); ("B", true)] (Some [("E", true)]).
Proof.
  apply (validate_ignores_case_of_gate_types Z3.search distr2_or_mixed distr2_or).
  reflexivity.
Defined.

(** ** The verdict where no output name is repeated *)

(** Whether some pair of outputs differs depends on the assignment only
    through the primary inputs of the two circuits. *)
Lemma differ_on_ext (A B : Circuit.t) (pairs : list (string * string))
    (v1 v2 : string -> bool) :
  (forall x, In x (Circuit.inputs A ++ Circuit.inputs B) -> v1 x = v2 x) ->
  differ_on A B pairs v1 -> differ_on A B pairs v2.
Proof.
  intros H (x & y & Hin & Hne). exists x, y. split; [exact Hin|].
  rewrite <- (output_value_ext A v1 v2 x), <- (output_value_ext B v1 v2 y);
    [exact Hne | |]; intros z Hz; apply H, in_or_app; tauto.
Qed.

(** X26: where neither circuit lists an output name twice the verdict is
    right: for structurally valid circuits A and B that list as many
    outputs and have no NUL character in the names of their inputs, and a
    solver that is sound and always answers, the call reports NotEquivalent
    exactly when some input assignment gives different values to some
    positional pair of outputs, and Equivalent exactly when every input
    assignment gives equal values to all positional pairs. *)
Theorem verdict_decides_equivalence
    (solve : list Z3.expr -> Z3.check_result) (A B : Circuit.t) :
  Z3.sound solve ->
  Z3.decides solve ->
  structurally_valid A = true ->
  structurally_valid B = true ->
  NoDup (Circuit.outputs A) ->
  NoDup (Circuit.outputs B) ->
  length (Circuit.outputs A) = length (Circuit.outputs B) ->
  forallb Z3.nul_free (Circuit.inputs A ++ Circuit.inputs B) = true ->
  let pairs := combine (Circuit.outputs A) (Circuit.outputs B) in
  let r := CircuitEquivalence.outcome
             (CircuitEquivalence.check_circuit_equivalence solve A B) in
  (NotEquivalent r <-> exists v, differ_on A B pairs v)
  /\ (Equivalent r <-> forall v, agree_on A B pairs v).
Proof.
  intros Hsound Hdec HA HB NA NB Hlen Hnul pairs r.
  pose proof (check_valid solve A B HA HB) as R. cbv zeta in R.
  rewrite (distinct_NoDup _ NA), (distinct_NoDup _ NB) in R.
  rewrite Hlen, Nat.eqb_refl in R. fold pairs in R.
  destruct R as (miter & _ & Hsem & Hm). fold r in Hm.
  unfold NotEquivalent, Equivalent.
  destruct (solve [miter]) as [m| |] eqn:S.
  - destruct Hm as (ia & ds & ->).
    assert (D : differ_on A B pairs m).
    { apply Hsem. now apply (Z3.sat_sound solve Hsound). }
    split; split.
    + intros _. now exists m.
    + intros _. now eexists.
    + discriminate.
    + intros H. exfalso. exact (proj1 (agree_or_differ A B pairs m) (H m) D).
  - rewrite Hm.
    assert (N : forall v, ~ differ_on A B pairs v).
    { intros v D.
      apply (differ_on_ext A B pairs v (fun x => v (Z3.symbol x))) in D.
      - apply Hsem in D.
        rewrite (Z3.unsat_sound solve Hsound _ S _ (respects_through_symbol v))
          in D.
        discriminate.
      - intros x Hx. rewrite forallb_forall in Hnul.
        now rewrite (symbol_nul_free x (Hnul x Hx)). }
    split; split.
    + intros (x & [=]).
    + intros (v & D). exfalso. exact (N v D).
    + intros _ v. apply agree_or_differ, N.
    + reflexivity.
  - exfalso. exact (Hdec _ S).
Qed.

(** The witness is the pair of test_equivalent_circuits. *)
Lemma verdict_decides_equivalence_witness :
  let pairs := combine (Circuit.outputs distr1) (Circuit.outputs distr2) in
  let r := CircuitEquivalence.outcome
             (CircuitEquivalence.check_circuit_equivalence Z3.search distr1 distr2) in
  (NotEquivalent r <-> exists v, differ_on distr1 distr2 pairs v)
  /\ (Equivalent r <-> forall v, agree_on distr1 distr2 pairs v).
Proof.
  apply (verdict_decides_equivalence Z3.search distr1 distr2);
    [exact search_sound | exact search_decides | reflexivity | reflexivity
     | repeat constructor; simpl; intuition discriminate
     | repeat constructor; simpl; intuition discriminate
     | reflexivity | reflexivity].
Defined.

(** ** The differing outputs where no output name is repeated *)

(** X27: where neither circuit lists an output name twice the differing
    outputs are reported exactly: whenever the call returns a
    counterexample, with a sound solver, the reported list contains
    exactly those positional pairs of outputs whose compiled terms have
    different values under the model of the solver, with these values, and
    there is at least one such pair. *)
Theorem differing_outputs_exact
    (solve : list Z3.expr -> Z3.check_result) (A B : Circuit.t)
    (input_assignment : Dict.t bool)
    (differing_outputs : list (string * string * bool * bool)) :
  Z3.sound solve ->
  NoDup (Circuit.outputs A) ->
  NoDup (Circuit.outputs B) ->
  CircuitEquivalence.outcome (CircuitEquivalence.check_circuit_equivalence solve A B)
  = Ok (false, Some (input_assignment, differing_outputs)) ->
  exists outputs1 outputs2 fs m,
    compile A = Ok outputs1 /\ compile B = Ok outputs2
    /\ CircuitEquivalence.queries
         (CircuitEquivalence.check_circuit_equivalence solve A B) = [fs]
    /\ solve fs = Z3.sat m
    /\ differing_outputs <> []
    /\ forall out1 out2 val1 val2,
         In (out1, out2, val1, val2) differing_outputs
         <-> In (out1, out2) (combine (Circuit.outputs A) (Circuit.outputs B))
             /\ differs_under m outputs1 outputs2 out1 out2 val1 val2.
Proof.
  intros Hsound NA NB H.
  destruct (structurally_valid A) eqn:HA;
    [|rewrite check_exit in H by (now left); discriminate].
  destruct (structurally_valid B) eqn:HB;
    [|rewrite check_exit in H by (now right); discriminate].
  destruct (compile_valid A HA) as (o1 & CA & KA & _).
  destruct (compile_valid B HB) as (o2 & CB & KB & _).
  pose proof (check_run solve A B o1 o2 CA CB) as R. cbv zeta in R.
  rewrite KA, KB in R.
  destruct (_ =? _)%nat; [|rewrite R in H; discriminate].
  destruct R as (dcs & miter & _ & _ & Q & Hsem & Hm).
  destruct (solve [miter]) as [m| |] eqn:S;
    [|rewrite Hm in H; discriminate|rewrite Hm in H; discriminate].
  destruct Hm as (ia & ds & Ho & _ & _ & Hd).
  rewrite Ho in H. injection H as <- <-.
  rewrite (distinct_NoDup _ NA), (distinct_NoDup _ NB) in Hd.
  exists o1, o2, [miter], m. repeat (split; [assumption|]). split.
  - apply (Z3.sat_sound solve Hsound), Hsem in S.
    destruct S as (x & y & b1 & b2 & Hin & D).
    rewrite (distinct_NoDup _ NA), (distinct_NoDup _ NB) in Hin.
    intros E. rewrite E in Hd. apply (Hd x y b1 b2). now split.
  - exact Hd.
Qed.

(** The witness is the pair of test_non_equivalent_circuits. *)
Lemma differing_outputs_exact_witness :
  exists outputs1 outputs2 fs m,
    compile distr1 = Ok outputs1 /\ compile distr2_or = Ok outputs2
    /\ CircuitEquivalence.queries
         (CircuitEquivalence.check_circuit_equivalence Z3.search distr1 distr2_or)
       = [fs]
    /\ Z3.search fs = Z3.sat m
    /\ [("E", "E", false, true)] <> []
    /\ forall out1 out2 val1 val2,
         In (out1, out2, val1, val2) [("E", "E", false, true)]
         <-> In (out1, out2)
                (combine (Circuit.outputs distr1) (Circuit.outputs distr2_or))
             /\ differs_under m outputs1 outputs2 out1 out2 val1 val2.
Proof.
  apply (differing_outputs_exact Z3.search distr1 distr2_or
           [("A", false); ("B", true); ("C", false)]);
    [exact search_sound
     | repeat constructor; simpl; intuition discriminate
     | repeat constructor; simpl; intuition discriminate
     | vm_compute; reflexivity].
Defined.
